(** * Lazy coefficient streams (sage/data_structures/stream.py)

    A shallow embedding of the stream engine behind lazy power and Laurent
    series: every Python class becomes a record of its attributes, every
    method an explicit state-passing function, and every [raise] a value of
    the [result] type. *)

From Stdlib Require Import ZArith List Lia Bool Ring.
From stdpp Require Import base decidable option list gmap.

#[local] Unset Default Proof Using.
#[local] Open Scope Z_scope.

(** ** Python values: exceptions and results *)

Inductive exn : Type :=
| ValueError
| ZeroDivisionError
| AssertionError
| TypeError
| IndexError
| AttributeError
| NotImplementedError
| StopIteration.

(** The outcome of running a method: a value, a raised exception, or a loop
    that was cut off before it finished ([Diverge]). *)
Inductive result (A : Type) : Type :=
| Ok (a : A)
| Raise (e : exn)
| Diverge.

Arguments Ok {A} a.
Arguments Raise {A} e.
Arguments Diverge {A}.

Definition bind {A B : Type} (m : result A) (k : A -> result B) : result B :=
  match m with
  | Ok a => k a
  | Raise e => Raise e
  | Diverge => Diverge
  end.

Notation "'let*' p ':=' m 'in' k" := (bind m (fun p => k))
  (at level 10, p pattern, m at level 100, k at level 200,
   format "'[' 'let*'  p  ':='  m  'in' ']' '/' k").

(** Orders live in the integers extended by [+Infinity] (the order of
    [Stream_zero]). *)
Inductive ext : Type :=
| Fin (z : Z)
| PosInf.

(** ** Exact streams: [Stream_exact] *)

Section Exact.
Context {R : Type} `{EqDecision R}.
Variable rO : R.

(** Truth value of a ring element: [bool(c)]. *)
Definition truthy (c : R) : bool := negb (bool_decide (c = rO)).

Record Stream_exact : Type := mkExact {
  _initial_coefficients : list R;
  _constant : R;
  _degree : Z;
  exact_approximate_order : Z
}.

(** [for i, v in enumerate(initial_coefficients): if v: ...]: the index of
    the first entry that is not zero. *)
Fixpoint first_nonzero (l : list R) : option nat :=
  match l with
  | [] => None
  | v :: l' => if truthy v then Some O else S <$> first_nonzero l'
  end.

(** [for w in reversed(l): if not (w == constant): break; l.pop();
    degree -= 1], run on the reversed list. *)
Fixpoint strip_constant_rev (c : R) (rl : list R) (degree : Z) : list R * Z :=
  match rl with
  | [] => ([], degree)
  | w :: rl' =>
      if bool_decide (w = c) then strip_constant_rev c rl' (degree - 1)
      else (rl, degree)
  end.

Definition strip_constant (c : R) (l : list R) (degree : Z) : list R * Z :=
  let '(rl, d) := strip_constant_rev c (reverse l) degree in (reverse rl, d).

(** [for w in reversed(l): if w: break; l.pop()], run on the reversed list. *)
Fixpoint strip_zeros_rev (rl : list R) : list R :=
  match rl with
  | [] => []
  | w :: rl' => if truthy w then rl else strip_zeros_rev rl'
  end.

Definition strip_zeros (l : list R) : list R := reverse (strip_zeros_rev (reverse l)).

(** The defaults of [__init__] and the degree it starts from. *)
Definition init_constant (constant : option R) : R :=
  match constant with None => rO | Some c => c end.

Definition init_order (order : option Z) : Z :=
  match order with None => 0 | Some o => o end.

Definition init_degree (len : Z) (constant : R) (degree : option Z) (order : Z) : Z :=
  match degree with
  | None => order + len
  | Some d => if negb (truthy constant) && (order + len <? d)
              then order + len else d
  end.

(** [Stream_exact.__init__]. *)
Definition Stream_exact_init (initial_coefficients : list R)
    (constant : option R) (degree : option Z) (order : option Z)
  : result Stream_exact :=
  let constant := init_constant constant in
  let order := init_order order in
  let len := Z.of_nat (length initial_coefficients) in
  let degree := init_degree len constant degree order in
  if negb (order + len <=? degree) then Raise AssertionError else
  let '(ic, degree, order) :=
    match first_nonzero initial_coefficients with
    | Some i =>
        let order := order + Z.of_nat i in
        let ic := drop i initial_coefficients in
        let '(ic, degree) :=
          if order + Z.of_nat (length ic) =? degree
          then strip_constant constant ic degree
          else (ic, degree) in
        (strip_zeros ic, degree, order)
    | None => ([], degree, degree)
    end in
  if negb (negb (bool_decide (ic = [])) || truthy constant)
  then Raise AssertionError
  else Ok (mkExact ic constant degree order).

(** [Stream_exact.__getitem__]. *)
Definition Stream_exact_getitem (s : Stream_exact) (n : Z) : R :=
  if _degree s <=? n then _constant s
  else
    let i := n - exact_approximate_order s in
    if (i <? 0) || (Z.of_nat (length (_initial_coefficients s)) <=? i)
    then rO
    else nth (Z.to_nat i) (_initial_coefficients s) rO.

(** [Stream_exact.order]. *)
Definition Stream_exact_order (s : Stream_exact) : Z := exact_approximate_order s.

(** [Stream_exact.__eq__] between two exact streams. *)
Definition Stream_exact_eq (s t : Stream_exact) : bool :=
  bool_decide (_degree s = _degree t)
  && bool_decide (exact_approximate_order s = exact_approximate_order t)
  && bool_decide (_initial_coefficients s = _initial_coefficients t)
  && bool_decide (_constant s = _constant t).

(** [[s[i] for i in range(order - 2, degree + 5)]]. *)
Definition sample (s : Stream_exact) : list R :=
  map (Stream_exact_getitem s)
      (seqZ (Stream_exact_order s - 2) (_degree s + 5 - (Stream_exact_order s - 2))).

(** The constructor run again on the sampled coefficients, anchored at
    [order - 2] and with the same constant. *)
Definition reconstruct (s : Stream_exact) : result Stream_exact :=
  Stream_exact_init (sample s) (Some (_constant s)) None
                    (Some (Stream_exact_order s - 2)).

(** The sequence a representation stands for: [ic] anchored at [o], zero
    in the gap up to [D], and [c] from [D] on. *)
Definition denote (ic : list R) (c : R) (D o : Z) (n : Z) : R :=
  if D <=? n then c
  else if n <? o then rO
  else default rO (ic !! Z.to_nat (n - o)).

(** The sequence the arguments of the constructor stand for. *)
Definition argument_sequence (ic : list R) (constant : option R)
    (degree : option Z) (order : option Z) : Z -> R :=
  let c := init_constant constant in
  let o := init_order order in
  denote ic c (init_degree (Z.of_nat (length ic)) c degree o) o.

(** The normal form the constructor produces. *)
Record canonical (s : Stream_exact) : Prop := {
  can_bound : exact_approximate_order s + Z.of_nat (length (_initial_coefficients s))
              <= _degree s;
  can_head : forall v, head (_initial_coefficients s) = Some v -> v <> rO;
  can_last : forall v, last (_initial_coefficients s) = Some v -> v <> rO;
  can_tail : exact_approximate_order s + Z.of_nat (length (_initial_coefficients s))
             = _degree s ->
             forall v, last (_initial_coefficients s) = Some v -> v <> _constant s;
  can_empty : _initial_coefficients s = [] ->
              exact_approximate_order s = _degree s /\ _constant s <> rO;
  can_zero : _constant s = rO ->
             exact_approximate_order s + Z.of_nat (length (_initial_coefficients s))
             = _degree s
}.

End Exact.

Arguments mkExact {R} _ _ _ _.

Example exact_doctest_1 :
  Stream_exact_init 0 [0; 0; 1; 0; 0] None None None = Ok (mkExact [1] 0 3 2).
Proof. reflexivity. Qed.

Example exact_doctest_2 :
  Stream_exact_init 0 [0; 0; 1; 0; 1] (Some 1) (Some 10) None
  = Ok (mkExact [1; 0; 1] 1 10 2).
Proof. reflexivity. Qed.

Example exact_doctest_3 :
  Stream_exact_init 0 [0; 0; 1; 0; 1] (Some 1) (Some 5) None = Ok (mkExact [1] 1 4 2).
Proof. reflexivity. Qed.

Example exact_doctest_4 :
  Stream_exact_init 0 [0; 0; 1; 2; 1; 1] (Some 1) None (Some (-2))
  = Ok (mkExact [1; 2] 1 2 0).
Proof. reflexivity. Qed.

Example exact_doctest_5 :
  Stream_exact_init 0 ([] : list Z) None None None = Raise AssertionError.
Proof. reflexivity. Qed.

Example exact_doctest_6 :
  (let* s := Stream_exact_init 0 [2] (Some 1) (Some 2) (Some (-1)) in
   Ok (map (Stream_exact_getitem 0 s) (seqZ (-2) 7)))
  = Ok [0; 2; 0; 0; 1; 1; 1].
Proof. reflexivity. Qed.

Example exact_reconstruct_1 :
  (let* s := Stream_exact_init 0 [0; 0; 1; 0; 1] (Some 1) (Some 10) None in
   reconstruct 0 s)
  = Ok (mkExact [1; 0; 1] 1 10 2).
Proof. reflexivity. Qed.

(** ** Facts about exact streams *)

Section ExactFacts.
Context {R : Type} `{EqDecision R}.
Variable rO : R.

Lemma truthy_true (c : R) : truthy rO c = true <-> c <> rO.
Proof. unfold truthy. rewrite negb_true_iff, bool_decide_eq_false. tauto. Qed.

Lemma truthy_false (c : R) : truthy rO c = false <-> c = rO.
Proof. unfold truthy. rewrite negb_false_iff, bool_decide_eq_true. tauto. Qed.

Lemma first_nonzero_Some (l : list R) (i : nat) :
  first_nonzero rO l = Some i ->
  exists v rest, l = replicate i rO ++ v :: rest /\ v <> rO.
Proof.
  revert i. induction l as [|w l IH]; intros i Hi; simpl in Hi; [discriminate|].
  destruct (truthy rO w) eqn:Hw.
  - inversion Hi; subst. exists w, l. split; [reflexivity|].
    now apply truthy_true.
  - destruct (first_nonzero rO l) as [j|]; simpl in Hi; [|discriminate].
    inversion Hi; subst. destruct (IH j eq_refl) as (v & rest & -> & Hv).
    apply truthy_false in Hw. subst w. exists v, rest. split; [reflexivity|assumption].
Qed.

Lemma first_nonzero_None (l : list R) :
  first_nonzero rO l = None -> l = replicate (length l) rO.
Proof.
  induction l as [|w l IH]; intros Hl; simpl in *; [reflexivity|].
  destruct (truthy rO w) eqn:Hw; [discriminate|].
  destruct (first_nonzero rO l); simpl in Hl; [discriminate|].
  apply truthy_false in Hw. subst w. f_equal. now apply IH.
Qed.

Lemma first_nonzero_replicate (i : nat) (v : R) (rest : list R) :
  v <> rO -> first_nonzero rO (replicate i rO ++ v :: rest) = Some i.
Proof.
  intros Hv. induction i as [|i IH]; simpl.
  - apply truthy_true in Hv. now rewrite Hv.
  - assert (truthy rO rO = false) as -> by now apply truthy_false.
    now rewrite IH.
Qed.

Lemma strip_constant_rev_spec (c : R) (rl : list R) (d : Z) :
  exists k, rl = replicate k c ++ (strip_constant_rev c rl d).1
            /\ (strip_constant_rev c rl d).2 = d - Z.of_nat k
            /\ forall w, head (strip_constant_rev c rl d).1 = Some w -> w <> c.
Proof.
  revert d. induction rl as [|w rl IH]; intros d; simpl.
  - exists O. split; [reflexivity|]. split; [lia|]. intros w Hw. discriminate.
  - destruct (bool_decide (w = c)) eqn:Hw.
    + apply bool_decide_eq_true in Hw. subst w.
      destruct (IH (d - 1)) as (k & Hk1 & Hk2 & Hk3).
      exists (S k). split; [simpl; now f_equal|]. split; [lia|assumption].
    + apply bool_decide_eq_false in Hw. exists O. simpl.
      split; [reflexivity|]. split; [lia|]. intros w' Hw'. now inversion Hw'; subst.
Qed.

Lemma strip_constant_spec (c : R) (l : list R) (d : Z) :
  exists k, l = (strip_constant c l d).1 ++ replicate k c
            /\ (strip_constant c l d).2 = d - Z.of_nat k
            /\ forall w, last (strip_constant c l d).1 = Some w -> w <> c.
Proof.
  unfold strip_constant.
  destruct (strip_constant_rev_spec c (reverse l) d) as (k & Hk1 & Hk2 & Hk3).
  destruct (strip_constant_rev c (reverse l) d) as [rl d']. simpl in *.
  exists k. split; [|split; [assumption|]].
  - rewrite <- (reverse_involutive l), Hk1, reverse_app, reverse_replicate.
    reflexivity.
  - intros w Hw. rewrite last_reverse in Hw. now apply Hk3.
Qed.

Lemma strip_zeros_rev_spec (rl : list R) :
  exists k, rl = replicate k rO ++ strip_zeros_rev rO rl
            /\ forall w, head (strip_zeros_rev rO rl) = Some w -> w <> rO.
Proof.
  induction rl as [|w rl IH]; simpl.
  - exists O. split; [reflexivity|]. intros w Hw. discriminate.
  - destruct (truthy rO w) eqn:Hw.
    + apply truthy_true in Hw. exists O. split; [reflexivity|].
      intros w' Hw'. now inversion Hw'; subst.
    + apply truthy_false in Hw. subst w. destruct IH as (k & Hk1 & Hk2).
      exists (S k). split; [simpl; now f_equal|assumption].
Qed.

Lemma strip_zeros_spec (l : list R) :
  exists k, l = strip_zeros rO l ++ replicate k rO
            /\ forall w, last (strip_zeros rO l) = Some w -> w <> rO.
Proof.
  unfold strip_zeros.
  destruct (strip_zeros_rev_spec (reverse l)) as (k & Hk1 & Hk2).
  exists k. split.
  - rewrite <- (reverse_involutive l) at 1. rewrite Hk1 at 1.
    rewrite reverse_app, reverse_replicate. reflexivity.
  - intros w Hw. rewrite last_reverse in Hw. now apply Hk2.
Qed.

Lemma getitem_denote (s : Stream_exact) (n : Z) :
  Stream_exact_getitem rO s n
  = denote rO (_initial_coefficients s) (_constant s) (_degree s)
           (exact_approximate_order s) n.
Proof.
  unfold Stream_exact_getitem, denote.
  destruct (Z.leb_spec (_degree s) n); [reflexivity|].
  destruct (Z.ltb_spec n (exact_approximate_order s)).
  - destruct (Z.ltb_spec (n - exact_approximate_order s) 0); [reflexivity|lia].
  - destruct (Z.ltb_spec (n - exact_approximate_order s) 0); [lia|]. simpl.
    destruct (Z.leb_spec (Z.of_nat (length (_initial_coefficients s)))
                (n - exact_approximate_order s)).
    + rewrite lookup_ge_None_2 by lia. reflexivity.
    + apply nth_lookup.
Qed.

Lemma denote_leading_zeros (i : nat) (l : list R) (c : R) (D o n : Z) :
  denote rO (replicate i rO ++ l) c D o n = denote rO l c D (o + Z.of_nat i) n.
Proof.
  unfold denote. destruct (Z.leb_spec D n); [reflexivity|].
  destruct (Z.ltb_spec n o), (Z.ltb_spec n (o + Z.of_nat i)); try lia;
    try reflexivity.
  - rewrite lookup_app_l by (rewrite length_replicate; lia).
    rewrite lookup_replicate_2 by lia. reflexivity.
  - rewrite lookup_app_r by (rewrite length_replicate; lia).
    rewrite length_replicate. do 2 f_equal. lia.
Qed.

Lemma denote_trailing_zeros (k : nat) (l : list R) (c : R) (D o n : Z) :
  denote rO (l ++ replicate k rO) c D o n = denote rO l c D o n.
Proof.
  unfold denote. destruct (Z.leb_spec D n); [reflexivity|].
  destruct (Z.ltb_spec n o); [reflexivity|].
  destruct (decide (Z.to_nat (n - o) < length l)%nat) as [Hlt|Hge].
  - now rewrite lookup_app_l.
  - rewrite lookup_app_r by lia. rewrite (lookup_ge_None_2 l) by lia.
    destruct (replicate k rO !! _) as [x|] eqn:Hx; [|reflexivity].
    apply lookup_replicate in Hx. simpl. tauto.
Qed.

Lemma denote_trailing_constant (k : nat) (l : list R) (c : R) (D o n : Z) :
  o + Z.of_nat (length l) + Z.of_nat k = D ->
  denote rO (l ++ replicate k c) c D o n = denote rO l c (D - Z.of_nat k) o n.
Proof.
  intros HD. unfold denote.
  destruct (Z.leb_spec D n), (Z.leb_spec (D - Z.of_nat k) n); try lia;
    try reflexivity.
  - destruct (Z.ltb_spec n o); [lia|].
    rewrite lookup_app_r by lia. rewrite lookup_replicate_2 by lia. reflexivity.
  - destruct (Z.ltb_spec n o); [reflexivity|].
    rewrite lookup_app_l by lia. reflexivity.
Qed.

Lemma denote_all_zero (m : nat) (c : R) (D o n : Z) :
  o + Z.of_nat m <= D ->
  denote rO (replicate m rO) c D o n = denote rO [] c D D n.
Proof.
  intros HD. unfold denote. destruct (Z.leb_spec D n); [reflexivity|].
  destruct (Z.ltb_spec n D); [|lia].
  destruct (Z.ltb_spec n o); [reflexivity|].
  destruct (replicate m rO !! _) as [x|] eqn:Hx; [|reflexivity].
  apply lookup_replicate in Hx. simpl. tauto.
Qed.

Lemma last_nonzero_no_padding (l l' : list R) (k : nat) (c : R) :
  l = l' ++ replicate k c ->
  (forall w, last l = Some w -> w <> c) ->
  k = O /\ l = l'.
Proof.
  intros Hl Hlast. destruct k as [|k].
  - simpl in Hl. rewrite app_nil_r in Hl. now split.
  - exfalso. rewrite replicate_S_end, app_assoc in Hl.
    apply (Hlast c); [|reflexivity]. rewrite Hl. apply last_snoc.
Qed.

Lemma init_degree_zero_constant (len : Z) (d : option Z) (o : Z) :
  o + len <= init_degree rO len rO d o ->
  init_degree rO len rO d o = o + len.
Proof.
  unfold init_degree. destruct d as [d|]; [|reflexivity].
  assert (truthy rO rO = false) as -> by now apply truthy_false.
  simpl. destruct (Z.ltb_spec (o + len) d); lia.
Qed.

(** The two stripping loops, run on a list with a non-zero head. *)
Lemma normalize_spec (v : R) (rest : list R) (c : R) (D o : Z) :
  let l1 := v :: rest in
  let p := if o + Z.of_nat (length l1) =? D
           then strip_constant c l1 D else (l1, D) in
  let l3 := strip_zeros rO p.1 in
  v <> rO ->
  o + Z.of_nat (length l1) <= D ->
  (c = rO -> D = o + Z.of_nat (length l1)) ->
  (l3 <> [] \/ c <> rO) ->
  canonical rO (mkExact l3 c p.2 o)
  /\ forall n, denote rO l3 c p.2 o n = denote rO l1 c D o n.
Proof.
  intros l1 p l3 Hv Hbound Hzero Hnz.
  destruct (strip_zeros_spec p.1) as (k' & Hk' & Hlast3).
  fold l3 in Hk', Hlast3. clearbody l3.
  assert (Hhead : forall w, head l3 = Some w -> w = v).
  { intros w Hw. apply head_Some in Hw as [t Ht].
    assert (head p.1 = Some w) as Hp by (rewrite Hk', Ht; reflexivity).
    subst p. destruct (o + Z.of_nat (length l1) =? D).
    - destruct (strip_constant_spec c l1 D) as (k & Hk & _ & _).
      apply head_Some in Hp as [t' Ht']. rewrite Ht' in Hk.
      unfold l1 in Hk. simpl in Hk. congruence.
    - simpl in Hp. congruence. }
  subst p. destruct (Z.eqb_spec (o + Z.of_nat (length l1)) D) as [HD|HD].
  - destruct (strip_constant_spec c l1 D) as (k & Hk & Hd & Hlast2).
    destruct (strip_constant c l1 D) as [l2 D2]. cbn [fst snd] in *.
    assert (Hlen : length l1 = (length l3 + k' + k)%nat).
    { rewrite Hk, Hk'. rewrite !length_app, !length_replicate. reflexivity. }
    split.
    + constructor; simpl.
      * lia.
      * intros w Hw. apply Hhead in Hw. congruence.
      * assumption.
      * intros Heq w Hw. assert (k' = O) as -> by lia.
        simpl in Hk'. rewrite app_nil_r in Hk'. subst l2. now apply Hlast2.
      * intros Hnil. split; [|destruct Hnz; congruence].
        rewrite Hnil in Hk'. simpl in Hk'. destruct k' as [|k'].
        -- assert (length l3 = O) by (rewrite Hnil; reflexivity). lia.
        -- exfalso. rewrite Hk' in Hk. unfold l1 in Hk. simpl in Hk. congruence.
      * intros Hc. destruct (last_nonzero_no_padding l2 l3 k' rO Hk') as [-> _];
          [intros w Hw; rewrite <- Hc; now apply Hlast2|]. lia.
    + intros n. rewrite Hk.
      rewrite denote_trailing_constant
        by (rewrite Hk', length_app, length_replicate; lia).
      rewrite Hd, Hk'. apply eq_sym, denote_trailing_zeros.
  - cbn [fst snd] in *.
    assert (Hlen : length l1 = (length l3 + k')%nat).
    { rewrite Hk' at 1. rewrite length_app, length_replicate. reflexivity. }
    split.
    + constructor; simpl.
      * lia.
      * intros w Hw. apply Hhead in Hw. congruence.
      * assumption.
      * intros Heq. lia.
      * intros Hnil. exfalso. destruct (head l3) eqn:Hh.
        -- rewrite Hnil in Hh. discriminate.
        -- rewrite Hnil in Hk'. simpl in Hk'. destruct k' as [|k'].
           ++ unfold l1 in Hk'. discriminate.
           ++ unfold l1 in Hk'. simpl in Hk'. congruence.
      * intros Hc. apply Hzero in Hc. lia.
    + intros n. rewrite Hk'. apply eq_sym, denote_trailing_zeros.
Qed.

(** The constructor returns a canonical representation of the sequence
    its arguments stand for. *)
Lemma Stream_exact_init_sound (ic : list R) (c : option R) (d o : option Z)
    (s : Stream_exact) :
  Stream_exact_init rO ic c d o = Ok s ->
  canonical rO s
  /\ forall n, Stream_exact_getitem rO s n = argument_sequence rO ic c d o n.
Proof.
  unfold Stream_exact_init, argument_sequence.
  set (c0 := init_constant rO c). set (o0 := init_order o).
  set (D0 := init_degree rO (Z.of_nat (length ic)) c0 d o0).
  destruct (Z.leb_spec (o0 + Z.of_nat (length ic)) D0) as [Hb|]; [|discriminate].
  simpl negb. cbv iota.
  assert (Hz : c0 = rO -> D0 = o0 + Z.of_nat (length ic)).
  { intros Hc. subst D0. revert Hb. rewrite Hc. apply init_degree_zero_constant. }
  destruct (first_nonzero rO ic) as [i|] eqn:Hfirst.
  - apply first_nonzero_Some in Hfirst as (v & rest & Hic & Hv).
    assert (Hdrop : drop i ic = v :: rest).
    { rewrite Hic. apply drop_app_length'. now rewrite length_replicate. }
    rewrite Hdrop.
    assert (Hlen : length ic = (i + length (v :: rest))%nat).
    { rewrite Hic at 1. now rewrite length_app, length_replicate. }
    pose proof (normalize_spec v rest c0 D0 (o0 + Z.of_nat i) Hv) as Hn.
    cbv zeta in Hn.
    destruct (if o0 + Z.of_nat i + Z.of_nat (length (v :: rest)) =? D0
              then strip_constant c0 (v :: rest) D0 else (v :: rest, D0))
      as [l2 D2].
    cbn [fst snd] in Hn.
    destruct (bool_decide (strip_zeros rO l2 = [])) eqn:Hnil;
      destruct (truthy rO c0) eqn:Hc; simpl; try discriminate;
      intros [= <-];
      (destruct Hn as [Hcan Hden];
       [lia | intros Hc0; rewrite Hz by exact Hc0; lia | | ]).
    + right. now apply truthy_true.
    + split; [exact Hcan|]. intros n. rewrite getitem_denote. simpl.
      rewrite Hden, Hic. apply eq_sym, denote_leading_zeros.
    + left. now apply bool_decide_eq_false in Hnil.
    + split; [exact Hcan|]. intros n. rewrite getitem_denote. simpl.
      rewrite Hden, Hic. apply eq_sym, denote_leading_zeros.
    + left. now apply bool_decide_eq_false in Hnil.
    + split; [exact Hcan|]. intros n. rewrite getitem_denote. simpl.
      rewrite Hden, Hic. apply eq_sym, denote_leading_zeros.
  - apply first_nonzero_None in Hfirst.
    rewrite bool_decide_eq_true_2 by reflexivity. simpl.
    destruct (truthy rO c0) eqn:Hc; simpl; [|discriminate].
    apply truthy_true in Hc. intros [= <-]. split.
    + constructor; simpl; try discriminate; try lia; try tauto.
    + intros n. rewrite getitem_denote. simpl. rewrite Hfirst.
      apply eq_sym, denote_all_zero. exact Hb.
Qed.

Lemma canonical_below (s : Stream_exact) (n : Z) :
  canonical rO s -> n < exact_approximate_order s -> Stream_exact_getitem rO s n = rO.
Proof.
  intros [Hb _ _ _ _ _] Hn. rewrite getitem_denote. unfold denote.
  destruct (Z.leb_spec (_degree s) n); [lia|].
  destruct (Z.ltb_spec n (exact_approximate_order s)); [reflexivity|lia].
Qed.

Lemma canonical_at_order (s : Stream_exact) :
  canonical rO s -> Stream_exact_getitem rO s (exact_approximate_order s) <> rO.
Proof.
  intros [Hb Hh _ _ He _]. rewrite getitem_denote. unfold denote.
  destruct (_initial_coefficients s) as [|v l] eqn:Hic.
  - destruct (He eq_refl) as [-> Hc].
    destruct (Z.leb_spec (_degree s) (_degree s)); [exact Hc|lia].
  - simpl in Hb.
    destruct (Z.leb_spec (_degree s) (exact_approximate_order s)); [lia|].
    destruct (Z.ltb_spec (exact_approximate_order s) (exact_approximate_order s));
      [lia|].
    rewrite Z.sub_diag. simpl. now apply Hh.
Qed.

Lemma canonical_from_degree (s : Stream_exact) (n : Z) :
  _degree s <= n -> Stream_exact_getitem rO s n = _constant s.
Proof.
  intros Hn. unfold Stream_exact_getitem.
  destruct (Z.leb_spec (_degree s) n); [reflexivity|lia].
Qed.

Lemma canonical_gap (s : Stream_exact) (n : Z) :
  exact_approximate_order s + Z.of_nat (length (_initial_coefficients s)) <= n ->
  n < _degree s ->
  Stream_exact_getitem rO s n = rO.
Proof.
  intros Hn1 Hn2. rewrite getitem_denote. unfold denote.
  destruct (Z.leb_spec (_degree s) n); [lia|].
  destruct (Z.ltb_spec n (exact_approximate_order s)); [reflexivity|].
  rewrite lookup_ge_None_2 by lia. reflexivity.
Qed.

Lemma canonical_inside (s : Stream_exact) (i : nat) :
  canonical rO s -> (i < length (_initial_coefficients s))%nat ->
  Some (Stream_exact_getitem rO s (exact_approximate_order s + Z.of_nat i))
  = _initial_coefficients s !! i.
Proof.
  intros [Hb _ _ _ _ _] Hi. rewrite getitem_denote. unfold denote.
  destruct (Z.leb_spec (_degree s) (exact_approximate_order s + Z.of_nat i)); [lia|].
  destruct (Z.ltb_spec (exact_approximate_order s + Z.of_nat i)
              (exact_approximate_order s)); [lia|].
  replace (Z.to_nat (exact_approximate_order s + Z.of_nat i
                     - exact_approximate_order s)) with i by lia.
  destruct (lookup_lt_is_Some_2 (_initial_coefficients s) i Hi) as [x Hx].
  now rewrite Hx.
Qed.

Lemma canonical_last (s : Stream_exact) :
  canonical rO s -> _initial_coefficients s <> [] ->
  Stream_exact_getitem rO s
    (exact_approximate_order s + Z.of_nat (length (_initial_coefficients s)) - 1)
  <> rO.
Proof.
  intros Hcan Hne. pose proof Hcan as [Hb _ Hl _ _ _].
  destruct (_initial_coefficients s) as [|v l] eqn:Hic; [congruence|].
  pose proof (canonical_inside s (length l) Hcan) as Hin.
  rewrite Hic in Hin. simpl length in *.
  replace (exact_approximate_order s + Z.of_nat (S (length l)) - 1)
    with (exact_approximate_order s + Z.of_nat (length l)) by lia.
  intros H0. rewrite H0 in Hin. apply (Hl rO); [|reflexivity].
  rewrite last_lookup. simpl. rewrite <- Hin by lia. reflexivity.
Qed.

Lemma canonical_before_degree (s : Stream_exact) :
  canonical rO s -> Stream_exact_getitem rO s (_degree s - 1) <> _constant s.
Proof.
  intros Hcan. pose proof Hcan as [Hb _ Hl Ht He Hz].
  destruct (decide (_initial_coefficients s = [])) as [Hnil|Hne].
  - destruct (He Hnil) as [Hao Hc]. rewrite canonical_below; [congruence|assumption|lia].
  - destruct (decide (exact_approximate_order s
                      + Z.of_nat (length (_initial_coefficients s)) = _degree s))
      as [Heq|Hneq].
    + intros Hc. apply last_is_Some in Hne as [w Hw].
      apply (Ht Heq w Hw). rewrite <- Hc.
      assert (Hlen : (0 < length (_initial_coefficients s))%nat).
      { destruct (_initial_coefficients s); [discriminate|simpl; lia]. }
      pose proof (canonical_inside s (pred (length (_initial_coefficients s))) Hcan)
        as Hin.
      rewrite <- last_lookup, Hw in Hin.
      replace (_degree s - 1) with
        (exact_approximate_order s
         + Z.of_nat (pred (length (_initial_coefficients s)))) by lia.
      specialize (Hin ltac:(lia)). congruence.
    + rewrite canonical_gap by lia. intros Hc. symmetry in Hc. apply Hz in Hc. lia.
Qed.

(** Two canonical representations of one sequence coincide. *)
Lemma canonical_unique (s t : Stream_exact) :
  canonical rO s -> canonical rO t ->
  (forall n, Stream_exact_getitem rO s n = Stream_exact_getitem rO t n) ->
  s = t.
Proof.
  intros Hs Ht Heq.
  assert (Hao : exact_approximate_order s = exact_approximate_order t).
  { destruct (Z.lt_trichotomy (exact_approximate_order s) (exact_approximate_order t))
      as [Hlt|[Heq'|Hgt]]; [|assumption|].
    - exfalso. apply (canonical_at_order s Hs). rewrite Heq.
      now apply canonical_below.
    - exfalso. apply (canonical_at_order t Ht). rewrite <- Heq.
      now apply canonical_below. }
  assert (Hc : _constant s = _constant t).
  { rewrite <- (canonical_from_degree s (Z.max (_degree s) (_degree t))) by lia.
    rewrite <- (canonical_from_degree t (Z.max (_degree s) (_degree t))) by lia.
    apply Heq. }
  assert (Hd : _degree s = _degree t).
  { destruct (Z.lt_trichotomy (_degree s) (_degree t)) as [Hlt|[Heq'|Hgt]];
      [|assumption|].
    - exfalso. apply (canonical_before_degree t Ht).
      rewrite <- Heq, <- Hc. apply canonical_from_degree. lia.
    - exfalso. apply (canonical_before_degree s Hs).
      rewrite Heq, Hc. apply canonical_from_degree. lia. }
  assert (Hlen : length (_initial_coefficients s) = length (_initial_coefficients t)).
  { pose proof Hs as [Hbs _ _ _ _ _]. pose proof Ht as [Hbt _ _ _ _ _].
    destruct (Nat.lt_trichotomy (length (_initial_coefficients s))
                (length (_initial_coefficients t))) as [Hlt|[Heq'|Hgt]];
      [|assumption|].
    - exfalso. apply (canonical_last t Ht).
      { intros Hnil. rewrite Hnil in Hlt. simpl in Hlt. lia. }
      rewrite <- Heq. apply canonical_gap; lia.
    - exfalso. apply (canonical_last s Hs).
      { intros Hnil. rewrite Hnil in Hgt. simpl in Hgt. lia. }
      rewrite Heq. apply canonical_gap; lia. }
  assert (Hic : _initial_coefficients s = _initial_coefficients t).
  { apply list_eq. intros i.
    destruct (decide (i < length (_initial_coefficients s))%nat) as [Hi|Hi].
    - rewrite <- (canonical_inside s i Hs Hi).
      rewrite <- (canonical_inside t i Ht) by lia. now rewrite Heq, Hao.
    - rewrite !lookup_ge_None_2 by lia. reflexivity. }
  destruct s, t; simpl in *; congruence.
Qed.

Lemma Stream_exact_eq_true (s t : @Stream_exact R) :
  Stream_exact_eq s t = true <-> s = t.
Proof.
  unfold Stream_exact_eq. rewrite !andb_true_iff, !bool_decide_eq_true.
  split.
  - intros [[[H1 H2] H3] H4]. destruct s, t; simpl in *; congruence.
  - intros ->. tauto.
Qed.

(** After the stripping loops a list with a non-zero head leaves a
    non-empty list or a non-zero constant: the final assertion holds. *)
Lemma normalize_nonzero (v : R) (rest : list R) (c : R) (D o : Z) :
  let l1 := v :: rest in
  let p := if o + Z.of_nat (length l1) =? D
           then strip_constant c l1 D else (l1, D) in
  v <> rO -> strip_zeros rO p.1 <> [] \/ c <> rO.
Proof.
  intros l1 p Hv.
  destruct (strip_zeros_spec p.1) as (k' & Hk' & _).
  destruct (decide (strip_zeros rO p.1 = [])) as [Hnil|Hne]; [|now left].
  right. rewrite Hnil in Hk'. simpl in Hk'.
  subst p. destruct (o + Z.of_nat (length l1) =? D).
  - destruct (strip_constant_spec c l1 D) as (k & Hk & _ & _).
    rewrite Hk' in Hk. unfold l1 in Hk.
    destruct k' as [|k']; simpl in Hk; [|congruence].
    destruct k as [|k]; simpl in Hk; congruence.
  - simpl in Hk'. unfold l1 in Hk'. destruct k'; simpl in Hk'; congruence.
Qed.

Lemma Stream_exact_init_succeeds (ic : list R) (c : option R) (d o : option Z) :
  let c0 := init_constant rO c in
  let o0 := init_order o in
  o0 + Z.of_nat (length ic) <= init_degree rO (Z.of_nat (length ic)) c0 d o0 ->
  (exists n, argument_sequence rO ic c d o n <> rO) ->
  exists s, Stream_exact_init rO ic c d o = Ok s.
Proof.
  intros c0 o0 Hb [n Hn]. unfold Stream_exact_init, argument_sequence in *.
  fold c0 o0 in Hn |- *.
  set (D0 := init_degree rO (Z.of_nat (length ic)) c0 d o0) in *.
  destruct (Z.leb_spec (o0 + Z.of_nat (length ic)) D0); [|lia].
  simpl negb. cbv iota.
  destruct (first_nonzero rO ic) as [i|] eqn:Hfirst.
  - apply first_nonzero_Some in Hfirst as (v & rest & Hic & Hv).
    assert (Hdrop : drop i ic = v :: rest).
    { rewrite Hic. apply drop_app_length'. now rewrite length_replicate. }
    rewrite Hdrop.
    pose proof (normalize_nonzero v rest c0 D0 (o0 + Z.of_nat i) Hv) as Hnz.
    cbv zeta in Hnz.
    destruct (if o0 + Z.of_nat i + Z.of_nat (length (v :: rest)) =? D0
              then strip_constant c0 (v :: rest) D0 else (v :: rest, D0))
      as [l2 D2].
    cbn [fst snd] in Hnz.
    destruct Hnz as [Hne|Hc].
    + rewrite bool_decide_eq_false_2 by exact Hne. simpl. eauto.
    + apply truthy_true in Hc. rewrite Hc, orb_true_r. simpl. eauto.
  - apply first_nonzero_None in Hfirst.
    assert (Hc : c0 <> rO).
    { intros Hc. apply Hn. rewrite Hfirst, denote_all_zero by exact Hb.
      unfold denote. destruct (D0 <=? n); [exact Hc|].
      destruct (n <? D0); reflexivity. }
    apply truthy_true in Hc. rewrite Hc, orb_true_r. simpl. eauto.
Qed.

Lemma length_sample (s : Stream_exact) :
  canonical rO s ->
  Z.of_nat (length (sample rO s)) = _degree s + 5 - (exact_approximate_order s - 2).
Proof.
  intros [Hb _ _ _ _ _]. unfold sample, Stream_exact_order.
  rewrite length_map, length_seqZ. lia.
Qed.

Lemma sample_sequence (s : Stream_exact) (n : Z) :
  canonical rO s ->
  argument_sequence rO (sample rO s) (Some (_constant s)) None
    (Some (Stream_exact_order s - 2)) n
  = Stream_exact_getitem rO s n.
Proof.
  intros Hcan. pose proof Hcan as [Hb _ _ _ _ _].
  unfold argument_sequence, init_constant, init_order, init_degree.
  rewrite length_sample by assumption. unfold Stream_exact_order, denote.
  destruct (Z.leb_spec (exact_approximate_order s - 2
                        + (_degree s + 5 - (exact_approximate_order s - 2))) n).
  - rewrite canonical_from_degree by lia. reflexivity.
  - destruct (Z.ltb_spec n (exact_approximate_order s - 2)).
    + rewrite canonical_below by (assumption || lia). reflexivity.
    + unfold sample, Stream_exact_order. rewrite list_lookup_fmap.
      rewrite lookup_seqZ_lt by lia. simpl. f_equal. lia.
Qed.

(** Sampling a canonical stream and running the constructor again gives
    the stream back. *)
Lemma reconstruct_canonical (s : Stream_exact) :
  canonical rO s -> reconstruct rO s = Ok s.
Proof.
  intros Hcan. unfold reconstruct.
  destruct (Stream_exact_init_succeeds (sample rO s) (Some (_constant s)) None
              (Some (Stream_exact_order s - 2))) as [s' Hs'].
  - simpl. lia.
  - exists (exact_approximate_order s). rewrite sample_sequence by assumption.
    now apply canonical_at_order.
  - rewrite Hs'. f_equal. apply Stream_exact_init_sound in Hs' as [Hcan' Hden].
    apply canonical_unique; [assumption..|].
    intros n. rewrite Hden. now apply sample_sequence.
Qed.

(** C3. Canonical form of exact streams: for every stream [s] the
    constructor returns, running the constructor again on
    [[s[i] for i in range(order - 2, degree + 5)]] with anchor [order - 2]
    and the same constant gives a stream that [__eq__] finds equal to [s];
    [s] stands for the sequence the arguments of the constructor describe;
    and against any other constructed stream [t], [__eq__] answers [True]
    exactly when the two streams have the same coefficient at every
    index. *)
Theorem Stream_exact_canonical_form
    (ic : list R) (c : option R) (d o : option Z) (s : Stream_exact) :
  Stream_exact_init rO ic c d o = Ok s ->
  (exists s', reconstruct rO s = Ok s' /\ Stream_exact_eq s s' = true)
  /\ (forall n, Stream_exact_getitem rO s n = argument_sequence rO ic c d o n)
  /\ (forall ic' c' d' o' t,
        Stream_exact_init rO ic' c' d' o' = Ok t ->
        (Stream_exact_eq s t = true
         <-> forall n, Stream_exact_getitem rO s n = Stream_exact_getitem rO t n)).
Proof.
  intros Hs. destruct (Stream_exact_init_sound _ _ _ _ _ Hs) as [Hcan Hden].
  split; [|split].
  - exists s. split; [now apply reconstruct_canonical|].
    now apply Stream_exact_eq_true.
  - exact Hden.
  - intros ic' c' d' o' t Ht.
    destruct (Stream_exact_init_sound _ _ _ _ _ Ht) as [Hcan' _].
    rewrite Stream_exact_eq_true. split.
    + now intros ->.
    + now apply canonical_unique.
Qed.

End ExactFacts.

(** An instance of C3 over the integers: the stream of the doctest
    [Stream_exact([0, 0, 1, 0, 1], constant=1, degree=10)]. *)
Lemma Stream_exact_canonical_form_witness :
  Stream_exact_init 0 [0; 0; 1; 0; 1] (Some 1) (Some 10) None
  = Ok (mkExact [1; 0; 1] 1 10 2)
  /\ (exists s', reconstruct 0 (mkExact [1; 0; 1] 1 10 2) = Ok s'
                 /\ Stream_exact_eq (mkExact [1; 0; 1] 1 10 2) s' = true).
Proof.
  split; [reflexivity|].
  apply (Stream_exact_canonical_form 0 [0; 0; 1; 0; 1] (Some 1) (Some 10) None).
  reflexivity.
Defined.

(** ** Streams as objects in a store *)

(** Arithmetic on orders. *)
Definition ext_min (a b : ext) : ext :=
  match a, b with
  | Fin x, Fin y => Fin (Z.min x y)
  | Fin x, PosInf => Fin x
  | PosInf, b => b
  end.

Definition ext_add (a b : ext) : ext :=
  match a, b with
  | Fin x, Fin y => Fin (x + y)
  | _, _ => PosInf
  end.

(** Product of two orders that are both positive. *)
Definition ext_mul (a b : ext) : ext :=
  match a, b with
  | Fin x, Fin y => Fin (x * y)
  | _, _ => PosInf
  end.

(** [a <= z] for an order [a] and an integer [z]. *)
Definition ext_leb_Z (a : ext) (z : Z) : bool :=
  match a with
  | Fin x => x <=? z
  | PosInf => false
  end.

(** [z < a] as a proposition. *)
Definition ext_gt (a : ext) (z : Z) : Prop :=
  match a with
  | Fin x => z < x
  | PosInf => True
  end.

(** [a] is a lower bound of the order of the sequence [f]. *)
Definition below {R : Type} (rO : R) (a : ext) (f : Z -> R) : Prop :=
  forall k, ext_gt a k -> f k = rO.

(** [l[i]] for a Python list, negative indices counting from the end. *)
Definition py_index {A : Type} (l : list A) (i : Z) : result A :=
  let j := if i <? 0 then i + Z.of_nat (length l) else i in
  if j <? 0 then Raise IndexError
  else match l !! Z.to_nat j with
       | Some x => Ok x
       | None => Raise IndexError
       end.

(** [l[start:]] for a Python list: a negative [start] counts from the end,
    and both ends are clamped. *)
Definition py_slice_from {A : Type} (l : list A) (start : Z) : list A :=
  let j := if start <? 0 then Z.max 0 (start + Z.of_nat (length l)) else start in
  drop (Z.to_nat j) l.

(** The interface every stream offers, as methods over the store [S] the
    stream lives in: [self[n]], the attribute [self._approximate_order] (a
    lazy attribute may run code the first time) and [self.order()], whose
    search is cut off after [fuel] probes. *)
Record handle (R S : Type) : Type := mkHandle {
  h_getitem : Z -> S -> result (R * S);
  h_approximate_order : S -> result (ext * S);
  h_order : nat -> S -> result (ext * S)
}.

Arguments mkHandle {R S} _ _ _.
Arguments h_getitem {R S} _ _ _.
Arguments h_approximate_order {R S} _ _.
Arguments h_order {R S} _ _ _.

(** The cache of [Stream_inexact]: a dict when sparse, a list when dense. *)
Inductive cache (R : Type) : Type :=
| SparseCache (d : gmap Z R)
| DenseCache (l : list R).

Arguments SparseCache {R} d.
Arguments DenseCache {R} l.

(** The attributes of [Stream_inexact]; [_approximate_order] is [None]
    while the lazy attribute has not been computed, and [_iter] is the
    state of the generator [self._iter]. *)
Record inexact (R G : Type) : Type := mkInexact {
  _true_order : bool;
  _approximate_order : option ext;
  _cache : cache R;
  _iter : G
}.

Arguments mkInexact {R G} _ _ _ _.
Arguments _true_order {R G} _.
Arguments _approximate_order {R G} _.
Arguments _cache {R G} _.
Arguments _iter {R G} _.

Definition _is_sparse {R G : Type} (st : inexact R G) : bool :=
  match _cache st with SparseCache _ => true | DenseCache _ => false end.

Definition set_true_order {R G : Type} (b : bool) (st : inexact R G) : inexact R G :=
  mkInexact b (_approximate_order st) (_cache st) (_iter st).

Definition set_approximate_order {R G : Type} (a : ext) (st : inexact R G)
  : inexact R G :=
  mkInexact (_true_order st) (Some a) (_cache st) (_iter st).

Definition set_cache {R G : Type} (c : cache R) (st : inexact R G) : inexact R G :=
  mkInexact (_true_order st) (_approximate_order st) c (_iter st).

Definition set_iter {R G G' : Type} (g : G') (st : inexact R G) : inexact R G' :=
  mkInexact (_true_order st) (_approximate_order st) (_cache st) g.

(** [Stream_inexact.__init__]. *)
Definition Stream_inexact_init {R G : Type} (is_sparse true_order : bool)
    (approximate_order : option ext) (g : G) : inexact R G :=
  mkInexact true_order approximate_order
    (if is_sparse then SparseCache ∅ else DenseCache []) g.

(** ** [Stream_inexact]: cached retrieval *)

Section Inexact.
Context {R : Type} `{EqDecision R}.
Variable rO : R.
Context {G St : Type}.

(** What a subclass supplies: the body of the lazy attribute
    [_approximate_order], the method [get_coefficient], and one step of
    the generator [self._iter] (it sees the attributes of the node and
    returns the coefficient it yields). *)
Variable lazy_approximate_order : St -> result (ext * St).
Variable get_coefficient : Z -> St -> result (R * St).
Variable next_iter : inexact R G -> St -> result (R * G * St).

(** Reading [self._approximate_order]. *)
Definition approximate_order_attr (p : inexact R G * St)
  : result (ext * (inexact R G * St)) :=
  match _approximate_order p.1 with
  | Some a => Ok (a, p)
  | None =>
      let* (a, s) := lazy_approximate_order p.2 in
      Ok (a, (set_approximate_order a p.1, s))
  end.

(** [while ao in self._cache: if self._cache[ao]: (found) break; ao += 1]. *)
Fixpoint sparse_scan (fuel : nat) (d : gmap Z R) (ao : Z) : result (Z * bool) :=
  match d !! ao with
  | None => Ok (ao, false)
  | Some c =>
      if truthy rO c then Ok (ao, true)
      else match fuel with
           | O => Diverge
           | S fuel' => sparse_scan fuel' d (ao + 1)
           end
  end.

(** The largest key of a dict (or [a] when all keys are smaller): it
    bounds the number of rounds of the scan. *)
Definition max_key (d : gmap Z R) (a : Z) : Z :=
  foldr (fun kv m => Z.max kv.1 m) a (map_to_list d).

(** The sparse branch of [__getitem__], for [n >= ao]. *)
Definition sparse_getitem (n a : Z) (d : gmap Z R) (st : inexact R G) (s : St)
  : result (R * (inexact R G * St)) :=
  match d !! n with
  | Some c => Ok (c, (st, s))
  | None =>
      let* (c, s) := get_coefficient n s in
      if _true_order st || (a <? n)
      then Ok (c, (set_cache (SparseCache (<[n:=c]> d)) st, s))
      else if truthy rO c
      then Ok (c, (set_true_order true (set_cache (SparseCache (<[n:=c]> d)) st), s))
      else
        let* (ao, found) :=
          sparse_scan (Z.to_nat (max_key d (a + 1) - a)) d (a + 1) in
        Ok (c, (set_approximate_order (Fin ao)
                  (if found then set_true_order true st else st), s))
  end.

(** [while not self._true_order and n >= self._approximate_order]. *)
Fixpoint dense_search (fuel : nat) (n : Z) (st : inexact R G) (s : St)
  : result (inexact R G * St) :=
  match _approximate_order st, _cache st with
  | Some (Fin a), DenseCache l =>
      if negb (_true_order st) && (a <=? n) then
        match fuel with
        | O => Diverge
        | S fuel' =>
            let* (cg, s) := next_iter st s in
            let st := set_iter cg.2 st in
            if truthy rO cg.1
            then dense_search fuel' n
                   (set_true_order true (set_cache (DenseCache (l ++ [cg.1])) st)) s
            else dense_search fuel' n (set_approximate_order (Fin (a + 1)) st) s
        end
      else Ok (st, s)
  | _, _ => Ok (st, s)
  end.

(** [self._cache.extend(next(self._iter) for _ in range(k))]. *)
Fixpoint dense_extend (k : nat) (st : inexact R G) (s : St)
  : result (inexact R G * St) :=
  match k with
  | O => Ok (st, s)
  | S k' =>
      let* (cg, s) := next_iter st s in
      match _cache st with
      | DenseCache l =>
          dense_extend k' (set_cache (DenseCache (l ++ [cg.1])) (set_iter cg.2 st)) s
      | SparseCache _ => Raise TypeError
      end
  end.

(** The dense branch of [__getitem__], for [n >= ao]. *)
Definition dense_getitem (n a : Z) (st : inexact R G) (s : St)
  : result (R * (inexact R G * St)) :=
  let* (st, s) := dense_search (Z.to_nat (n - a + 1)) n st s in
  if _true_order st then
    match _approximate_order st, _cache st with
    | Some (Fin a), DenseCache l =>
        let i := n - a in
        let* (st, s) := dense_extend (Z.to_nat (i - Z.of_nat (length l) + 1)) st s in
        match _cache st with
        | DenseCache l => let* c := py_index l i in Ok (c, (st, s))
        | SparseCache _ => Raise TypeError
        end
    | _, _ => Raise TypeError
    end
  else Ok (rO, (st, s)).

(** [Stream_inexact.__getitem__]. *)
Definition Stream_inexact_getitem (n : Z) (p : inexact R G * St)
  : result (R * (inexact R G * St)) :=
  let* (a, p) := approximate_order_attr p in
  match a with
  | PosInf => Ok (rO, p)
  | Fin a =>
      if n <? a then Ok (rO, p)
      else match _cache p.1 with
           | SparseCache d => sparse_getitem n a d p.1 p.2
           | DenseCache _ => dense_getitem n a p.1 p.2
           end
  end.

End Inexact.

(** [Stream_inexact.iterate_coefficients]: the generator counts from the
    approximate order it finds when it is first resumed (inside
    [__getitem__], after the attribute was computed); its state is the next
    index, [None] before the first [next]. *)
Definition iterate_coefficients {R St : Type}
    (get_coefficient : Z -> St -> result (R * St))
    (st : inexact R (option Z)) (s : St) : result (R * option Z * St) :=
  let* n := match _iter st with
            | Some n => Ok n
            | None => match _approximate_order st with
                      | Some (Fin a) => Ok a
                      | _ => Raise TypeError
                      end
            end in
  let* (c, s) := get_coefficient n s in
  Ok (c, Some (n + 1), s).

(** [while not self[n]: n += 1; return n]. *)
Fixpoint order_search {R St : Type} `{EqDecision R} (rO : R)
    (getitem : Z -> St -> result (R * St)) (fuel : nat) (n : Z) (s : St)
  : result (ext * St) :=
  match fuel with
  | O => Diverge
  | S fuel' =>
      let* (c, s) := getitem n s in
      if truthy rO c then Ok (Fin n, s)
      else order_search rO getitem fuel' (n + 1) s
  end.

(** [Stream_inexact.order], over the [__getitem__] of the class. *)
Definition Stream_inexact_order {R G St : Type} `{EqDecision R} (rO : R)
    (lazy_approximate_order : St -> result (ext * St))
    (getitem : Z -> inexact R G * St -> result (R * (inexact R G * St)))
    (fuel : nat) (p : inexact R G * St) : result (ext * (inexact R G * St)) :=
  if _true_order p.1 then approximate_order_attr lazy_approximate_order p
  else
    let* (a, p) := approximate_order_attr lazy_approximate_order p in
    match a with
    | Fin a => order_search rO getitem fuel a p
    | PosInf => Diverge
    end.

Section InexactHandle.
Context {R : Type} `{EqDecision R}.
Variable rO : R.
Context {St : Type}.
Variable lazy_approximate_order : St -> result (ext * St).
Variable get_coefficient : Z -> St -> result (R * St).

Definition getitem_default :=
  Stream_inexact_getitem rO lazy_approximate_order get_coefficient
    (iterate_coefficients get_coefficient).

(** A node of a subclass of [Stream_inexact] that keeps the inherited
    [__getitem__], as a stream over the store made of its own attributes
    and the store [St] of what it refers to. *)
Definition inexact_handle : handle R (inexact R (option Z) * St) :=
  mkHandle getitem_default (approximate_order_attr lazy_approximate_order)
           (Stream_inexact_order rO lazy_approximate_order getitem_default).

End InexactHandle.

(** ** Correctness of the cached retrieval *)

Section InexactCorrect.
Context {R : Type} `{EqDecision R}.
Variable rO : R.
Context {G St : Type}.
Variable lazy_approximate_order : St -> result (ext * St).
Variable get_coefficient : Z -> St -> result (R * St).
Variable next_iter : inexact R G -> St -> result (R * G * St).

(** The sequence the node stands for, the invariant of the store it reads,
    the indices at which its coefficient rule may be asked, and what the
    generator state must be for a given order and cache length. *)
Variable den : Z -> R.
Variable Inv : St -> Prop.
Variable valid : Z -> Prop.
Variable gen_ok : Z -> nat -> G -> Prop.

(** The lazy attribute computes a lower bound of the order. *)
Definition lazy_ok : Prop :=
  forall s, Inv s ->
    exists a s', lazy_approximate_order s = Ok (a, s') /\ Inv s'
                 /\ below rO a den
                 /\ forall k, ext_leb_Z a k = true -> valid k.

(** The invariant of the attributes of a node. *)
Definition cache_inv (a : Z) (st : inexact R G) : Prop :=
  match _cache st with
  | SparseCache d =>
      (_true_order st = false -> d !! a = None)
      /\ forall k v, d !! k = Some v -> v = den k
  | DenseCache l =>
      (l <> [] -> _true_order st = true)
      /\ (forall j v, l !! j = Some v -> v = den (a + Z.of_nat j))
      /\ gen_ok a (length l) (_iter st)
  end.

Definition node_inv (st : inexact R G) : Prop :=
  match _approximate_order st with
  | None =>
      lazy_ok /\ _true_order st = false
      /\ match _cache st with
         | SparseCache d => d = ∅
         | DenseCache l =>
             l = []
             /\ forall s a s', Inv s -> lazy_approximate_order s = Ok (Fin a, s') ->
                  gen_ok a O (_iter st)
         end
  | Some PosInf => forall k, den k = rO
  | Some (Fin a) =>
      (forall k, k < a -> den k = rO)
      /\ (forall k, a <= k -> valid k)
      /\ (_true_order st = true -> den a <> rO)
      /\ cache_inv a st
  end.

(** The approximate order only moves up, and stays once it is the true
    order. *)
Definition refines (st st' : inexact R G) : Prop :=
  match _approximate_order st, _approximate_order st' with
  | None, _ => True
  | Some PosInf, Some PosInf => True
  | Some (Fin a), Some (Fin a') =>
      a <= a' /\ (_true_order st = true -> a' = a /\ _true_order st' = true)
  | _, _ => False
  end.

Lemma refines_refl (st : inexact R G) : refines st st.
Proof.
  unfold refines. destruct (_approximate_order st) as [[a|]|]; try exact I.
  split; [lia|]. intros Ht. now split.
Qed.

Lemma refines_trans (st1 st2 st3 : inexact R G) :
  refines st1 st2 -> refines st2 st3 -> refines st1 st3.
Proof.
  unfold refines.
  destruct (_approximate_order st1) as [[a1|]|];
    destruct (_approximate_order st2) as [[a2|]|];
    destruct (_approximate_order st3) as [[a3|]|]; try tauto.
  intros [H1 H1'] [H2 H2']. split; [lia|].
  intros Ht. destruct (H1' Ht) as [-> Ht2]. now apply H2'.
Qed.

Lemma max_key_ge (d : gmap Z R) (a k : Z) (v : R) :
  d !! k = Some v -> k <= max_key d a.
Proof.
  intros Hk. apply elem_of_map_to_list in Hk. unfold max_key.
  induction (map_to_list d) as [|kv l IH]; [inversion Hk|].
  apply elem_of_cons in Hk as [<-|Hk]; simpl; [lia|].
  specialize (IH Hk). lia.
Qed.

Lemma sparse_scan_spec (fuel : nat) (d : gmap Z R) (ao : Z) :
  (forall k v, d !! k = Some v -> v = den k) ->
  (forall k v, d !! k = Some v -> k < ao + Z.of_nat fuel) ->
  exists ao' found,
    sparse_scan rO fuel d ao = Ok (ao', found)
    /\ ao <= ao'
    /\ (forall k, ao <= k < ao' -> den k = rO)
    /\ (found = true -> den ao' <> rO)
    /\ (found = false -> d !! ao' = None).
Proof.
  intros Hd. revert ao. induction fuel as [|fuel IH]; intros ao Hmax; simpl.
  - destruct (d !! ao) as [c|] eqn:Hc.
    + apply Hmax in Hc. lia.
    + exists ao, false. split; [reflexivity|]. split; [lia|].
      split; [intros k Hk; lia|]. split; [discriminate|]. intros _. exact Hc.
  - destruct (d !! ao) as [c|] eqn:Hc.
    + pose proof (Hd _ _ Hc) as ->.
      destruct (truthy rO (den ao)) eqn:Ht.
      * exists ao, true. split; [reflexivity|]. split; [lia|].
        split; [intros k Hk; lia|]. split; [|discriminate].
        intros _. now apply (truthy_true rO) in Ht.
      * apply (truthy_false rO) in Ht.
        destruct (IH (ao + 1)) as (ao' & found & Hs & Hle & Hz & Hf & Hnone).
        { intros k v Hk. apply Hmax in Hk. lia. }
        exists ao', found. split; [exact Hs|]. split; [lia|].
        split; [|split; [exact Hf|exact Hnone]]. intros k Hk.
        destruct (decide (k = ao)) as [->|Hne]; [exact Ht|]. apply Hz. lia.
    + exists ao, false. split; [reflexivity|]. split; [lia|].
      split; [intros k Hk; lia|]. split; [discriminate|]. intros _. exact Hc.
Qed.

Lemma max_key_base (d : gmap Z R) (a : Z) : a <= max_key d a.
Proof.
  unfold max_key. induction (map_to_list d) as [|kv l IH]; simpl; lia.
Qed.

(** The coefficient rule returns the coefficients of [den] where it may
    be asked, and keeps the invariant of the store. *)
Definition coefficient_ok : Prop :=
  forall n s, Inv s -> valid n ->
    exists s', get_coefficient n s = Ok (den n, s') /\ Inv s'.

Definition same_kind (st st' : inexact R G) : Prop :=
  _is_sparse st' = _is_sparse st.

Lemma sparse_getitem_correct (n a : Z) (d : gmap Z R) (st : inexact R G) (s : St) :
  coefficient_ok ->
  _approximate_order st = Some (Fin a) -> _cache st = SparseCache d ->
  node_inv st -> Inv s -> a <= n ->
  exists st' s',
    sparse_getitem rO get_coefficient n a d st s = Ok (den n, (st', s'))
    /\ node_inv st' /\ Inv s' /\ refines st st' /\ same_kind st st'.
Proof.
  intros Hgc Hao Hc Hnode HInv Hn. unfold node_inv in Hnode. rewrite Hao in Hnode.
  destruct Hnode as (Hlow & Hval & Htrue & Hcache).
  unfold cache_inv in Hcache. rewrite Hc in Hcache.
  destruct Hcache as [Hfresh Hcache].
  unfold sparse_getitem. destruct (d !! n) as [c|] eqn:Hdn.
  - rewrite (Hcache _ _ Hdn). exists st, s. split; [reflexivity|].
    split; [|split; [assumption|split; [apply refines_refl|reflexivity]]].
    unfold node_inv. rewrite Hao. unfold cache_inv. rewrite Hc. tauto.
  - destruct (Hgc n s HInv (Hval n Hn)) as (s' & Hg & HInv'). rewrite Hg. simpl.
    assert (Hins : forall k v, <[n:=den n]> d !! k = Some v -> v = den k).
    { intros k v Hk. apply lookup_insert_Some in Hk as [[<- <-]|[_ Hk]];
        [reflexivity|now apply Hcache]. }
    destruct (_true_order st || (a <? n)) eqn:Hb.
    + eexists _, s'. split; [reflexivity|].
      split; [|split; [assumption|split; [|unfold same_kind, _is_sparse; simpl; now rewrite Hc]]].
      * unfold node_inv. simpl. rewrite Hao. unfold cache_inv. simpl.
        split; [assumption|]. split; [assumption|]. split; [assumption|].
        split; [|assumption]. intros Hto. rewrite Hto in Hb. simpl in Hb.
        apply Z.ltb_lt in Hb. rewrite lookup_insert_ne by lia. now apply Hfresh.
      * unfold refines. simpl. rewrite Hao. split; [lia|]. tauto.
    + apply orb_false_iff in Hb as [Hto Han].
      assert (n = a) as -> by (destruct (Z.ltb_spec a n); [discriminate|lia]).
      destruct (truthy rO (den a)) eqn:Ht.
      * apply (truthy_true rO) in Ht. eexists _, s'. split; [reflexivity|].
        split; [|split; [assumption|split; [|unfold same_kind, _is_sparse; simpl; now rewrite Hc]]].
        -- unfold node_inv. simpl. rewrite Hao. unfold cache_inv. simpl.
           split; [assumption|]. split; [assumption|]. split; [intros _; assumption|].
           split; [discriminate|assumption].
        -- unfold refines. simpl. rewrite Hao. split; [lia|]. rewrite Hto. discriminate.
      * apply (truthy_false rO) in Ht.
        destruct (sparse_scan_spec (Z.to_nat (max_key d (a + 1) - a)) d (a + 1) Hcache)
          as (ao' & found & Hs & Hle & Hz & Hf & Hnone).
        { intros k v Hk. pose proof (max_key_ge d (a + 1) k v Hk).
          pose proof (max_key_base d (a + 1)). lia. }
        rewrite Hs. simpl. eexists _, s'. split; [reflexivity|].
        split; [|split; [assumption|split]].
        -- unfold node_inv. simpl. split; [|split; [|split]].
           ++ intros k Hk. destruct (Z.lt_trichotomy k a) as [Hlt|[->|Hgt]];
                [now apply Hlow|exact Ht|apply Hz; lia].
           ++ intros k Hk. apply Hval. lia.
           ++ destruct found; simpl; [intros _; now apply Hf|].
              rewrite Hto. discriminate.
           ++ unfold cache_inv. destruct found; simpl; rewrite Hc;
                (split; [|exact Hcache]); [discriminate|].
              intros _. now apply Hnone.
        -- unfold refines. simpl. rewrite Hao. split; [lia|]. rewrite Hto. discriminate.
        -- unfold same_kind, _is_sparse. destruct found; simpl; now rewrite Hc.
Qed.

(** One step of the generator yields the coefficient after the cached
    ones and leaves a state that fits what [__getitem__] does with it. *)
Definition generator_ok : Prop :=
  forall st s a l,
    _approximate_order st = Some (Fin a) -> _cache st = DenseCache l ->
    node_inv st -> Inv s ->
    exists g' s',
      next_iter st s = Ok (den (a + Z.of_nat (length l)), g', s') /\ Inv s'
      /\ (_true_order st = true \/ den (a + Z.of_nat (length l)) <> rO ->
          gen_ok a (S (length l)) g')
      /\ (_true_order st = false -> den (a + Z.of_nat (length l)) = rO ->
          gen_ok (a + 1) (length l) g').

Lemma dense_search_correct (fuel : nat) (n : Z) :
  generator_ok ->
  forall (st : inexact R G) (s : St) (a : Z) (l : list R),
  _approximate_order st = Some (Fin a) -> _cache st = DenseCache l ->
  node_inv st -> Inv s ->
  (_true_order st = true -> a <= n) ->
  (_true_order st = false -> n - a + 1 <= Z.of_nat fuel) ->
  exists st' s' a' l',
    dense_search rO next_iter fuel n st s = Ok (st', s')
    /\ node_inv st' /\ Inv s' /\ refines st st'
    /\ _approximate_order st' = Some (Fin a') /\ _cache st' = DenseCache l'
    /\ (_true_order st' = true -> a' <= n)
    /\ (_true_order st' = false -> n < a').
Proof.
  intros Hgen. induction fuel as [|fuel IH]; intros st s a l Hao Hc Hnode HInv Hle Hfuel.
  - simpl. rewrite Hao, Hc. destruct (_true_order st) eqn:Hto; simpl.
    + exists st, s, a, l. rewrite Hto.
      repeat split; try assumption; try apply refines_refl; intros; (discriminate || lia).
    + destruct (Z.leb_spec a n); [specialize (Hfuel eq_refl); simpl in Hfuel; lia|].
      exists st, s, a, l. rewrite Hto.
      repeat split; try assumption; try apply refines_refl; intros; (discriminate || lia).
  - simpl. rewrite Hao, Hc. destruct (_true_order st) eqn:Hto; simpl.
    + exists st, s, a, l. rewrite Hto.
      repeat split; try assumption; try apply refines_refl; intros; (discriminate || lia).
    + destruct (Z.leb_spec a n) as [Han|Han].
      2:{ exists st, s, a, l. rewrite Hto.
          repeat split; try assumption; try apply refines_refl; intros; (discriminate || lia). }
      destruct (Hgen st s a l Hao Hc Hnode HInv) as (g' & s' & Hnext & HInv' & Hg1 & Hg2).
      pose proof Hnode as Hnode'. unfold node_inv in Hnode'. rewrite Hao in Hnode'.
      destruct Hnode' as (Hlow & Hval & Htrue & Hcache).
      unfold cache_inv in Hcache. rewrite Hc in Hcache.
      destruct Hcache as (Hne & Hvals & Hgok).
      assert (l = []) as ->.
      { destruct l; [reflexivity|]. rewrite Hne in Hto; [discriminate|discriminate]. }
      simpl in Hnext, Hg1, Hg2. rewrite Z.add_0_r in Hnext, Hg1, Hg2.
      rewrite Hnext. simpl. destruct (truthy rO (den a)) eqn:Ht.
      * apply (truthy_true rO) in Ht.
        destruct (IH (set_true_order true
                        (set_cache (DenseCache [den a]) (set_iter g' st))) s' a [den a])
          as (st' & s'' & a' & l' & Hs & Hn' & HI' & Href & Hao' & Hc' & Hle' & Hlt');
          try reflexivity; try assumption; try (simpl; intros; lia || discriminate).
        { unfold node_inv. simpl. rewrite Hao. repeat split; try assumption.
          - intros _. assumption.
          - intros j v Hj. destruct j; simpl in Hj; [|discriminate].
            inversion Hj. f_equal. lia.
          - apply Hg1. now right. }
        exists st', s'', a', l'. repeat split; try assumption.
        revert Href. unfold refines. simpl. rewrite Hao, Hao'.
        intros [Hr1 Hr2]. split; [lia|]. rewrite Hto. discriminate.
      * apply (truthy_false rO) in Ht.
        assert (Hnode1 : node_inv (set_approximate_order (Fin (a + 1)) (set_iter g' st))).
        { unfold node_inv. simpl. split; [|split; [|split]].
          - intros k Hk. destruct (decide (k = a)) as [->|Hne']; [assumption|].
            apply Hlow. lia.
          - intros k Hk. apply Hval. lia.
          - rewrite Hto. discriminate.
          - unfold cache_inv. simpl. rewrite Hc. split; [congruence|].
            split; [intros j v Hj; destruct j; discriminate|]. now apply Hg2. }
        destruct (IH (set_approximate_order (Fin (a + 1)) (set_iter g' st)) s' (a + 1) []
                    eq_refl Hc Hnode1 HInv')
          as (st' & s'' & a' & l' & Hs & Hn' & HI' & Href & Hao' & Hc' & Hle' & Hlt').
        { simpl. rewrite Hto. discriminate. }
        { simpl. intros _. specialize (Hfuel eq_refl). lia. }
        exists st', s'', a', l'. repeat split; try assumption.
        revert Href. unfold refines. simpl. rewrite Hao, Hao'.
        intros [Hr1 Hr2]. split; [lia|]. rewrite Hto. discriminate.
Qed.

Lemma dense_extend_correct (k : nat) :
  generator_ok ->
  forall (st : inexact R G) (s : St) (a : Z) (l : list R),
  _approximate_order st = Some (Fin a) -> _cache st = DenseCache l ->
  _true_order st = true -> node_inv st -> Inv s ->
  exists st' s' l',
    dense_extend next_iter k st s = Ok (st', s')
    /\ node_inv st' /\ Inv s' /\ refines st st'
    /\ _approximate_order st' = Some (Fin a) /\ _cache st' = DenseCache l'
    /\ _true_order st' = true /\ length l' = (length l + k)%nat.
Proof.
  intros Hgen. induction k as [|k IH]; intros st s a l Hao Hc Hto Hnode HInv.
  - simpl. exists st, s, l. repeat split; try assumption; [apply refines_refl|lia].
  - simpl.
    destruct (Hgen st s a l Hao Hc Hnode HInv) as (g' & s' & Hnext & HInv' & Hg1 & _).
    rewrite Hnext. simpl. rewrite Hc.
    pose proof Hnode as Hnode'. unfold node_inv in Hnode'. rewrite Hao in Hnode'.
    destruct Hnode' as (Hlow & Hval & Htrue & Hcache).
    unfold cache_inv in Hcache. rewrite Hc in Hcache.
    destruct Hcache as (Hne & Hvals & Hgok).
    set (c := den (a + Z.of_nat (length l))) in *.
    assert (Hnode1 : node_inv (set_cache (DenseCache (l ++ [c])) (set_iter g' st))).
    { unfold node_inv. simpl. rewrite Hao. split; [|split; [|split]]; try assumption.
      unfold cache_inv. simpl. split; [intros _; assumption|]. split.
      - intros j v Hj. apply lookup_app_Some in Hj as [Hj|[Hlen Hj]].
        + now apply Hvals.
        + destruct (j - length l)%nat eqn:Hd; simpl in Hj; [|discriminate].
          inversion Hj. unfold c. f_equal. lia.
      - rewrite length_app. simpl. rewrite Nat.add_1_r. apply Hg1. now left. }
    destruct (IH (set_cache (DenseCache (l ++ [c])) (set_iter g' st)) s' a (l ++ [c])
                Hao eq_refl Hto Hnode1 HInv')
      as (st' & s'' & l' & Hs & Hn' & HI' & Href & Hao' & Hc' & Hto' & Hlen').
    exists st', s'', l'.
    split; [assumption|]. split; [assumption|]. split; [assumption|]. split.
    { revert Href. unfold refines. simpl. rewrite Hao, Hao'. tauto. }
    split; [assumption|]. split; [assumption|]. split; [assumption|].
    rewrite Hlen', length_app. simpl. lia.
Qed.

Lemma dense_getitem_correct (n a : Z) (l : list R) (st : inexact R G) (s : St) :
  generator_ok ->
  _approximate_order st = Some (Fin a) -> _cache st = DenseCache l ->
  node_inv st -> Inv s -> a <= n ->
  exists st' s',
    dense_getitem rO next_iter n a st s = Ok (den n, (st', s'))
    /\ node_inv st' /\ Inv s' /\ refines st st' /\ same_kind st st'.
Proof.
  intros Hgen Hao Hc Hnode HInv Hn. unfold dense_getitem.
  destruct (dense_search_correct (Z.to_nat (n - a + 1)) n Hgen st s a l
              Hao Hc Hnode HInv)
    as (st1 & s1 & a1 & l1 & Hs & Hn1 & HI1 & Href1 & Hao1 & Hc1 & Hle1 & Hlt1);
    [intros; lia..|].
  rewrite Hs. simpl. destruct (_true_order st1) eqn:Hto1.
  - rewrite Hao1, Hc1. specialize (Hle1 eq_refl).
    destruct (dense_extend_correct (Z.to_nat (n - a1 - Z.of_nat (length l1) + 1)) Hgen
                st1 s1 a1 l1 Hao1 Hc1 Hto1 Hn1 HI1)
      as (st2 & s2 & l2 & He & Hn2 & HI2 & Href2 & Hao2 & Hc2 & Hto2 & Hlen2).
    rewrite He. simpl. rewrite Hc2.
    pose proof Hn2 as Hn2'. unfold node_inv in Hn2'. rewrite Hao2 in Hn2'.
    destruct Hn2' as (_ & _ & _ & Hcache). unfold cache_inv in Hcache.
    rewrite Hc2 in Hcache. destruct Hcache as (_ & Hvals & _).
    unfold py_index. destruct (Z.ltb_spec (n - a1) 0); [lia|].
    destruct (Z.ltb_spec (n - a1) 0); [lia|].
    destruct (lookup_lt_is_Some_2 l2 (Z.to_nat (n - a1))) as [v Hv]; [lia|].
    rewrite Hv. simpl. rewrite (Hvals _ _ Hv).
    replace (a1 + Z.of_nat (Z.to_nat (n - a1))) with n by lia.
    exists st2, s2. split; [reflexivity|]. split; [assumption|].
    split; [assumption|]. split; [now apply refines_trans with st1|].
    unfold same_kind, _is_sparse. now rewrite Hc, Hc2.
  - specialize (Hlt1 eq_refl).
    pose proof Hn1 as Hn1'. unfold node_inv in Hn1'. rewrite Hao1 in Hn1'.
    destruct Hn1' as (Hlow & _). rewrite Hlow by lia.
    exists st1, s1. split; [reflexivity|]. split; [assumption|].
    split; [assumption|]. split; [assumption|].
    unfold same_kind, _is_sparse. now rewrite Hc, Hc1.
Qed.

(** What [approximate_order_attr] leaves is a node whose order is
    known. *)
Lemma approximate_order_attr_correct (st : inexact R G) (s : St) :
  node_inv st -> Inv s ->
  exists a st' s',
    approximate_order_attr lazy_approximate_order (st, s) = Ok (a, (st', s'))
    /\ _approximate_order st' = Some a /\ node_inv st' /\ Inv s'
    /\ refines st st' /\ _cache st' = _cache st /\ below rO a den.
Proof.
  intros Hnode HInv. unfold approximate_order_attr. simpl.
  destruct (_approximate_order st) as [a|] eqn:Hao.
  - exists a, st, s. repeat split; try assumption; [apply refines_refl|].
    unfold node_inv in Hnode. rewrite Hao in Hnode. destruct a as [a|].
    + intros k Hk. apply Hnode. exact Hk.
    + intros k _. apply Hnode.
  - pose proof Hnode as Hnode'. unfold node_inv in Hnode'. rewrite Hao in Hnode'.
    destruct Hnode' as (Hlazy & Hto & Hcache).
    destruct (Hlazy s HInv) as (a & s' & Hl & HInv' & Hbelow & Hvalid).
    rewrite Hl. simpl. exists a, (set_approximate_order a st), s'.
    repeat split; try assumption.
    + unfold node_inv. simpl. destruct a as [a|]; [|intros k; now apply Hbelow].
      split; [intros k Hk; now apply Hbelow|].
      split; [intros k Hk; apply Hvalid; simpl; lia|].
      split; [rewrite Hto; discriminate|].
      unfold cache_inv. simpl. destruct (_cache st) as [d|l].
      * subst d. split; [intros _; apply lookup_empty|].
        intros k v Hk. rewrite lookup_empty in Hk. discriminate.
      * destruct Hcache as [-> Hg]. split; [congruence|].
        split; [intros j v Hj; destruct j; discriminate|exact (Hg s a s' HInv Hl)].
    + unfold refines. now rewrite Hao.
Qed.

(** [__getitem__] returns the coefficient of [den] and keeps the
    invariant. *)
Lemma Stream_inexact_getitem_correct (n : Z) (st : inexact R G) (s : St) :
  (_is_sparse st = true -> coefficient_ok) ->
  (_is_sparse st = false -> generator_ok) ->
  node_inv st -> Inv s ->
  exists st' s',
    Stream_inexact_getitem rO lazy_approximate_order get_coefficient next_iter
      n (st, s) = Ok (den n, (st', s'))
    /\ node_inv st' /\ Inv s' /\ refines st st' /\ same_kind st st'.
Proof.
  intros Hsp Hde Hnode HInv. unfold Stream_inexact_getitem.
  destruct (approximate_order_attr_correct st s Hnode HInv)
    as (a & st1 & s1 & Ha & Hao1 & Hn1 & HI1 & Href1 & Hc1 & Hbelow).
  rewrite Ha. simpl.
  assert (Hkind : same_kind st st1) by (unfold same_kind, _is_sparse; now rewrite Hc1).
  destruct a as [a|].
  - destruct (Z.ltb_spec n a) as [Hlt|Hge].
    + rewrite (Hbelow n Hlt). exists st1, s1. tauto.
    + destruct (_cache st1) as [d|l] eqn:Hcache.
      * destruct (sparse_getitem_correct n a d st1 s1) as (st2 & s2 & Hg & Hn2 & HI2 & Href2 & Hk2);
          try assumption.
        { apply Hsp. unfold _is_sparse. now rewrite <- Hc1. }
        exists st2, s2. split; [exact Hg|]. split; [assumption|].
        split; [assumption|]. split; [now apply refines_trans with st1|].
        unfold same_kind in *. congruence.
      * destruct (dense_getitem_correct n a l st1 s1) as (st2 & s2 & Hg & Hn2 & HI2 & Href2 & Hk2);
          try assumption.
        { apply Hde. unfold _is_sparse. now rewrite <- Hc1. }
        exists st2, s2. split; [exact Hg|]. split; [assumption|].
        split; [assumption|]. split; [now apply refines_trans with st1|].
        unfold same_kind in *. congruence.
  - rewrite (Hbelow n I). exists st1, s1. tauto.
Qed.

(** Indexing at the approximate order moves it up when the coefficient
    there is zero. *)
Lemma Stream_inexact_getitem_refines (a : Z) (st : inexact R G) (s : St) :
  (_is_sparse st = true -> coefficient_ok) ->
  (_is_sparse st = false -> generator_ok) ->
  node_inv st -> Inv s ->
  _approximate_order st = Some (Fin a) -> den a = rO ->
  forall v st' s',
    Stream_inexact_getitem rO lazy_approximate_order get_coefficient next_iter
      a (st, s) = Ok (v, (st', s')) ->
    exists a', _approximate_order st' = Some (Fin a') /\ a < a'.
Proof.
  intros Hsp Hde Hnode HInv Hao Hz v st' s' Hg.
  unfold Stream_inexact_getitem, approximate_order_attr in Hg. simpl in Hg.
  rewrite Hao in Hg. simpl in Hg. rewrite Z.ltb_irrefl in Hg.
  pose proof Hnode as Hnode'. unfold node_inv in Hnode'. rewrite Hao in Hnode'.
  destruct Hnode' as (Hlow & Hval & Htrue & Hcache).
  assert (Hto : _true_order st = false).
  { destruct (_true_order st); [|reflexivity]. exfalso. now apply Htrue. }
  assert (Ht : truthy rO rO = false) by (now apply truthy_false).
  unfold cache_inv in Hcache. destruct (_cache st) as [d|l] eqn:Hc.
  - destruct Hcache as [Hfresh Hvals]. unfold sparse_getitem in Hg.
    rewrite (Hfresh Hto) in Hg.
    destruct (Hsp ltac:(unfold _is_sparse; now rewrite Hc) a s HInv (Hval a ltac:(lia)))
      as (s1 & Hgc & _).
    rewrite Hgc in Hg. simpl in Hg. rewrite Hto, Z.ltb_irrefl, Hz, Ht in Hg.
    simpl in Hg.
    destruct (sparse_scan_spec (Z.to_nat (max_key d (a + 1) - a)) d (a + 1) Hvals)
      as (ao' & found & Hs & Hle & _).
    { intros k w Hk. pose proof (max_key_ge d (a + 1) k w Hk).
      pose proof (max_key_base d (a + 1)). lia. }
    rewrite Hs in Hg. simpl in Hg. inversion Hg; subst.
    exists ao'. split; [reflexivity|lia].
  - destruct Hcache as (Hne & _ & _).
    assert (l = []) as ->.
    { destruct l as [|x l]; [reflexivity|].
      assert (_true_order st = true) by (apply Hne; discriminate). congruence. }
    destruct (Hde ltac:(unfold _is_sparse; now rewrite Hc) st s a [] Hao Hc Hnode HInv)
      as (g' & s1 & Hn & _).
    simpl in Hn. rewrite Z.add_0_r, Hz in Hn.
    unfold dense_getitem in Hg.
    replace (Z.to_nat (a - a + 1)) with 1%nat in Hg by lia.
    simpl in Hg. rewrite Hao, Hc, Hto, Z.leb_refl in Hg. simpl in Hg.
    rewrite Hn in Hg. simpl in Hg. rewrite Ht in Hg.
    replace (a + 1 <=? a) with false in Hg by (symmetry; apply Z.leb_gt; lia).
    simpl in Hg. rewrite Hto in Hg. inversion Hg; subst.
    exists (a + 1). split; [reflexivity|lia].
Qed.

End InexactCorrect.

(** ** Lawful streams *)

(** A stream is lawful for a sequence [den] under an invariant [Inv] of
    its store when indexing returns the coefficients of [den] and the
    approximate order is a lower bound of the order of [den]; each keeps
    the invariant. *)
Record lawful {R St : Type} (rO : R) (h : handle R St) (den : Z -> R)
    (Inv : St -> Prop) : Prop := mkLawful {
  law_getitem : forall n s, Inv s ->
    exists s', h_getitem h n s = Ok (den n, s') /\ Inv s';
  law_approximate_order : forall s, Inv s ->
    exists a s', h_approximate_order h s = Ok (a, s') /\ Inv s' /\ below rO a den
}.

(** [order()] finds the order [v] within [fuel0] probes, in every state
    of the store. *)
Definition order_within {R St : Type} (h : handle R St) (Inv : St -> Prop)
    (v : Z) (fuel0 : nat) : Prop :=
  forall s fuel, Inv s -> (fuel0 <= fuel)%nat ->
    exists s', h_order h fuel s = Ok (Fin v, s') /\ Inv s'.

(** The generator state expected by [iterate_coefficients]. *)
Definition default_gen_ok (a : Z) (len : nat) (g : option Z) : Prop :=
  match g with
  | None => len = O
  | Some p => p = a + Z.of_nat len
  end.

Section InexactLawful.
Context {R : Type} `{EqDecision R}.
Variable rO : R.
Context {St : Type}.
Variable lazy_approximate_order : St -> result (ext * St).
Variable get_coefficient : Z -> St -> result (R * St).
Variable den : Z -> R.
Variable Inv : St -> Prop.
Variable valid : Z -> Prop.

#[local] Abbreviation node_ok :=
  (node_inv rO lazy_approximate_order den Inv valid default_gen_ok).

Lemma default_generator_ok :
  coefficient_ok get_coefficient den Inv valid ->
  generator_ok rO lazy_approximate_order (iterate_coefficients get_coefficient)
    den Inv valid default_gen_ok.
Proof.
  intros Hgc st s a l Hao Hc Hnode HInv.
  unfold node_inv in Hnode. rewrite Hao in Hnode.
  destruct Hnode as (_ & Hval & _ & Hcache). unfold cache_inv in Hcache.
  rewrite Hc in Hcache. destruct Hcache as (_ & _ & Hg).
  unfold iterate_coefficients, default_gen_ok in *.
  destruct (_iter st) as [p|].
  - subst p. simpl.
    destruct (Hgc (a + Z.of_nat (length l)) s HInv) as (s' & Hs' & HInv');
      [apply Hval; lia|].
    rewrite Hs'. simpl. eexists _, s'. split; [reflexivity|].
    split; [assumption|]. split; intros; lia.
  - rewrite Hao. simpl. rewrite Hg. simpl. rewrite Z.add_0_r.
    destruct (Hgc a s HInv) as (s' & Hs' & HInv'); [apply Hval; lia|].
    rewrite Hs'. simpl. eexists _, s'. split; [reflexivity|].
    split; [assumption|]. split; intros; lia.
Qed.

Lemma getitem_default_correct (n : Z) (st : inexact R (option Z)) (s : St) :
  coefficient_ok get_coefficient den Inv valid ->
  node_ok st -> Inv s ->
  exists st' s',
    getitem_default rO lazy_approximate_order get_coefficient n (st, s)
    = Ok (den n, (st', s'))
    /\ node_ok st' /\ Inv s'
    /\ refines st st' /\ same_kind st st'.
Proof.
  intros Hgc Hnode HInv.
  apply (Stream_inexact_getitem_correct rO lazy_approximate_order get_coefficient
           (iterate_coefficients get_coefficient) den Inv valid default_gen_ok);
    try assumption; intros _; [assumption|now apply default_generator_ok].
Qed.

Lemma order_search_correct {T : Type} (getitem : Z -> T -> result (R * T))
    (I : T -> Prop) (v : Z) :
  (forall n t, I t -> exists t', getitem n t = Ok (den n, t') /\ I t') ->
  den v <> rO ->
  forall (fuel : nat) (n : Z) (t : T),
  I t -> n <= v -> (forall k, n <= k < v -> den k = rO) ->
  v - n + 1 <= Z.of_nat fuel ->
  exists t', order_search rO getitem fuel n t = Ok (Fin v, t') /\ I t'.
Proof.
  intros Hget Hv. induction fuel as [|fuel IH]; intros n t Ht Hn Hz Hfuel; [lia|].
  simpl. destruct (Hget n t Ht) as (t' & Hg & Ht'). rewrite Hg. simpl.
  destruct (truthy rO (den n)) eqn:Hc.
  - apply (truthy_true rO) in Hc.
    destruct (decide (n = v)) as [->|Hne]; [eauto|].
    exfalso. apply Hc, Hz. lia.
  - apply (truthy_false rO) in Hc.
    assert (n <> v) by congruence.
    apply IH; [assumption|lia| |lia]. intros k Hk. apply Hz. lia.
Qed.

(** A node that keeps the inherited [__getitem__] is a lawful stream. *)
Lemma inexact_handle_lawful :
  coefficient_ok get_coefficient den Inv valid ->
  lawful rO (inexact_handle rO lazy_approximate_order get_coefficient) den
    (fun p => node_ok p.1 /\ Inv p.2).
Proof.
  intros Hgc. constructor.
  - intros n [st s] [Hn HI]. simpl in *.
    destruct (getitem_default_correct n st s Hgc Hn HI) as (st' & s' & Hg & Hn' & HI' & _).
    exists (st', s'). simpl. tauto.
  - intros [st s] [Hn HI]. simpl in *.
    destruct (approximate_order_attr_correct rO lazy_approximate_order den Inv valid
                default_gen_ok st s Hn HI)
      as (a & st' & s' & Ha & _ & Hn' & HI' & _ & _ & Hb).
    exists a, (st', s'). simpl. tauto.
Qed.

(** When the coefficient rule is only asked from [lo] on, [order()]
    finds the order [v] within [v - lo + 1] probes. *)
Lemma inexact_handle_order_within (lo v : Z) :
  coefficient_ok get_coefficient den Inv valid ->
  (forall k, valid k -> lo <= k) ->
  den v <> rO -> (forall k, k < v -> den k = rO) ->
  order_within (inexact_handle rO lazy_approximate_order get_coefficient)
    (fun p => node_ok p.1 /\ Inv p.2) v (Z.to_nat (v - lo + 1)).
Proof.
  intros Hgc Hlo Hv Hz [st s] fuel [Hn HI] Hfuel. simpl in *.
  assert (Hget : forall n p, node_ok p.1 /\ Inv p.2 ->
            exists p', getitem_default rO lazy_approximate_order get_coefficient n p
                       = Ok (den n, p') /\ node_ok p'.1 /\ Inv p'.2).
  { intros n [st0 s0] [Hn0 HI0]. simpl in *.
    destruct (getitem_default_correct n st0 s0 Hgc Hn0 HI0)
      as (st' & s' & Hg & Hn' & HI' & _).
    exists (st', s'). simpl. tauto. }
  destruct (approximate_order_attr_correct rO lazy_approximate_order den Inv valid
              default_gen_ok st s Hn HI)
    as (a & st' & s' & Ha & Hao' & Hn' & HI' & Href & _ & Hb).
  destruct a as [a|]; [|exfalso; apply Hv, Hb; exact I].
  assert (Hav : a <= v).
  { destruct (Z.le_gt_cases a v); [assumption|]. exfalso. apply Hv, Hb. simpl. lia. }
  assert (Hloa : lo <= a).
  { pose proof Hn' as Hn''. unfold node_inv in Hn''. rewrite Hao' in Hn''.
    destruct Hn'' as (_ & Hval & _). apply Hlo, Hval. lia. }
  unfold Stream_inexact_order. simpl.
  destruct (_true_order st) eqn:Hto.
  - rewrite Ha. exists (st', s'). simpl. split; [|tauto]. do 3 f_equal.
    assert (Hto' : _true_order st' = true).
    { unfold node_inv in Hn. unfold refines in Href.
      destruct (_approximate_order st) as [[a0|]|].
      - rewrite Hao' in Href. now apply Href.
      - now rewrite Hao' in Href.
      - destruct Hn as (_ & Hf & _). congruence. }
    unfold node_inv in Hn'. rewrite Hao' in Hn'. destruct Hn' as (_ & _ & Hnz & _).
    destruct (Z.eq_dec a v) as [|Hne]; [assumption|].
    exfalso. apply (Hnz Hto'), Hz. lia.
  - rewrite Ha. simpl.
    apply (order_search_correct
             (getitem_default rO lazy_approximate_order get_coefficient)
             (fun p => node_ok p.1 /\ Inv p.2) v Hget Hv fuel a (st', s'));
      [simpl; tauto|assumption| |lia].
    intros k Hk. apply Hz. lia.
Qed.

End InexactLawful.

(** ** Leaves: [Stream_zero], [Stream_exact], [Stream_function] *)

Section Leaves.
Context {R : Type} `{EqDecision R}.
Variable rO : R.

(** [Stream_zero]: every coefficient is zero and the order is infinite. *)
Definition Stream_zero {St : Type} : handle R St :=
  mkHandle (fun _ s => Ok (rO, s)) (fun s => Ok (PosInf, s)) (fun _ s => Ok (PosInf, s)).

(** An exact stream seen through the common interface. *)
Definition Stream_exact_handle {St : Type} (e : Stream_exact) : handle R St :=
  mkHandle (fun n s => Ok (Stream_exact_getitem rO e n, s))
           (fun s => Ok (Fin (exact_approximate_order e), s))
           (fun _ s => Ok (Fin (Stream_exact_order e), s)).

(** [Stream.__init__]'s lazy attribute: [raise NotImplementedError]. *)
Definition Stream_lazy_approximate_order {St : Type} (s : St) : result (ext * St) :=
  Raise NotImplementedError.

(** [Stream_function.__init__]: the attributes of the node. *)
Definition Stream_function_init (is_sparse : bool) (approximate_order : Z)
    (true_order : bool) : inexact R (option Z) :=
  Stream_inexact_init is_sparse true_order (Some (Fin approximate_order)) None.

(** [Stream_function]: [get_coefficient] is the function itself. *)
Definition Stream_function (function : Z -> R) : handle R (inexact R (option Z) * unit) :=
  inexact_handle rO Stream_lazy_approximate_order (fun n s => Ok (function n, s)).

(** The sequence of [Stream_function(function, is_sparse, ao)]. *)
Definition function_sequence (function : Z -> R) (ao : Z) (n : Z) : R :=
  if n <? ao then rO else function n.

(** A stream of the store [A] inside a store with two parts. *)
Definition on_fst {A B : Type} (h : handle R A) : handle R (A * B) :=
  mkHandle
    (fun n p => let* (v, a) := h_getitem h n p.1 in Ok (v, (a, p.2)))
    (fun p => let* (v, a) := h_approximate_order h p.1 in Ok (v, (a, p.2)))
    (fun fuel p => let* (v, a) := h_order h fuel p.1 in Ok (v, (a, p.2))).

Definition on_snd {A B : Type} (h : handle R B) : handle R (A * B) :=
  mkHandle
    (fun n p => let* (v, b) := h_getitem h n p.2 in Ok (v, (p.1, b)))
    (fun p => let* (v, b) := h_approximate_order h p.2 in Ok (v, (p.1, b)))
    (fun fuel p => let* (v, b) := h_order h fuel p.2 in Ok (v, (p.1, b))).

Lemma Stream_zero_lawful {St : Type} (Inv : St -> Prop) :
  lawful rO (@Stream_zero St) (fun _ => rO) Inv.
Proof.
  constructor; simpl.
  - intros n s Hs. eauto.
  - intros s Hs. exists PosInf, s. split; [reflexivity|]. split; [assumption|].
    intros k _. reflexivity.
Qed.

Lemma Stream_exact_lawful {St : Type} (e : Stream_exact) (Inv : St -> Prop) :
  canonical rO e ->
  lawful rO (@Stream_exact_handle St e) (Stream_exact_getitem rO e) Inv.
Proof.
  intros Hcan. constructor; simpl.
  - intros n s Hs. eauto.
  - intros s Hs. eexists _, s. split; [reflexivity|]. split; [assumption|].
    intros k Hk. now apply canonical_below.
Qed.

Lemma Stream_exact_order_within {St : Type} (e : Stream_exact) (Inv : St -> Prop) :
  order_within (@Stream_exact_handle St e) Inv (Stream_exact_order e) O.
Proof. intros s fuel Hs _. exists s. split; [reflexivity|assumption]. Qed.

Definition function_inv (function : Z -> R) (ao : Z)
    (p : inexact R (option Z) * unit) : Prop :=
  node_inv rO Stream_lazy_approximate_order (function_sequence function ao)
    (fun _ : unit => True) (fun k => ao <= k) default_gen_ok p.1.

Lemma Stream_function_coefficient_ok (function : Z -> R) (ao : Z) :
  coefficient_ok (fun n (s : unit) => Ok (function n, s))
    (function_sequence function ao) (fun _ => True) (fun k => ao <= k).
Proof.
  intros n s _ Hn. exists s. split; [|exact I]. unfold function_sequence.
  destruct (Z.ltb_spec n ao); [lia|reflexivity].
Qed.

Lemma Stream_function_lawful (function : Z -> R) (ao : Z) :
  lawful rO (Stream_function function) (function_sequence function ao)
    (function_inv function ao).
Proof.
  destruct (inexact_handle_lawful rO Stream_lazy_approximate_order
              (fun n (s : unit) => Ok (function n, s))
              (function_sequence function ao) (fun _ => True) (fun k => ao <= k)
              (Stream_function_coefficient_ok function ao)) as [H1 H2].
  constructor.
  - intros n s Hs. destruct (H1 n s (conj Hs I)) as (s' & Hg & Hs' & _). eauto.
  - intros s Hs. destruct (H2 s (conj Hs I)) as (a & s' & Hg & [Hs' _] & Hb).
    exists a, s'. tauto.
Qed.

Lemma Stream_function_order_within (function : Z -> R) (ao v : Z) :
  function_sequence function ao v <> rO ->
  (forall k, k < v -> function_sequence function ao k = rO) ->
  order_within (Stream_function function) (function_inv function ao) v
    (Z.to_nat (v - ao + 1)).
Proof.
  intros Hv Hz s fuel Hs Hfuel.
  destruct (inexact_handle_order_within rO Stream_lazy_approximate_order
              (fun n (s : unit) => Ok (function n, s))
              (function_sequence function ao) (fun _ => True) (fun k => ao <= k)
              ao v (Stream_function_coefficient_ok function ao)
              (fun k Hk => Hk) Hv Hz s fuel (conj Hs I) Hfuel)
    as (s' & Hg & Hs' & _).
  eauto.
Qed.

(** A function stream as [__init__] leaves it satisfies the invariant
    (the caller passes [true_order=True] only for a true order). *)
Lemma Stream_function_init_inv (function : Z -> R) (is_sparse : bool) (ao : Z)
    (true_order : bool) :
  (true_order = true -> function ao <> rO) ->
  function_inv function ao (Stream_function_init is_sparse ao true_order, tt).
Proof.
  intros Hto. unfold function_inv, node_inv. simpl. split; [|split; [|split]].
  - intros k Hk. unfold function_sequence. destruct (Z.ltb_spec k ao); [reflexivity|lia].
  - intros k Hk. exact Hk.
  - intros Ht. unfold function_sequence. destruct (Z.ltb_spec ao ao); [lia|]. now apply Hto.
  - unfold cache_inv. destruct is_sparse; simpl.
    + split; [intros _; apply lookup_empty|].
      intros k v Hk. rewrite lookup_empty in Hk. discriminate.
    + split; [congruence|]. split; [intros j v Hj; destruct j; discriminate|reflexivity].
Qed.

Lemma on_fst_lawful {A B : Type} (h : handle R A) (den : Z -> R)
    (IA : A -> Prop) (IB : B -> Prop) :
  lawful rO h den IA -> lawful rO (@on_fst A B h) den (fun p => IA p.1 /\ IB p.2).
Proof.
  intros [H1 H2]. constructor; simpl.
  - intros n [a b] [Ha Hb]. simpl in *. destruct (H1 n a Ha) as (a' & Hg & Ha').
    rewrite Hg. simpl. eauto.
  - intros [a b] [Ha Hb]. simpl in *. destruct (H2 a Ha) as (x & a' & Hg & Ha' & Hx).
    rewrite Hg. simpl. exists x, (a', b). tauto.
Qed.

Lemma on_snd_lawful {A B : Type} (h : handle R B) (den : Z -> R)
    (IA : A -> Prop) (IB : B -> Prop) :
  lawful rO h den IB -> lawful rO (@on_snd A B h) den (fun p => IA p.1 /\ IB p.2).
Proof.
  intros [H1 H2]. constructor; simpl.
  - intros n [a b] [Ha Hb]. simpl in *. destruct (H1 n b Hb) as (b' & Hg & Hb').
    rewrite Hg. simpl. eauto.
  - intros [a b] [Ha Hb]. simpl in *. destruct (H2 b Hb) as (x & b' & Hg & Hb' & Hx).
    rewrite Hg. simpl. exists x, (a, b'). tauto.
Qed.

End Leaves.

(** ** Addition and subtraction: [Stream_add], [Stream_sub] *)

Section AddSub.
Context {R : Type} `{EqDecision R}.
Variables (rO rI : R) (radd rmul rsub : R -> R -> R) (ropp : R -> R).
Hypothesis Rth : ring_theory rO rI radd rmul rsub ropp eq.
Context {St : Type}.
Variables left right : handle R St.

(** [Stream_binary.__init__]: [super().__init__(is_sparse, False)]. *)
Definition Stream_binary_init (is_sparse : bool) : inexact R (option Z) :=
  Stream_inexact_init is_sparse false None None.

(** [min(self._left._approximate_order, self._right._approximate_order)]. *)
Definition Stream_add_approximate_order (s : St) : result (ext * St) :=
  let* (a, s) := h_approximate_order left s in
  let* (b, s) := h_approximate_order right s in
  Ok (ext_min a b, s).

(** [Stream_add.get_coefficient]: [self._left[n] + self._right[n]]. *)
Definition Stream_add_get_coefficient (n : Z) (s : St) : result (R * St) :=
  let* (x, s) := h_getitem left n s in
  let* (y, s) := h_getitem right n s in
  Ok (radd x y, s).

(** [Stream_sub.get_coefficient]: [self._left[n] - self._right[n]]. *)
Definition Stream_sub_get_coefficient (n : Z) (s : St) : result (R * St) :=
  let* (x, s) := h_getitem left n s in
  let* (y, s) := h_getitem right n s in
  Ok (rsub x y, s).

Definition Stream_add : handle R (inexact R (option Z) * St) :=
  inexact_handle rO Stream_add_approximate_order Stream_add_get_coefficient.

Definition Stream_sub : handle R (inexact R (option Z) * St) :=
  inexact_handle rO Stream_add_approximate_order Stream_sub_get_coefficient.

(** The invariant of the attributes of an addition or subtraction node
    whose coefficients are those of [den]. *)
Definition binary_inv (den : Z -> R) (Inv : St -> Prop) (st : inexact R (option Z))
  : Prop :=
  node_inv rO Stream_add_approximate_order den Inv (fun _ => True) default_gen_ok st.

End AddSub.

Section AddSubFacts.
Context {R : Type} `{EqDecision R}.
Variables (rO rI : R) (radd rmul rsub : R -> R -> R) (ropp : R -> R).
Hypothesis Rth : ring_theory rO rI radd rmul rsub ropp eq.
Add Ring Rring : Rth.
Context {St : Type}.
Variables left right : handle R St.
Variables denL denR : Z -> R.
Variable Inv : St -> Prop.
Hypothesis HL : lawful rO left denL Inv.
Hypothesis HR : lawful rO right denR Inv.

Lemma ext_min_gt (a b : ext) (k : Z) :
  ext_gt (ext_min a b) k -> ext_gt a k /\ ext_gt b k.
Proof. destruct a, b; simpl; lia. Qed.

Lemma Stream_add_lazy_ok (op : R -> R -> R) :
  op rO rO = rO ->
  lazy_ok rO (Stream_add_approximate_order left right)
    (fun n => op (denL n) (denR n)) Inv (fun _ => True).
Proof.
  intros Hop s Hs. unfold Stream_add_approximate_order.
  destruct (law_approximate_order _ _ _ _ HL s Hs) as (a & s1 & Ha & Hs1 & Hba).
  destruct (law_approximate_order _ _ _ _ HR s1 Hs1) as (b & s2 & Hb & Hs2 & Hbb).
  rewrite Ha. simpl. rewrite Hb. simpl. exists (ext_min a b), s2.
  split; [reflexivity|]. split; [assumption|]. split; [|trivial].
  intros k Hk. apply ext_min_gt in Hk as [Hka Hkb].
  now rewrite (Hba k Hka), (Hbb k Hkb).
Qed.

Lemma Stream_add_coefficient_ok :
  coefficient_ok (Stream_add_get_coefficient radd left right)
    (fun n => radd (denL n) (denR n)) Inv (fun _ => True).
Proof.
  intros n s Hs _. unfold Stream_add_get_coefficient.
  destruct (law_getitem _ _ _ _ HL n s Hs) as (s1 & Hx & Hs1).
  destruct (law_getitem _ _ _ _ HR n s1 Hs1) as (s2 & Hy & Hs2).
  rewrite Hx. simpl. rewrite Hy. simpl. eauto.
Qed.

Lemma Stream_sub_coefficient_ok :
  coefficient_ok (Stream_sub_get_coefficient rsub left right)
    (fun n => rsub (denL n) (denR n)) Inv (fun _ => True).
Proof.
  intros n s Hs _. unfold Stream_sub_get_coefficient.
  destruct (law_getitem _ _ _ _ HL n s Hs) as (s1 & Hx & Hs1).
  destruct (law_getitem _ _ _ _ HR n s1 Hs1) as (s2 & Hy & Hs2).
  rewrite Hx. simpl. rewrite Hy. simpl. eauto.
Qed.

(** The sum of two lawful streams is a lawful stream. *)
Lemma Stream_add_lawful :
  lawful rO (Stream_add rO radd left right) (fun n => radd (denL n) (denR n))
    (fun p => binary_inv rO left right (fun n => radd (denL n) (denR n)) Inv p.1
              /\ Inv p.2).
Proof. apply inexact_handle_lawful, Stream_add_coefficient_ok. Qed.

Lemma Stream_sub_lawful :
  lawful rO (Stream_sub rO rsub left right) (fun n => rsub (denL n) (denR n))
    (fun p => binary_inv rO left right (fun n => rsub (denL n) (denR n)) Inv p.1
              /\ Inv p.2).
Proof. apply inexact_handle_lawful, Stream_sub_coefficient_ok. Qed.

(** A node as [__init__] leaves it satisfies the invariant. *)
Lemma Stream_add_init_inv (is_sparse : bool) :
  binary_inv rO left right (fun n => radd (denL n) (denR n)) Inv
    (Stream_binary_init is_sparse).
Proof.
  unfold binary_inv, node_inv. simpl. split; [|split; [reflexivity|]].
  - apply Stream_add_lazy_ok. ring.
  - destruct is_sparse; simpl; [reflexivity|]. split; [reflexivity|]. intros s a s' _ _. reflexivity.
Qed.

Lemma Stream_sub_init_inv (is_sparse : bool) :
  binary_inv rO left right (fun n => rsub (denL n) (denR n)) Inv
    (Stream_binary_init is_sparse).
Proof.
  unfold binary_inv, node_inv. simpl. split; [|split; [reflexivity|]].
  - apply Stream_add_lazy_ok. ring.
  - destruct is_sparse; simpl; [reflexivity|]. split; [reflexivity|]. intros s a s' _ _. reflexivity.
Qed.

(** C1. For lawful streams [left] and [right] in a store [s] and every
    integer [n]: [left[n]] and [right[n]] return coefficients [x] and [y];
    a sum node over them, fresh from [__init__] or in any later state,
    returns [x + y] at [n], and a difference node returns [x - y]; this
    includes the indices below the approximate orders, where the shortcut
    of [__getitem__] returns zero. *)
Theorem Stream_add_sub_getitem (n : Z) (s : St) :
  Inv s ->
  exists x y,
    (exists s', h_getitem left n s = Ok (x, s'))
    /\ (exists s', h_getitem right n s = Ok (y, s'))
    /\ (forall is_sparse,
          binary_inv rO left right (fun k => radd (denL k) (denR k)) Inv
            (Stream_binary_init is_sparse)
          /\ binary_inv rO left right (fun k => rsub (denL k) (denR k)) Inv
               (Stream_binary_init is_sparse))
    /\ (forall st,
          binary_inv rO left right (fun k => radd (denL k) (denR k)) Inv st ->
          exists st' s',
            h_getitem (Stream_add rO radd left right) n (st, s) = Ok (radd x y, (st', s'))
            /\ binary_inv rO left right (fun k => radd (denL k) (denR k)) Inv st'
            /\ Inv s')
    /\ (forall st,
          binary_inv rO left right (fun k => rsub (denL k) (denR k)) Inv st ->
          exists st' s',
            h_getitem (Stream_sub rO rsub left right) n (st, s) = Ok (rsub x y, (st', s'))
            /\ binary_inv rO left right (fun k => rsub (denL k) (denR k)) Inv st'
            /\ Inv s').
Proof.
  intros Hs. exists (denL n), (denR n).
  destruct (law_getitem _ _ _ _ HL n s Hs) as (s1 & Hx & _).
  destruct (law_getitem _ _ _ _ HR n s Hs) as (s2 & Hy & _).
  split; [eauto|]. split; [eauto|]. split; [|split].
  - intros is_sparse. split; [apply Stream_add_init_inv|apply Stream_sub_init_inv].
  - intros st Hst.
    destruct (law_getitem _ _ _ _ Stream_add_lawful n (st, s) (conj Hst Hs))
      as ([st' s'] & Hg & Hst' & Hs').
    exists st', s'. tauto.
  - intros st Hst.
    destruct (law_getitem _ _ _ _ Stream_sub_lawful n (st, s) (conj Hst Hs))
      as ([st' s'] & Hg & Hst' & Hs').
    exists st', s'. tauto.
Qed.

End AddSubFacts.

(** *** The doctest of [Stream_add.get_coefficient] over the integers *)

Definition doctest_f : handle Z ((inexact Z (option Z) * unit) * (inexact Z (option Z) * unit)) :=
  on_fst (Stream_function 0 (fun n => n)).

Definition doctest_g : handle Z ((inexact Z (option Z) * unit) * (inexact Z (option Z) * unit)) :=
  on_snd (Stream_function 0 (fun n => n * n)).

Definition doctest_store (is_sparse : bool)
  : (inexact Z (option Z) * unit) * (inexact Z (option Z) * unit) :=
  ((Stream_function_init is_sparse 0 false, tt),
   (Stream_function_init is_sparse 0 false, tt)).

(** [values h ns s]: [[h[n] for n in ns]]. *)
Fixpoint values {R St : Type} (h : handle R St) (ns : list Z) (s : St)
  : result (list R) :=
  match ns with
  | [] => Ok []
  | n :: ns' =>
      let* (v, s) := h_getitem h n s in
      let* vs := values h ns' s in
      Ok (v :: vs)
  end.

Example Stream_add_doctest :
  values (Stream_add 0 Z.add doctest_f doctest_g) (seqZ 0 10)
         (Stream_binary_init true, doctest_store true)
  = Ok [0; 2; 6; 12; 20; 30; 42; 56; 72; 90].
Proof. vm_compute. reflexivity. Qed.

Example Stream_sub_doctest :
  values (Stream_sub 0 Z.sub doctest_f doctest_g) (seqZ 0 10)
         (Stream_binary_init false, doctest_store false)
  = Ok [0; 0; -2; -6; -12; -20; -30; -42; -56; -72].
Proof. vm_compute. reflexivity. Qed.

Lemma Stream_add_sub_getitem_witness :
  exists x y,
    (exists s', h_getitem doctest_f 5 (doctest_store true) = Ok (x, s'))
    /\ (exists s', h_getitem doctest_g 5 (doctest_store true) = Ok (y, s'))
    /\ (exists p', h_getitem (Stream_add 0 Z.add doctest_f doctest_g) 5
                     (Stream_binary_init true, doctest_store true) = Ok (x + y, p'))
    /\ (exists p', h_getitem (Stream_sub 0 Z.sub doctest_f doctest_g) 5
                     (Stream_binary_init true, doctest_store true) = Ok (x - y, p')).
Proof.
  destruct (Stream_add_sub_getitem 0 1 Z.add Z.mul Z.sub Z.opp Zth
              doctest_f doctest_g
              (function_sequence 0 (fun n => n) 0)
              (function_sequence 0 (fun n => n * n) 0)
              (fun p => function_inv 0 (fun n => n) 0 p.1
                        /\ function_inv 0 (fun n => n * n) 0 p.2)
              (on_fst_lawful 0 _ _ _ _ (Stream_function_lawful 0 (fun n => n) 0))
              (on_snd_lawful 0 _ _ _ _ (Stream_function_lawful 0 (fun n => n * n) 0))
              5 (doctest_store true))
    as (x & y & Hx & Hy & Hinit & Hadd & Hsub).
  - split; apply Stream_function_init_inv; discriminate.
  - exists x, y. split; [exact Hx|]. split; [exact Hy|].
    destruct (Hinit true) as [Hia His].
    destruct (Hadd _ Hia) as (st' & s' & Ha & _).
    destruct (Hsub _ His) as (st'' & s'' & Hb & _).
    split; eauto.
Defined.

(** ** Derivatives: [Stream_derivative] *)

Section Derivative.
Context {R : Type} `{EqDecision R}.
Variables (rO rI : R) (radd rmul : R -> R -> R) (ropp : R -> R).
Context {St : Type}.
Variable series : handle R St.
Variable shift : Z.

(** The image of an integer in the ring (the coercion behind
    [integer * coefficient]). *)
Fixpoint of_pos (p : positive) : R :=
  match p with
  | xH => rI
  | xO q => radd (of_pos q) (of_pos q)
  | xI q => radd rI (radd (of_pos q) (of_pos q))
  end.

Definition of_Z (z : Z) : R :=
  match z with
  | Z0 => rO
  | Zpos p => of_pos p
  | Zneg p => ropp (of_pos p)
  end.

(** [prod] of [sage.misc.misc_c] on integers: the product of the items,
    [1] when there is none. *)
Definition prod (l : list Z) : Z := foldr Z.mul 1 l.

(** [Stream_derivative.__init__]. *)
Definition Stream_derivative_init (is_sparse : bool) : inexact R (option Z) :=
  Stream_inexact_init is_sparse false None None.

(** The lazy attribute [Stream_derivative._approximate_order]. *)
Definition Stream_derivative_approximate_order (s : St) : result (ext * St) :=
  let* (a, s) := h_approximate_order series s in
  match a with
  | Fin a =>
      if (0 <=? a) && (a <=? shift) then Ok (Fin 0, s) else Ok (Fin (a - shift), s)
  | PosInf => Ok (PosInf, s)
  end.

(** [Stream_derivative.__getitem__]:
    [prod(n + k for k in range(1, self._shift + 1)) * self._series[n + self._shift]]. *)
Definition Stream_derivative_getitem (n : Z) (p : inexact R (option Z) * St)
  : result (R * (inexact R (option Z) * St)) :=
  let c := prod (map (fun k => n + k) (seqZ 1 shift)) in
  let* (v, s) := h_getitem series (n + shift) p.2 in
  Ok (rmul (of_Z c) v, (p.1, s)).

Definition Stream_derivative : handle R (inexact R (option Z) * St) :=
  mkHandle Stream_derivative_getitem
           (approximate_order_attr Stream_derivative_approximate_order)
           (Stream_inexact_order rO Stream_derivative_approximate_order
              Stream_derivative_getitem).

(** [(n + 1) (n + 2) ... (n + k)]. *)
Fixpoint rising (n : Z) (k : nat) : Z :=
  match k with
  | O => 1
  | S k' => rising n k' * (n + Z.of_nat k)
  end.

(** The order the claim describes: the order of the source minus the
    shift, and [0] when the order of the source lies in [[0, shift]]. *)
Definition derivative_order (a : ext) : ext :=
  match a with
  | Fin a => if decide (0 <= a <= shift) then Fin 0 else Fin (a - shift)
  | PosInf => PosInf
  end.

End Derivative.

Section DerivativeFacts.
Context {R : Type} `{EqDecision R}.
Variables (rO rI : R) (radd rmul rsub : R -> R -> R) (ropp : R -> R).
Hypothesis Rth : ring_theory rO rI radd rmul rsub ropp eq.
Add Ring Rring_derivative : Rth.
Context {St : Type}.
Variable series : handle R St.
Variable shift : Z.
Variable den : Z -> R.
Variable Inv : St -> Prop.
Hypothesis Hseries : lawful rO series den Inv.

Lemma prod_app (l1 l2 : list Z) : prod (l1 ++ l2) = prod l1 * prod l2.
Proof. unfold prod. induction l1 as [|x l1 IH]; simpl; [lia|]. rewrite IH. lia. Qed.

Lemma prod_range_rising (n : Z) (k : nat) :
  prod (map (fun j => n + j) (seqZ 1 (Z.of_nat k))) = rising n k.
Proof.
  induction k as [|k IH]; [reflexivity|].
  rewrite seqZ_S, map_app, prod_app, IH. simpl rising. unfold prod. simpl. lia.
Qed.

Lemma prod_range (n : Z) :
  prod (map (fun j => n + j) (seqZ 1 shift)) = rising n (Z.to_nat shift).
Proof.
  destruct (Z.le_gt_cases 0 shift) as [Hs|Hs].
  - rewrite <- (Z2Nat.id shift) at 1 by assumption. apply prod_range_rising.
  - rewrite seqZ_nil by lia. replace (Z.to_nat shift) with O by lia. reflexivity.
Qed.

Lemma rising_zero (n : Z) (k : nat) :
  - Z.of_nat k <= n < 0 -> rising n k = 0.
Proof.
  induction k as [|k IH]; intros Hn; [lia|]. simpl rising.
  destruct (decide (n = - Z.of_nat (S k))) as [->|Hne]; [lia|].
  rewrite IH by lia. reflexivity.
Qed.

(** C7. For a lawful source stream and every integer [n],
    [Stream_derivative(source, k)[n]] is
    [(n+1)(n+2)...(n+k) * source[n+k]]; the approximate order computed on
    first access is the approximate order [a] of the source minus [k],
    and [0] when [0 <= a <= k]; and the coefficient is zero at every index
    below that order. *)
Theorem Stream_derivative_spec (n : Z) (st : inexact R (option Z)) (s : St) :
  Inv s ->
  exists v s1,
    h_getitem series (n + shift) s = Ok (v, s1)
    /\ h_getitem (Stream_derivative rO rI radd rmul ropp series shift) n (st, s)
       = Ok (rmul (of_Z rO rI radd ropp (rising n (Z.to_nat shift))) v, (st, s1))
    /\ exists a s2,
         h_approximate_order series s = Ok (a, s2)
         /\ (_approximate_order st = None ->
             h_approximate_order (Stream_derivative rO rI radd rmul ropp series shift)
               (st, s)
             = Ok (derivative_order shift a,
                   (set_approximate_order (derivative_order shift a) st, s2)))
         /\ (ext_gt (derivative_order shift a) n ->
             rmul (of_Z rO rI radd ropp (rising n (Z.to_nat shift))) v = rO).
Proof.
  intros Hs.
  destruct (law_getitem _ _ _ _ Hseries (n + shift) s Hs) as (s1 & Hv & _).
  destruct (law_approximate_order _ _ _ _ Hseries s Hs) as (a & s2 & Ha & _ & Hbelow).
  exists (den (n + shift)), s1. split; [exact Hv|]. split.
  - simpl. unfold Stream_derivative_getitem. simpl. rewrite Hv. simpl.
    now rewrite prod_range.
  - exists a, s2. split; [exact Ha|]. split.
    + intros Hnone. simpl. unfold approximate_order_attr. simpl. rewrite Hnone.
      unfold Stream_derivative_approximate_order. rewrite Ha. simpl.
      destruct a as [a|]; simpl; [|reflexivity].
      destruct (decide (0 <= a <= shift)) as [Hin|Hout].
      * destruct (Z.leb_spec 0 a), (Z.leb_spec a shift); try lia. reflexivity.
      * destruct (Z.leb_spec 0 a), (Z.leb_spec a shift); try lia; reflexivity.
    + intros Hn. destruct a as [a|]; simpl in Hn.
      * destruct (decide (0 <= a <= shift)) as [Hin|Hout]; simpl in Hn.
        -- destruct (Z.le_gt_cases 0 (n + shift)) as [Hge|Hlt].
           ++ rewrite rising_zero by lia. simpl. ring.
           ++ rewrite (Hbelow (n + shift)) by (simpl; lia). ring.
        -- rewrite (Hbelow (n + shift)) by (simpl; lia). ring.
      * rewrite (Hbelow (n + shift)) by exact I. ring.
Qed.

End DerivativeFacts.

(** The second derivative of the stream of [f(n) = n] with approximate
    order [-2], at the indices [-5 .. 2]. *)
Example Stream_derivative_doctest :
  values (Stream_derivative 0 1 Z.add Z.mul Z.opp (Stream_function 0 (fun n => n)) 2)
         (seqZ (-5) 8)
         (Stream_derivative_init true, (Stream_function_init true (-2) false, tt))
  = Ok [0; -12; -2; 0; 0; 4; 18; 48].
Proof. vm_compute. reflexivity. Qed.

Lemma Stream_derivative_spec_witness :
  exists v s1,
    h_getitem (Stream_function 0 (fun n => n)) (1 + 2)
      (Stream_function_init true (-2) false, tt) = Ok (v, s1)
    /\ h_getitem (Stream_derivative 0 1 Z.add Z.mul Z.opp
                    (Stream_function 0 (fun n => n)) 2) 1
         (Stream_derivative_init true, (Stream_function_init true (-2) false, tt))
       = Ok (of_Z 0 1 Z.add Z.opp (rising 1 (Z.to_nat 2)) * v,
             (Stream_derivative_init true, s1)).
Proof.
  destruct (Stream_derivative_spec 0 1 Z.add Z.mul Z.sub Z.opp Zth
              (Stream_function 0 (fun n => n)) 2
              (function_sequence 0 (fun n => n) (-2))
              (function_inv 0 (fun n => n) (-2))
              (Stream_function_lawful 0 (fun n => n) (-2))
              1 (Stream_derivative_init true)
              (Stream_function_init true (-2) false, tt))
    as (v & s1 & Hv & Hd & _).
  - apply Stream_function_init_inv. discriminate.
  - exists v, s1. split; assumption.
Defined.

(** ** Dirichlet convolution: [Stream_dirichlet_convolve] *)

(** Modelled from the spec: [divisors] of [sage.arith.misc] is not under
    src/; it lists the positive divisors of a non-zero integer in
    increasing order (the "divisors [k] of [n]" of the convolution) and
    raises [ValueError] at [0]. *)
Definition positive_divisors (n : Z) : list Z :=
  filter (fun k => n mod k = 0) (seqZ 1 (Z.abs n)).

Definition divisors (n : Z) : result (list Z) :=
  if n =? 0 then Raise ValueError else Ok (positive_divisors n).

Section Dirichlet.
Context {R : Type} `{EqDecision R}.
Variables (rO : R) (radd rmul : R -> R -> R).
Context {St : Type}.
Variables left right : handle R St.

(** The lazy attribute [Stream_dirichlet_convolve._approximate_order]. *)
Definition Stream_dirichlet_convolve_approximate_order (s : St) : result (ext * St) :=
  let* (a, s) := h_approximate_order left s in
  if ext_leb_Z a 0 then Raise ValueError
  else
    let* (b, s) := h_approximate_order right s in
    if ext_leb_Z b 0 then Raise ValueError
    else Ok (ext_mul a b, s).

(** The sum of [Stream_dirichlet_convolve.get_coefficient], one divisor
    at a time: [sum(l * self._right[n//k] for k in divisors(n)
    if (k >= self._left._approximate_order
        and n // k >= self._right._approximate_order
        and (l := self._left[k])))]. *)
Fixpoint dirichlet_terms (n : Z) (ds : list Z) (acc : R) (s : St) : result (R * St) :=
  match ds with
  | [] => Ok (acc, s)
  | k :: ds' =>
      let* (a, s) := h_approximate_order left s in
      if ext_leb_Z a k then
        let* (b, s) := h_approximate_order right s in
        if ext_leb_Z b (n / k) then
          let* (l, s) := h_getitem left k s in
          if truthy rO l then
            let* (r, s) := h_getitem right (n / k) s in
            dirichlet_terms n ds' (radd acc (rmul l r)) s
          else dirichlet_terms n ds' acc s
        else dirichlet_terms n ds' acc s
      else dirichlet_terms n ds' acc s
  end.

Definition Stream_dirichlet_convolve_get_coefficient (n : Z) (s : St)
  : result (R * St) :=
  let* ds := divisors n in
  dirichlet_terms n ds rO s.

Definition Stream_dirichlet_convolve : handle R (inexact R (option Z) * St) :=
  inexact_handle rO Stream_dirichlet_convolve_approximate_order
    Stream_dirichlet_convolve_get_coefficient.

(** The sum over the divisors [k] of [n] of [f k * g (n / k)], for
    [n >= 1]; zero at the other indices. *)
Definition dirichlet_sum (f g : Z -> R) (n : Z) : R :=
  if n <=? 0 then rO
  else fold_left radd (map (fun k => rmul (f k) (g (n / k))) (positive_divisors n)) rO.

Definition dirichlet_inv (f g : Z -> R) (Inv : St -> Prop)
    (st : inexact R (option Z)) : Prop :=
  node_inv rO Stream_dirichlet_convolve_approximate_order (dirichlet_sum f g) Inv
    (fun k => 1 <= k) default_gen_ok st.

End Dirichlet.

Section DirichletFacts.
Context {R : Type} `{EqDecision R}.
Variables (rO rI : R) (radd rmul rsub : R -> R -> R) (ropp : R -> R).
Hypothesis Rth : ring_theory rO rI radd rmul rsub ropp eq.
Add Ring Rring_dirichlet : Rth.
Context {St : Type}.
Variables left right : handle R St.
Variables denL denR : Z -> R.
Variable Inv : St -> Prop.
Hypothesis HL : lawful rO left denL Inv.
Hypothesis HR : lawful rO right denR Inv.

Lemma elem_of_positive_divisors (n k : Z) :
  k ∈ positive_divisors n <-> 1 <= k <= Z.abs n /\ n mod k = 0.
Proof.
  unfold positive_divisors. rewrite list_elem_of_filter, elem_of_seqZ.
  split; intros [H1 H2]; split; (assumption || lia).
Qed.

Lemma divisor_product (n k : Z) :
  1 <= n -> k ∈ positive_divisors n -> k * (n / k) = n.
Proof.
  intros Hn Hk. apply elem_of_positive_divisors in Hk as [Hk Hmod].
  pose proof (Z.div_mod n k ltac:(lia)). lia.
Qed.

Lemma ext_leb_Z_false (a : ext) (k : Z) : ext_leb_Z a k = false -> ext_gt a k.
Proof. destruct a as [a|]; simpl; [|trivial]. destruct (Z.leb_spec a k); [discriminate|lia]. Qed.

Lemma ext_leb_Z_true (a : ext) (k : Z) :
  ext_leb_Z a k = true -> exists z, a = Fin z /\ z <= k.
Proof.
  destruct a as [a|]; simpl; [|discriminate].
  destruct (Z.leb_spec a k); [eauto|discriminate].
Qed.

Lemma dirichlet_terms_correct (n : Z) (ds : list Z) :
  forall (acc : R) (s : St), Inv s ->
  exists s',
    dirichlet_terms rO radd rmul left right n ds acc s
    = Ok (fold_left radd (map (fun k => rmul (denL k) (denR (n / k))) ds) acc, s')
    /\ Inv s'.
Proof.
  induction ds as [|k ds IH]; intros acc s Hs; simpl; [eauto|].
  destruct (law_approximate_order _ _ _ _ HL s Hs) as (a & s1 & Ha & Hs1 & Hba).
  rewrite Ha. simpl. destruct (ext_leb_Z a k) eqn:Hak.
  2:{ apply ext_leb_Z_false in Hak. rewrite (Hba k Hak).
      replace (radd acc (rmul rO (denR (n / k)))) with acc by ring. now apply IH. }
  destruct (law_approximate_order _ _ _ _ HR s1 Hs1) as (b & s2 & Hb & Hs2 & Hbb).
  rewrite Hb. simpl. destruct (ext_leb_Z b (n / k)) eqn:Hbk.
  2:{ apply ext_leb_Z_false in Hbk. rewrite (Hbb _ Hbk).
      replace (radd acc (rmul (denL k) rO)) with acc by ring. now apply IH. }
  destruct (law_getitem _ _ _ _ HL k s2 Hs2) as (s3 & Hl & Hs3).
  rewrite Hl. simpl. destruct (truthy rO (denL k)) eqn:Ht.
  - destruct (law_getitem _ _ _ _ HR (n / k) s3 Hs3) as (s4 & Hr & Hs4).
    rewrite Hr. simpl. now apply IH.
  - apply (truthy_false rO) in Ht. rewrite Ht.
    replace (radd acc (rmul rO (denR (n / k)))) with acc by ring. now apply IH.
Qed.

Lemma Stream_dirichlet_convolve_coefficient_ok :
  coefficient_ok (Stream_dirichlet_convolve_get_coefficient rO radd rmul left right)
    (dirichlet_sum rO radd rmul denL denR) Inv (fun k => 1 <= k).
Proof.
  intros n s Hs Hn. unfold Stream_dirichlet_convolve_get_coefficient, divisors.
  destruct (Z.eqb_spec n 0); [lia|]. simpl.
  unfold dirichlet_sum. destruct (Z.leb_spec n 0); [lia|].
  now apply dirichlet_terms_correct.
Qed.

Lemma fold_left_zero (l : list R) :
  Forall (fun x => x = rO) l -> fold_left radd l rO = rO.
Proof.
  induction 1 as [|x l Hx _ IH]; simpl; [reflexivity|].
  subst x. replace (radd rO rO) with rO by ring. exact IH.
Qed.

(** Below the product of two lower bounds every divisor pair has a factor
    below its bound. *)
Lemma dirichlet_sum_below (a b : ext) :
  ext_leb_Z a 0 = false -> ext_leb_Z b 0 = false ->
  below rO a denL -> below rO b denR ->
  below rO (ext_mul a b) (dirichlet_sum rO radd rmul denL denR).
Proof.
  intros Ha Hb Hba Hbb k Hk. unfold dirichlet_sum.
  destruct (Z.leb_spec k 0) as [|Hpos]; [reflexivity|].
  apply fold_left_zero, Forall_forall. intros x Hx.
  apply list_elem_of_fmap in Hx as (j & -> & Hj).
  pose proof (divisor_product k j ltac:(lia) Hj) as Hprod.
  apply elem_of_positive_divisors in Hj as [Hj _].
  apply ext_leb_Z_false in Ha, Hb.
  destruct a as [a|]; [|rewrite (Hba j I); ring].
  destruct b as [b|]; [|rewrite (Hbb (k / j) I); ring].
  simpl in *. destruct (Z.lt_ge_cases j a) as [Hja|Hja].
  - rewrite (Hba j Hja). ring.
  - rewrite (Hbb (k / j)); [ring|]. simpl. nia.
Qed.

Lemma ext_mul_valid (a b : ext) (k : Z) :
  ext_leb_Z a 0 = false -> ext_leb_Z b 0 = false ->
  ext_leb_Z (ext_mul a b) k = true -> 1 <= k.
Proof.
  intros Ha Hb Hk. apply ext_leb_Z_false in Ha, Hb.
  apply ext_leb_Z_true in Hk as (z & Hz & Hzk).
  destruct a as [a|], b as [b|]; simpl in *; try discriminate.
  inversion Hz. nia.
Qed.

Lemma ext_gt_leb (a : ext) (v : Z) (f : Z -> R) :
  below rO a f -> f v <> rO -> v <= 0 -> ext_leb_Z a 0 = true.
Proof.
  intros Hb Hv Hv0. destruct (ext_leb_Z a 0) eqn:Ha; [reflexivity|].
  exfalso. apply Hv, Hb. apply ext_leb_Z_false in Ha.
  destruct a as [a|]; simpl in *; [lia|exact I].
Qed.

(** A node whose order is known keeps returning the divisor sums. *)
Lemma Stream_dirichlet_convolve_getitem_known (n : Z) (st : inexact R (option Z))
    (s : St) :
  dirichlet_inv rO radd rmul left right denL denR Inv st ->
  Inv s ->
  exists st' s',
    h_getitem (Stream_dirichlet_convolve rO radd rmul left right) n (st, s)
    = Ok (dirichlet_sum rO radd rmul denL denR n, (st', s'))
    /\ dirichlet_inv rO radd rmul left right denL denR Inv st' /\ Inv s'.
Proof.
  intros Hst Hs.
  destruct (getitem_default_correct rO
              (Stream_dirichlet_convolve_approximate_order left right)
              (Stream_dirichlet_convolve_get_coefficient rO radd rmul left right)
              (dirichlet_sum rO radd rmul denL denR) Inv (fun k => 1 <= k) n st s
              Stream_dirichlet_convolve_coefficient_ok Hst Hs)
    as (st' & s' & Hg & Hst' & Hs' & _).
  exists st', s'. tauto.
Qed.

(** C6 (as the code has it). Let [a] and [b] be the approximate orders
    the two operands report when the order of the convolution is first
    computed. If [a <= 0], or [b <= 0], indexing a fresh convolution raises
    [ValueError]; this is the case whenever an operand has a non-zero
    coefficient at an index below [1]. If both are at least [1], indexing
    at [n] returns the sum over the divisors [k] of [n] of
    [left[k] * right[n / k]] (zero for [n <= 0]), and the node keeps doing
    so afterwards. *)
Theorem Stream_dirichlet_convolve_spec (is_sparse : bool) (n : Z) (s : St) :
  Inv s ->
  exists a s1 b s2,
    h_approximate_order left s = Ok (a, s1)
    /\ h_approximate_order right s1 = Ok (b, s2)
    /\ (ext_leb_Z a 0 = true \/ ext_leb_Z b 0 = true ->
        h_getitem (Stream_dirichlet_convolve rO radd rmul left right) n
          (Stream_binary_init is_sparse, s) = Raise ValueError)
    /\ (forall v, v <= 0 -> denL v <> rO \/ denR v <> rO ->
        h_getitem (Stream_dirichlet_convolve rO radd rmul left right) n
          (Stream_binary_init is_sparse, s) = Raise ValueError)
    /\ (ext_leb_Z a 0 = false -> ext_leb_Z b 0 = false ->
        exists st' s',
          h_getitem (Stream_dirichlet_convolve rO radd rmul left right) n
            (Stream_binary_init is_sparse, s)
          = Ok (dirichlet_sum rO radd rmul denL denR n, (st', s'))
          /\ dirichlet_inv rO radd rmul left right denL denR Inv st' /\ Inv s').
Proof.
  intros Hs.
  destruct (law_approximate_order _ _ _ _ HL s Hs) as (a & s1 & Ha & Hs1 & Hba).
  destruct (law_approximate_order _ _ _ _ HR s1 Hs1) as (b & s2 & Hb & Hs2 & Hbb).
  exists a, s1, b, s2. split; [exact Ha|]. split; [exact Hb|].
  assert (Hraise : ext_leb_Z a 0 = true \/ ext_leb_Z b 0 = true ->
            h_getitem (Stream_dirichlet_convolve rO radd rmul left right) n
              (Stream_binary_init is_sparse, s) = Raise ValueError).
  { intros Hab. simpl. unfold getitem_default, Stream_inexact_getitem,
      approximate_order_attr, Stream_dirichlet_convolve_approximate_order. simpl.
    rewrite Ha. simpl. destruct (ext_leb_Z a 0); [reflexivity|].
    rewrite Hb. simpl. destruct Hab as [Hab|Hab]; [discriminate|].
    now rewrite Hab. }
  split; [exact Hraise|]. split.
  - intros v Hv [HvL|HvR]; apply Hraise.
    + left. now apply (ext_gt_leb a v denL).
    + right. now apply (ext_gt_leb b v denR).
  - intros Ha0 Hb0.
    set (st1 := set_approximate_order (ext_mul a b)
                  (Stream_binary_init (R:=R) is_sparse)).
    assert (Hst1 : dirichlet_inv rO radd rmul left right denL denR Inv st1).
    { pose proof (dirichlet_sum_below a b Ha0 Hb0 Hba Hbb) as Hbelow.
      unfold dirichlet_inv, node_inv. simpl.
      destruct (ext_mul a b) as [ab|] eqn:Hab; [|intros k; apply Hbelow; exact I].
      split; [intros k Hk; now apply Hbelow|].
      split; [intros k Hk; apply (ext_mul_valid a b k Ha0 Hb0); rewrite Hab; simpl;
              now apply Z.leb_le|].
      split; [discriminate|]. unfold cache_inv. destruct is_sparse; simpl.
      - split; [intros _; apply lookup_empty|].
        intros k v Hk. rewrite lookup_empty in Hk. discriminate.
      - split; [congruence|]. split; [intros j v Hj; destruct j; discriminate|].
        reflexivity. }
    destruct (Stream_dirichlet_convolve_getitem_known n st1 s2 Hst1 Hs2)
      as (st' & s' & Hg & Hst' & Hs').
    exists st', s'. split; [|tauto]. rewrite <- Hg. simpl.
    unfold getitem_default, Stream_inexact_getitem, approximate_order_attr,
      Stream_dirichlet_convolve_approximate_order. simpl.
    rewrite Ha. simpl. rewrite Ha0. rewrite Hb. simpl. rewrite Hb0. reflexivity.
Qed.

End DirichletFacts.

(** The doctest of [Stream_dirichlet_convolve]: the convolution of
    [f(n) = n] (approximate order 1) with the stream of ones from index 1
    gives the sums of divisors. *)
Definition ones_from_1 : Stream_exact := mkExact [] 1 1 1.

Example ones_from_1_init :
  Stream_exact_init 0 [0] (Some 1) None None = Ok ones_from_1.
Proof. reflexivity. Qed.

Example Stream_dirichlet_convolve_doctest :
  values (Stream_dirichlet_convolve 0 Z.add Z.mul
            (Stream_function 0 (fun n => n)) (Stream_exact_handle 0 ones_from_1))
         (seqZ 1 9)
         (Stream_binary_init true, (Stream_function_init true 1 false, tt))
  = Ok [1; 3; 4; 7; 6; 12; 8; 15; 13].
Proof. vm_compute. reflexivity. Qed.

(** The claim as stated fails: the function stream of [f(n) = n] built
    with approximate order [0] and the stream of ones from index 1 both
    have order [1], and yet indexing their convolution raises. *)
Lemma Stream_dirichlet_convolve_counterexample :
  (exists s', h_order (Stream_function 0 (fun n => n)) 2
                (Stream_function_init true 0 false, tt) = Ok (Fin 1, s'))
  /\ Stream_exact_order ones_from_1 = 1
  /\ h_getitem (Stream_dirichlet_convolve 0 Z.add Z.mul
                  (Stream_function 0 (fun n => n)) (Stream_exact_handle 0 ones_from_1))
       6 (Stream_binary_init true, (Stream_function_init true 0 false, tt))
     = Raise ValueError.
Proof.
  split; [|split]; [|reflexivity|vm_compute; reflexivity].
  eexists. vm_compute. reflexivity.
Qed.

Lemma Stream_dirichlet_convolve_spec_witness :
  exists p',
    h_getitem (Stream_dirichlet_convolve 0 Z.add Z.mul
                 (Stream_function 0 (fun n => n)) (Stream_exact_handle 0 ones_from_1))
      6 (Stream_binary_init true, (Stream_function_init true 1 false, tt))
    = Ok (dirichlet_sum 0 Z.add Z.mul (function_sequence 0 (fun n => n) 1)
            (Stream_exact_getitem 0 ones_from_1) 6, p').
Proof.
  destruct (Stream_dirichlet_convolve_spec 0 1 Z.add Z.mul Z.sub Z.opp Zth
              (Stream_function 0 (fun n => n)) (Stream_exact_handle 0 ones_from_1)
              (function_sequence 0 (fun n => n) 1)
              (Stream_exact_getitem 0 ones_from_1)
              (function_inv 0 (fun n => n) 1)
              (Stream_function_lawful 0 (fun n => n) 1)
              (Stream_exact_lawful 0 ones_from_1 _
                 (proj1 (Stream_exact_init_sound 0 _ _ _ _ _ ones_from_1_init)))
              true 6 (Stream_function_init true 1 false, tt))
    as (a & s1 & b & s2 & Ha & Hb & _ & _ & Hok).
  - apply Stream_function_init_inv. discriminate.
  - vm_compute in Ha, Hb. inversion Ha; subst. inversion Hb; subst.
    destruct (Hok eq_refl eq_refl) as (st' & s' & Hg & _). eauto.
Defined.

(** ** Indexing: when it returns, and when it raises *)

Section Indexing.
Context {R : Type} `{EqDecision R}.
Variable rO : R.

(** [Stream_function] over a callable that may raise: [get_coefficient]
    is the callable itself, and what it raises is raised by whoever calls
    it. *)
Definition Stream_function_raising (function : Z -> result R)
  : handle R (inexact R (option Z) * unit) :=
  inexact_handle rO Stream_lazy_approximate_order
    (fun n s => let* c := function n in Ok (c, s)).

(** C5 (as the code has it). Indexing returns a coefficient at every
    integer, zero below the approximate order, for: a node of a subclass of
    [Stream_inexact] whose lazy attribute [_approximate_order] and whose
    [get_coefficient] (at the indices it may be asked) return without
    error, fresh or in any later state; the zero stream; an exact stream;
    and a function stream whose callable returns from the approximate order
    on (below it the callable is not called). Indexing raises otherwise: a
    sparse function stream raises what its callable raises at an index at
    or above the approximate order, and a Dirichlet convolution whose left
    operand has an approximate order at most [0] raises [ValueError] at
    every index. *)
Theorem Stream_getitem_total {St : Type}
    (lazy_approximate_order : St -> result (ext * St))
    (get_coefficient : Z -> St -> result (R * St))
    (den : Z -> R) (Inv : St -> Prop) (valid : Z -> Prop)
    (n : Z) (st : inexact R (option Z)) (s : St) :
  coefficient_ok get_coefficient den Inv valid ->
  node_inv rO lazy_approximate_order den Inv valid default_gen_ok st ->
  Inv s ->
  (exists v st' s',
     getitem_default rO lazy_approximate_order get_coefficient n (st, s)
     = Ok (v, (st', s'))
     /\ node_inv rO lazy_approximate_order den Inv valid default_gen_ok st'
     /\ Inv s'
     /\ forall a, _approximate_order st' = Some a -> ext_gt a n -> v = rO)
  /\ (lazy_ok rO lazy_approximate_order den Inv valid ->
      forall is_sparse,
        node_inv rO lazy_approximate_order den Inv valid default_gen_ok
          (Stream_inexact_init is_sparse false None None))
  /\ (forall (T : Type) (t : T), h_getitem (@Stream_zero R rO T) n t = Ok (rO, t))
  /\ (forall (T : Type) (t : T) (e : Stream_exact),
        exists v, h_getitem (@Stream_exact_handle R rO T e) n t = Ok (v, t)
                  /\ (canonical rO e -> n < Stream_exact_order e -> v = rO))
  /\ (forall (function : Z -> result R) (f : Z -> R) (ao : Z) (is_sparse : bool),
        (forall k, ao <= k -> function k = Ok (f k)) ->
        exists p',
          h_getitem (Stream_function_raising function) n
            (Stream_function_init is_sparse ao false, tt)
          = Ok ((if n <? ao then rO else f n), p'))
  /\ (forall (function : Z -> result R) (e : exn) (ao : Z),
        ao <= n -> function n = Raise e ->
        h_getitem (Stream_function_raising function) n
          (Stream_function_init true ao false, tt) = Raise e)
  /\ (forall (T : Type) (radd rmul : R -> R -> R) (left right : handle R T)
             (t t1 : T) (a : ext) (is_sparse : bool),
        h_approximate_order left t = Ok (a, t1) -> ext_leb_Z a 0 = true ->
        h_getitem (Stream_dirichlet_convolve rO radd rmul left right) n
          (Stream_binary_init is_sparse, t) = Raise ValueError).
Proof.
  intros Hgc Hnode Hs. split; [|split; [|split; [|split; [|split; [|split]]]]].
  - destruct (getitem_default_correct rO lazy_approximate_order get_coefficient
                den Inv valid n st s Hgc Hnode Hs)
      as (st' & s' & Hg & Hn' & Hs' & _).
    exists (den n), st', s'. split; [exact Hg|]. split; [exact Hn'|].
    split; [exact Hs'|]. intros a Ha Hlt. unfold node_inv in Hn'. rewrite Ha in Hn'.
    destruct a as [a|]; [|apply Hn'].
    destruct Hn' as (Hlow & _). apply Hlow. exact Hlt.
  - intros Hlazy is_sparse. unfold node_inv. simpl.
    split; [exact Hlazy|]. split; [reflexivity|].
    destruct is_sparse; simpl; [reflexivity|]. split; [reflexivity|].
    intros s0 a s1 _ _. reflexivity.
  - reflexivity.
  - intros T t e. eexists. split; [reflexivity|]. intros Hcan Hn.
    now apply canonical_below.
  - intros function f ao is_sparse Hf.
    assert (Hok : coefficient_ok
                    (fun k (u : unit) => let* c := function k in Ok (c, u))
                    (function_sequence rO f ao) (fun _ => True) (fun k => ao <= k)).
    { intros k u _ Hk. rewrite (Hf k Hk). simpl. exists u. split; [|exact I].
      unfold function_sequence. destruct (Z.ltb_spec k ao); [lia|reflexivity]. }
    destruct (law_getitem _ _ _ _
                (inexact_handle_lawful rO Stream_lazy_approximate_order _
                   (function_sequence rO f ao) (fun _ => True) (fun k => ao <= k) Hok)
                n (Stream_function_init is_sparse ao false, tt)) as (p' & Hg & _).
    + split; [|exact I].
      apply (Stream_function_init_inv rO f is_sparse ao false). discriminate.
    + exists p'. exact Hg.
  - intros function e ao Hn He. simpl.
    unfold getitem_default, Stream_inexact_getitem, approximate_order_attr. simpl.
    destruct (Z.ltb_spec n ao); [lia|].
    unfold sparse_getitem. rewrite lookup_empty, He. reflexivity.
  - intros T radd rmul left right t t1 a is_sparse Ha Hle. simpl.
    unfold getitem_default, Stream_inexact_getitem, approximate_order_attr. simpl.
    unfold Stream_dirichlet_convolve_approximate_order. rewrite Ha. simpl.
    rewrite Hle. reflexivity.
Qed.

End Indexing.

(** Indexing does fail: the Dirichlet convolution of two exact streams
    of order [0] raises [ValueError] at every index. *)
Definition exact_one : Stream_exact := mkExact [1] 0 1 0.

Example exact_one_init : Stream_exact_init 0 [1] None None None = Ok exact_one.
Proof. reflexivity. Qed.

Lemma Stream_getitem_counterexample :
  h_getitem (Stream_dirichlet_convolve 0 Z.add Z.mul
               (Stream_exact_handle 0 exact_one) (Stream_exact_handle 0 exact_one))
    3 (Stream_binary_init true, tt)
  = Raise ValueError.
Proof. reflexivity. Qed.

Lemma Stream_getitem_total_witness :
  exists v st' s',
    getitem_default 0 Stream_lazy_approximate_order
      (fun n (s : unit) => Ok (n * n, s)) (-1)
      (Stream_function_init false 0 false, tt) = Ok (v, (st', s'))
    /\ (forall a, _approximate_order st' = Some a -> ext_gt a (-1) -> v = 0).
Proof.
  destruct (Stream_getitem_total 0 Stream_lazy_approximate_order
              (fun n (s : unit) => Ok (n * n, s))
              (function_sequence 0 (fun n => n * n) 0) (fun _ => True)
              (fun k => 0 <= k) (-1) (Stream_function_init false 0 false) tt
              (Stream_function_coefficient_ok 0 (fun n => n * n) 0))
    as [(v & st' & s' & Hg & _ & _ & Hz) _].
  - apply (Stream_function_init_inv 0 (fun n => n * n) false 0 false). discriminate.
  - exact I.
  - exists v, st', s'. split; assumption.
Defined.

(** ** Truncation: [Stream_truncated] *)

Section Truncated.
Context {R : Type} `{EqDecision R}.
Variable rO : R.
Context {St : Type}.

(** The stream that is truncated: a [Stream_inexact] node with the
    inherited [__getitem__]. *)
Variable lazy_approximate_order : St -> result (ext * St).
Variable get_coefficient : Z -> St -> result (R * St).

(** The attributes of a [Stream_truncated] of its own: [self._cache] is
    the very cache of [self._series], so it is read from the attributes of
    the series. *)
Record truncated : Type := mkTruncated {
  t_true_order : bool;
  t_approximate_order : Z;
  t_shift : Z
}.

(** [for val in l: if val: (found) break; ao += 1]. *)
Fixpoint dense_scan (l : list R) (ao : Z) : Z * bool :=
  match l with
  | [] => (ao, false)
  | val :: l' => if truthy rO val then (ao, true) else dense_scan l' (ao + 1)
  end.

(** The search for the true order in the shared cache, as [__init__] and
    [__getitem__] both run it when [self._true_order] is not set. *)
Definition truncated_scan (t : truncated) (q : inexact R (option Z) * St)
  : result (truncated * (inexact R (option Z) * St)) :=
  match _cache q.1 with
  | SparseCache d =>
      let ao := t_approximate_order t - t_shift t in
      let* (ao, found) := sparse_scan rO (Z.to_nat (max_key d ao - ao + 1)) d ao in
      Ok (mkTruncated (t_true_order t || found) (ao + t_shift t) (t_shift t), q)
  | DenseCache l =>
      let* (sa, q) := approximate_order_attr lazy_approximate_order q in
      match sa, _cache q.1 with
      | Fin sa, DenseCache l =>
          let offset := sa + t_shift t in
          let start := t_approximate_order t - offset in
          let '(ao, found) := dense_scan (py_slice_from l start) (t_approximate_order t) in
          Ok (mkTruncated (t_true_order t || found) ao (t_shift t), q)
      | _, _ => Raise TypeError
      end
  end.

(** [Stream_truncated.__init__]. *)
Definition Stream_truncated_init (shift minimal_valuation : Z)
    (q : inexact R (option Z) * St)
  : result (truncated * (inexact R (option Z) * St)) :=
  truncated_scan (mkTruncated false minimal_valuation shift) q.

(** [Stream_truncated.__getitem__]. *)
Definition Stream_truncated_getitem (n : Z)
    (p : truncated * (inexact R (option Z) * St))
  : result (R * (truncated * (inexact R (option Z) * St))) :=
  if n <? t_approximate_order p.1 then Ok (rO, p)
  else
    let* (ret, q) :=
      getitem_default rO lazy_approximate_order get_coefficient
        (n - t_shift p.1) p.2 in
    if negb (t_true_order p.1) then
      let* (t, q) := truncated_scan p.1 q in Ok (ret, (t, q))
    else Ok (ret, (p.1, q)).

(** [Stream_truncated.order] once [self._true_order] is set:
    [return self._approximate_order]. *)
Definition Stream_truncated_order_known (p : truncated * (inexact R (option Z) * St))
  : option Z :=
  if t_true_order p.1 then Some (t_approximate_order p.1) else None.

End Truncated.

Arguments mkTruncated _ _ _ : clear implicits.
Arguments t_true_order _ : clear implicits.
Arguments t_approximate_order _ : clear implicits.
Arguments t_shift _ : clear implicits.

(** *** The doctests of [Stream_truncated] *)

(** [1 if ZZ(n).is_power_of(2) else 0] on the indices the doctests use. *)
Definition power_of_2 (n : Z) : Z :=
  if bool_decide (n ∈ [1; 2; 4; 8; 16; 32; 64]) then 1 else 0.

(** [[s[n] for n in ns]] for a truncated stream, with its final
    attributes. *)
Fixpoint truncated_values {St : Type}
    (lazy_approximate_order : St -> result (ext * St))
    (get_coefficient : Z -> St -> result (Z * St))
    (ns : list Z) (p : truncated * (inexact Z (option Z) * St))
  : result (list Z * truncated) :=
  match ns with
  | [] => Ok ([], p.1)
  | n :: ns' =>
      let* (v, p) := Stream_truncated_getitem 0 lazy_approximate_order
                       get_coefficient n p in
      let* (vs, t) := truncated_values lazy_approximate_order get_coefficient ns' p in
      Ok (v :: vs, t)
  end.

Example Stream_truncated_doctest_sparse :
  (let* p := Stream_truncated_init 0 Stream_lazy_approximate_order (-5) 0
               (Stream_function_init true 0 false, tt) in
   truncated_values Stream_lazy_approximate_order
     (fun n s => Ok (power_of_2 n, s)) (seqZ 0 10) p)
  = Ok ([0; 0; 0; 1; 0; 0; 0; 0; 0; 0], mkTruncated true 3 (-5)).
Proof. vm_compute. reflexivity. Qed.

Example Stream_truncated_doctest_dense :
  (let* p := Stream_truncated_init 0 Stream_lazy_approximate_order (-5) 0
               (Stream_function_init false 0 false, tt) in
   truncated_values Stream_lazy_approximate_order
     (fun n s => Ok (power_of_2 n, s)) [10] p)
  = Ok ([0], mkTruncated true 3 (-5)).
Proof. vm_compute. reflexivity. Qed.

(** *** The order a dense truncated stream reports *)

(** [f(n) = 1 if n >= 3 else 0], as a dense function stream with
    approximate order [0], shifted by [-1] and truncated at valuation [0]:
    the coefficients of the result are [0, 0, 1, 1, ...], so its order is
    [2]. *)
Definition step_at_3 (n : Z) : Z := if 3 <=? n then 1 else 0.

(** C4 at the failing input. After [s[5]] the truncated stream has
    [_true_order] set with [_approximate_order = 0], [order()] answers [0],
    and yet [s[0] = s[1] = 0] and [s[2] = 1]: the slice
    [self._cache[start:]] was taken with a negative [start], which counts
    from the end of the cache. *)
Theorem Stream_truncated_order_at_failing_input :
  exists p0 p1,
    Stream_truncated_init 0 Stream_lazy_approximate_order (-1) 0
      (Stream_function_init false 0 false, tt) = Ok p0
    /\ p0.1 = mkTruncated false 0 (-1)
    /\ Stream_truncated_getitem 0 Stream_lazy_approximate_order
         (fun n s => Ok (step_at_3 n, s)) 5 p0 = Ok (1, p1)
    /\ p1.1 = mkTruncated true 0 (-1)
    /\ Stream_truncated_order_known p1 = Some 0
    /\ truncated_values Stream_lazy_approximate_order
         (fun n s => Ok (step_at_3 n, s)) [0; 1; 2] p1
       = Ok ([0; 0; 1], mkTruncated true 0 (-1)).
Proof.
  eexists _, _. split; [vm_compute; reflexivity|].
  split; [reflexivity|]. split; [vm_compute; reflexivity|].
  split; [reflexivity|]. split; [reflexivity|]. vm_compute. reflexivity.
Qed.

(** ** Equality and hash of function streams *)

Module FunctionEq.

(** The classes of the module. *)
Inductive cls : Type :=
| C_Stream | C_Stream_inexact | C_Stream_exact | C_Stream_iterator
| C_Stream_function | C_Stream_uninitialized | C_Stream_unary | C_Stream_binary
| C_Stream_binaryCommutative | C_Stream_zero | C_Stream_add | C_Stream_sub
| C_Stream_cauchy_mul | C_Stream_cauchy_mul_commutative
| C_Stream_dirichlet_convolve | C_Stream_cauchy_compose | C_Stream_plethysm
| C_Stream_scalar | C_Stream_rmul | C_Stream_lmul | C_Stream_neg
| C_Stream_cauchy_invert | C_Stream_dirichlet_invert | C_Stream_map_coefficients
| C_Stream_shift | C_Stream_truncated | C_Stream_derivative
| C_Stream_infinite_operator | C_Stream_infinite_sum | C_Stream_infinite_product.

#[export] Instance cls_eq_dec : EqDecision cls.
Proof. solve_decision. Defined.

(** The base classes named in each [class] statement. *)
Definition bases (c : cls) : list cls :=
  match c with
  | C_Stream => []
  | C_Stream_inexact | C_Stream_exact | C_Stream_zero | C_Stream_shift
  | C_Stream_infinite_operator => [C_Stream]
  | C_Stream_iterator | C_Stream_function | C_Stream_uninitialized
  | C_Stream_unary | C_Stream_binary => [C_Stream_inexact]
  | C_Stream_binaryCommutative | C_Stream_sub | C_Stream_cauchy_mul
  | C_Stream_dirichlet_convolve | C_Stream_cauchy_compose | C_Stream_plethysm =>
      [C_Stream_binary]
  | C_Stream_add => [C_Stream_binaryCommutative]
  | C_Stream_cauchy_mul_commutative => [C_Stream_cauchy_mul; C_Stream_binaryCommutative]
  | C_Stream_scalar | C_Stream_neg | C_Stream_cauchy_invert
  | C_Stream_dirichlet_invert | C_Stream_map_coefficients | C_Stream_truncated
  | C_Stream_derivative => [C_Stream_unary]
  | C_Stream_rmul | C_Stream_lmul => [C_Stream_scalar]
  | C_Stream_infinite_sum | C_Stream_infinite_product => [C_Stream_infinite_operator]
  end.

(** [issubclass(c, d)]; the hierarchy is five levels deep. *)
Fixpoint issubclass_fuel (fuel : nat) (c d : cls) : bool :=
  bool_decide (c = d)
  || match fuel with
     | O => false
     | S fuel' => existsb (fun b => issubclass_fuel fuel' b d) (bases c)
     end.

Definition issubclass : cls -> cls -> bool := issubclass_fuel 5.

Section Objects.
Variable R : Type.

(** What [==] looks at in a callable object. A function or a lambda has
    no [__eq__] of its own, so [==] is identity. A bound method [obj.m] is
    a new object at every attribute access, and its [__eq__] compares
    [__self__] (by identity) and [__func__]. An instance of a class that
    defines [__call__] and [__eq__] answers by its own method: [eq_at a] is
    the truth value of [==] between it and the object at the address
    [a]. *)
Inductive callable_kind : Type :=
| Plain_function
| Bound_method (self_id func_id : nat)
| Callable_instance (eq_at : nat -> bool).

(** A Python callable: its address, what [==] looks at, and what it
    computes. *)
Record py_function : Type := mkFunction {
  fn_id : nat;
  fn_kind : callable_kind;
  fn_call : Z -> R
}.

(** [f == g] on callables: the [__eq__] of [f]; when that is the default
    one or that of a method against something else, the reflected
    [__eq__] of [g]; identity when neither answers. *)
Definition function_eq (f g : py_function) : bool :=
  match fn_kind f, fn_kind g with
  | Callable_instance eq_at, _ => eq_at (fn_id g)
  | _, Callable_instance eq_at => eq_at (fn_id f)
  | Bound_method s m, Bound_method s' m' =>
      bool_decide (s = s') && bool_decide (m = m')
  | _, _ => bool_decide (fn_id f = fn_id g)
  end.

(** An instance of [Stream_function], with what [__init__] stores. *)
Record Stream_function_object : Type := mkStreamFunction {
  sf_get_coefficient : py_function;
  sf_is_sparse : bool;
  sf_approximate_order : Z;
  sf_true_order : bool
}.

(** A stream object: an instance of [Stream_function], or an instance of
    one of the other classes. *)
Inductive stream_object : Type :=
| Function_object (o : Stream_function_object)
| Other_object (c : cls).

Definition type_of (x : stream_object) : cls :=
  match x with
  | Function_object _ => C_Stream_function
  | Other_object c => c
  end.

(** No object of another class claims to be a [Stream_function]. *)
Definition well_typed (x : stream_object) : Prop :=
  match x with
  | Function_object _ => True
  | Other_object c => c <> C_Stream_function
  end.

Definition isinstance (x : stream_object) (c : cls) : bool :=
  issubclass (type_of x) c.

(** [Stream_function.__eq__]:
    [isinstance(other, type(self)) and
     self.get_coefficient == other.get_coefficient]. *)
Definition Stream_function_eq (self : Stream_function_object) (other : stream_object)
  : bool :=
  isinstance other (type_of (Function_object self))
  && match other with
     | Function_object o =>
         function_eq (sf_get_coefficient self) (sf_get_coefficient o)
     | Other_object _ => false
     end.

(** [hash] of a class object: classes are distinct objects with distinct
    hashes. *)
Definition class_hash (c : cls) : nat :=
  match c with
  | C_Stream => 0 | C_Stream_inexact => 1 | C_Stream_exact => 2
  | C_Stream_iterator => 3 | C_Stream_function => 4 | C_Stream_uninitialized => 5
  | C_Stream_unary => 6 | C_Stream_binary => 7 | C_Stream_binaryCommutative => 8
  | C_Stream_zero => 9 | C_Stream_add => 10 | C_Stream_sub => 11
  | C_Stream_cauchy_mul => 12 | C_Stream_cauchy_mul_commutative => 13
  | C_Stream_dirichlet_convolve => 14 | C_Stream_cauchy_compose => 15
  | C_Stream_plethysm => 16 | C_Stream_scalar => 17 | C_Stream_rmul => 18
  | C_Stream_lmul => 19 | C_Stream_neg => 20 | C_Stream_cauchy_invert => 21
  | C_Stream_dirichlet_invert => 22 | C_Stream_map_coefficients => 23
  | C_Stream_shift => 24 | C_Stream_truncated => 25 | C_Stream_derivative => 26
  | C_Stream_infinite_operator => 27 | C_Stream_infinite_sum => 28
  | C_Stream_infinite_product => 29
  end%nat.

(** [Stream_function.__hash__]: [hash(type(self))]. *)
Definition Stream_function_hash (self : Stream_function_object) : nat :=
  class_hash (type_of (Function_object self)).

Lemma issubclass_Stream_function (c : cls) :
  issubclass c C_Stream_function = true <-> c = C_Stream_function.
Proof. split; [|intros ->; reflexivity]. destruct c; (reflexivity || discriminate). Qed.

(** C9 (as the code has it). [f == other] holds exactly when [other] is an
    instance of [Stream_function] and the two stored callables compare
    equal under [==]. For functions and lambdas that is identity of the
    object, so streams built from distinct function objects are unequal
    even when the functions agree everywhere; for bound methods it is
    being bound to the same object and function, whichever method objects
    are stored. The sparsity flag, the approximate order and the true-order
    flag play no part; [hash] is the hash of the class whatever the
    instance holds, the same for all function streams, so equal streams
    have equal hashes. *)
Theorem Stream_function_eq_hash (self : Stream_function_object) :
  (forall other, well_typed other ->
     (Stream_function_eq self other = true
      <-> exists o, other = Function_object o
                    /\ function_eq (sf_get_coefficient self) (sf_get_coefficient o)
                       = true))
  /\ (forall o,
        fn_kind (sf_get_coefficient self) = Plain_function ->
        fn_kind (sf_get_coefficient o) = Plain_function ->
        (Stream_function_eq self (Function_object o) = true
         <-> fn_id (sf_get_coefficient self) = fn_id (sf_get_coefficient o))
        /\ (fn_id (sf_get_coefficient self) <> fn_id (sf_get_coefficient o) ->
            (forall n, fn_call (sf_get_coefficient self) n
                       = fn_call (sf_get_coefficient o) n) ->
            Stream_function_eq self (Function_object o) = false))
  /\ (forall o s m s' m',
        fn_kind (sf_get_coefficient self) = Bound_method s m ->
        fn_kind (sf_get_coefficient o) = Bound_method s' m' ->
        (Stream_function_eq self (Function_object o) = true <-> s = s' /\ m = m'))
  /\ (forall o sp ao to sp' ao' to',
        Stream_function_eq (mkStreamFunction (sf_get_coefficient self) sp ao to)
          (Function_object (mkStreamFunction (sf_get_coefficient o) sp' ao' to'))
        = Stream_function_eq self (Function_object o))
  /\ (forall f sp ao to,
        Stream_function_hash (mkStreamFunction f sp ao to) = class_hash C_Stream_function)
  /\ (forall o, Stream_function_eq self (Function_object o) = true ->
        Stream_function_hash self = Stream_function_hash o).
Proof.
  split; [|split; [|split; [|split; [|split]]]].
  - intros other Hwt. unfold Stream_function_eq, isinstance. simpl.
    rewrite andb_true_iff, issubclass_Stream_function. destruct other as [o|c]; simpl.
    + split.
      * intros [_ Heq]. eauto.
      * intros (o' & [= <-] & Heq). tauto.
    + split; [intros [_ Hf]; discriminate|intros (o & Ho & _); discriminate].
  - intros o Hs Ho. unfold Stream_function_eq, function_eq. simpl.
    rewrite Hs, Ho. split.
    + apply bool_decide_eq_true.
    + intros Hid _. now apply bool_decide_eq_false_2.
  - intros o s m s' m' Hs Ho. unfold Stream_function_eq, function_eq. simpl.
    rewrite Hs, Ho. rewrite andb_true_iff, !bool_decide_eq_true. reflexivity.
  - reflexivity.
  - reflexivity.
  - reflexivity.
Qed.

End Objects.

(** The doctest of [__eq__]: [f] and [g] share the function [fun], [h] is
    built from another [lambda n: n]. *)
Example Stream_function_eq_doctest :
  let fun_ := mkFunction Z 1 (Plain_function) (fun n => n) in
  let f := mkStreamFunction Z fun_ true 0 false in
  let g := mkStreamFunction Z fun_ false 0 false in
  let h := mkStreamFunction Z (mkFunction Z 2 (Plain_function) (fun n => n)) false 0 false in
  Stream_function_eq Z f (Function_object Z g) = true
  /\ Stream_function_eq Z f (Function_object Z h) = false
  /\ Stream_function_hash Z f = Stream_function_hash Z h.
Proof. repeat split. Qed.

(** Equality does not need the identical callable: with [a.m] a method of
    the object [a], [Stream_function(a.m, True, 0)] and
    [Stream_function(a.m, True, 0)] hold two distinct method objects (each
    [a.m] creates one) and compare equal. *)
Lemma Stream_function_eq_counterexample :
  let m1 := mkFunction Z 1 (Bound_method 7 3) (fun n => n) in
  let m2 := mkFunction Z 2 (Bound_method 7 3) (fun n => n) in
  fn_id Z m1 <> fn_id Z m2
  /\ Stream_function_eq Z (mkStreamFunction Z m1 true 0 false)
       (Function_object Z (mkStreamFunction Z m2 true 0 false)) = true.
Proof. split; [discriminate|reflexivity]. Qed.

End FunctionEq.

(** ** Placeholders: [Stream_uninitialized.is_uninitialized] *)

Module Uninitialized.

(** A stream object as [is_uninitialized] sees it. Objects live in a
    heap and refer to each other by address. *)
Inductive node : Type :=
| Stream_uninitialized (_target : option nat) (_initializing : bool)
| Stream_unary (_series : nat)
| Stream_binary (_left _right : nat)
| Stream_other.

Abbreviation heap := (list node).

(** [Stream_uninitialized.__init__]. *)
Definition Stream_uninitialized_init : node := Stream_uninitialized None false.

(** [self._initializing = b] for the object at [a]. *)
Definition set_initializing (b : bool) (a : nat) (h : heap) : heap :=
  match h !! a with
  | Some (Stream_uninitialized t _) => <[a := Stream_uninitialized t b]> h
  | _ => h
  end.

(** [is_uninitialized] of the object at address [a]: the method of
    [Stream_uninitialized], of [Stream_unary] and [Stream_shift], of
    [Stream_binary], and the default of [Stream]. [fuel] bounds the depth of
    the calls. *)
Fixpoint is_uninitialized (fuel : nat) (h : heap) (a : nat) : result (bool * heap) :=
  match fuel with
  | O => Diverge
  | S fuel' =>
      match h !! a with
      | None => Raise TypeError
      | Some Stream_other => Ok (false, h)
      | Some (Stream_unary c) => is_uninitialized fuel' h c
      | Some (Stream_binary l r) =>
          let* (b, h) := is_uninitialized fuel' h l in
          if b then Ok (true, h) else is_uninitialized fuel' h r
      | Some (Stream_uninitialized None _) => Ok (true, h)
      | Some (Stream_uninitialized (Some t) true) => Ok (false, h)
      | Some (Stream_uninitialized (Some t) false) =>
          let h := set_initializing true a h in
          let* (result, h) := is_uninitialized fuel' h t in
          Ok (result, set_initializing false a h)
      end
  end.

(** Operators are built from streams that exist already; only the target
    of a placeholder is bound later, to any object of the heap. *)
Definition well_formed (h : heap) : Prop :=
  forall a x, h !! a = Some x ->
    match x with
    | Stream_uninitialized (Some t) _ => (t < length h)%nat
    | Stream_uninitialized None _ => True
    | Stream_unary c => (c < a)%nat
    | Stream_binary l r => (l < a)%nat /\ (r < a)%nat
    | Stream_other => True
    end.

(** The placeholders with a target whose check is not in progress. *)
Definition pending (x : node) : bool :=
  match x with
  | Stream_uninitialized (Some _) false => true
  | _ => false
  end.

Definition count_pending (h : heap) : nat :=
  length (filter (fun x => pending x = true) h).

Lemma count_pending_app (h1 h2 : heap) :
  count_pending (h1 ++ h2) = (count_pending h1 + count_pending h2)%nat.
Proof. unfold count_pending. now rewrite filter_app, length_app. Qed.

Lemma count_pending_insert (h : heap) (a : nat) (x y : node) :
  h !! a = Some x -> pending x = true -> pending y = false ->
  S (count_pending (<[a := y]> h)) = count_pending h.
Proof.
  intros Ha Hx Hy. rewrite insert_take_drop by (now apply lookup_lt_Some in Ha).
  rewrite <- (take_drop_middle h a x Ha) at 3.
  rewrite !count_pending_app. unfold count_pending at 2 4.
  rewrite (filter_cons_False _ y) by (rewrite Hy; discriminate).
  rewrite (filter_cons_True _ x) by exact Hx. simpl. lia.
Qed.

Lemma well_formed_insert (h : heap) (a t : nat) (b b' : bool) :
  well_formed h -> h !! a = Some (Stream_uninitialized (Some t) b) ->
  well_formed (<[a := Stream_uninitialized (Some t) b']> h).
Proof.
  intros Hwf Ha a' x Hx. rewrite length_insert.
  apply list_lookup_insert_Some in Hx as [(-> & <- & Hlt)|[Hne Hx]].
  - apply (Hwf a' _ Ha).
  - apply (Hwf a' x Hx).
Qed.

(** The check returns, with the flags as they were. *)
Lemma is_uninitialized_returns :
  forall (u : nat) (h : heap),
  well_formed h -> count_pending h = u ->
  forall a, (a < length h)%nat ->
  exists fuel0, forall fuel, (fuel0 <= fuel)%nat ->
    exists b, is_uninitialized fuel h a = Ok (b, h).
Proof.
  induction u as [u IHu] using lt_wf_ind. intros h Hwf Hu.
  induction a as [a IHa] using lt_wf_ind. intros Ha.
  destruct (lookup_lt_is_Some_2 h a Ha) as [x Hx]. pose proof (Hwf a x Hx) as Hwfx.
  destruct x as [[t|] [|]|c|l r|].
  - exists 1%nat. intros [|fuel] Hf; [lia|]. simpl. rewrite Hx. eauto.
  - assert (Hx1 : set_initializing true a h = <[a := Stream_uninitialized (Some t) true]> h)
      by (unfold set_initializing; now rewrite Hx).
    destruct (IHu (count_pending (<[a := Stream_uninitialized (Some t) true]> h)))
      with (h := <[a := Stream_uninitialized (Some t) true]> h) (a := t)
      as [fuel0 Hfuel0].
    + rewrite <- Hu. rewrite <- (count_pending_insert h a _ (Stream_uninitialized (Some t) true)
                           Hx eq_refl eq_refl). lia.
    + now apply well_formed_insert with false.
    + reflexivity.
    + now rewrite length_insert.
    + exists (S fuel0). intros [|fuel] Hf; [lia|]. simpl. rewrite Hx, Hx1.
      destruct (Hfuel0 fuel ltac:(lia)) as [b Hb]. rewrite Hb. simpl.
      exists b. do 2 f_equal. unfold set_initializing.
      rewrite list_lookup_insert_eq by assumption.
      rewrite list_insert_insert_eq. now apply list_insert_id.
  - exists 1%nat. intros [|fuel] Hf; [lia|]. simpl. rewrite Hx. eauto.
  - exists 1%nat. intros [|fuel] Hf; [lia|]. simpl. rewrite Hx. eauto.
  - destruct (IHa c Hwfx ltac:(lia)) as [fuel0 Hfuel0].
    exists (S fuel0). intros [|fuel] Hf; [lia|]. simpl. rewrite Hx.
    apply Hfuel0. lia.
  - destruct Hwfx as [Hl Hr].
    destruct (IHa l Hl ltac:(lia)) as [fl Hfl].
    destruct (IHa r Hr ltac:(lia)) as [fr Hfr].
    exists (S (Nat.max fl fr)). intros [|fuel] Hf; [lia|]. simpl. rewrite Hx.
    destruct (Hfl fuel ltac:(lia)) as [bl Hbl]. rewrite Hbl. simpl.
    destruct bl; [eauto|]. apply Hfr. lia.
  - exists 1%nat. intros [|fuel] Hf; [lia|]. simpl. rewrite Hx. eauto.
Qed.

(** C10. In a well-formed heap, [is_uninitialized] of any placeholder
    returns (for every large enough bound on the call depth) and leaves all
    flags as they were; it returns [True] when no target is bound; and a
    call on a placeholder whose check is in progress returns [False]
    at once, which is what cuts the cycles between placeholders. *)
Theorem is_uninitialized_terminates (h : heap) (a : nat) (t : option nat) (i : bool) :
  well_formed h ->
  h !! a = Some (Stream_uninitialized t i) ->
  (exists fuel0, forall fuel, (fuel0 <= fuel)%nat ->
     exists b, is_uninitialized fuel h a = Ok (b, h))
  /\ (t = None -> forall fuel, is_uninitialized (S fuel) h a = Ok (true, h))
  /\ (t <> None -> i = true ->
      forall fuel, is_uninitialized (S fuel) h a = Ok (false, h))
  /\ is_uninitialized 1 [Stream_uninitialized_init] 0 = Ok (true, [Stream_uninitialized_init]).
Proof.
  intros Hwf Ha. split; [|split; [|split]].
  - apply (is_uninitialized_returns (count_pending h) h Hwf eq_refl).
    now apply lookup_lt_Some in Ha.
  - intros -> fuel. simpl. now rewrite Ha.
  - intros Ht -> fuel. simpl. rewrite Ha. destruct t; [reflexivity|congruence].
  - reflexivity.
Qed.

(** Two placeholders bound to each other: the check of either one
    returns [False] and restores the flags. *)
Definition coupled : heap :=
  [Stream_uninitialized (Some 1%nat) false; Stream_uninitialized (Some 0%nat) false].

Example is_uninitialized_coupled :
  is_uninitialized 3 coupled 0 = Ok (false, coupled).
Proof. reflexivity. Qed.

(** The doctest [T.define(z * exp(T) * D)] with [D] still undefined: the
    target of [T] is a product that mentions [T] and [D]. *)
Definition doctest_heap : heap :=
  [Stream_uninitialized (Some 3%nat) false;   (* T *)
   Stream_uninitialized None false;           (* D *)
   Stream_unary 0;                            (* exp(T) *)
   Stream_binary 2 1].                        (* exp(T) * D *)

Example is_uninitialized_doctest :
  is_uninitialized 5 doctest_heap 0 = Ok (true, doctest_heap).
Proof. reflexivity. Qed.

Lemma is_uninitialized_terminates_witness :
  exists fuel0, forall fuel, (fuel0 <= fuel)%nat ->
    exists b, is_uninitialized fuel coupled 0 = Ok (b, coupled).
Proof.
  apply (is_uninitialized_terminates coupled 0 (Some 1%nat) false).
  - intros a x Hx. destruct a as [|[|a]]; simpl in Hx; inversion Hx; simpl; lia.
  - reflexivity.
Defined.

End Uninitialized.

(** ** Cauchy product and Cauchy inverse *)

Section CauchyMul.
Context {R : Type} `{EqDecision R}.
Variables (rO : R) (radd rmul : R -> R -> R).
Context {St : Type}.
Variables left right : handle R St.

(** The lazy attribute [Stream_cauchy_mul._approximate_order]. *)
Definition Stream_cauchy_mul_approximate_order (s : St) : result (ext * St) :=
  let* (a, s) := h_approximate_order left s in
  let* (b, s) := h_approximate_order right s in
  Ok (ext_add a b, s).

(** [sum(l * self._right[n - k] for k in ks if (l := self._left[k]))]. *)
Fixpoint cauchy_terms (n : Z) (ks : list Z) (acc : R) (s : St) : result (R * St) :=
  match ks with
  | [] => Ok (acc, s)
  | k :: ks' =>
      let* (l, s) := h_getitem left k s in
      if truthy rO l then
        let* (r, s) := h_getitem right (n - k) s in
        cauchy_terms n ks' (radd acc (rmul l r)) s
      else cauchy_terms n ks' acc s
  end.

(** [Stream_cauchy_mul.get_coefficient]: the range is
    [range(self._left._approximate_order,
           n - self._right._approximate_order + 1)]. *)
Definition Stream_cauchy_mul_get_coefficient (n : Z) (s : St) : result (R * St) :=
  let* (a, s) := h_approximate_order left s in
  let* (b, s) := h_approximate_order right s in
  match a, b with
  | Fin a, Fin b => cauchy_terms n (seqZ a (n - b + 1 - a)) rO s
  | _, _ => Raise TypeError
  end.

Definition Stream_cauchy_mul : handle R (inexact R (option Z) * St) :=
  inexact_handle rO Stream_cauchy_mul_approximate_order
    Stream_cauchy_mul_get_coefficient.

(** The convolution of two sequences of orders [vL] and [vR]: the sum of
    [f k * g (n - k)] for [vL <= k <= n - vR]. *)
Definition convolution (f g : Z -> R) (vL vR : Z) (n : Z) : R :=
  fold_left radd (map (fun k => rmul (f k) (g (n - k))) (seqZ vL (n - vR + 1 - vL))) rO.

Definition cauchy_mul_inv (f g : Z -> R) (vL vR : Z) (Inv : St -> Prop)
    (st : inexact R (option Z)) : Prop :=
  node_inv rO Stream_cauchy_mul_approximate_order (convolution f g vL vR) Inv
    (fun _ => True) default_gen_ok st.

End CauchyMul.

Section CauchyInvert.
Context {R : Type} `{EqDecision R}.
Variables (rO : R) (radd rmul : R -> R -> R) (ropp : R -> R).

(** [~x], or [x.inverse_of_unit()]: the inverse in the ring, an error
    when there is none. *)
Variable rinv : R -> result R.
Context {St : Type}.
Variable series : handle R St.

(** The bound on the probes of [self._series.order()]. *)
Variable fuel : nat.

(** Where the generator [iterate_coefficients] is suspended: before its
    first step, at [yield self._ainv], or at the [yield] of the loop with
    the locals [v] and [n]. *)
Inductive invert_phase : Type :=
| NotStarted
| AtFirstYield
| InLoop (v n : Z).

(** The state of the generator together with the lazy attribute
    [_ainv]. *)
Record invert_iter : Type := mkInvertIter {
  _ainv : option R;
  phase : invert_phase
}.

(** The lazy attribute [Stream_cauchy_invert._approximate_order]:
    [-self._series.order()]. The order of the zero stream is [+Infinity];
    the inverse then fails at its first coefficient, which is modelled by
    failing here. *)
Definition Stream_cauchy_invert_approximate_order (s : St) : result (ext * St) :=
  let* (v, s) := h_order series fuel s in
  match v with
  | Fin v => Ok (Fin (- v), s)
  | PosInf => Raise ZeroDivisionError
  end.

(** Reading the lazy attribute [self._ainv]. *)
Definition ainv_attr (g : invert_iter) (s : St) : result (R * invert_iter * St) :=
  match _ainv g with
  | Some x => Ok (x, g, s)
  | None =>
      let* (v, s) := h_order series fuel s in
      match v with
      | Fin v =>
          let* (c, s) := h_getitem series v s in
          let* x := rinv c in
          Ok (x, mkInvertIter (Some x) (phase g), s)
      | PosInf => Raise ZeroDivisionError
      end
  end.

(** [for k in range(m): l = self._cache[k]; if l: c += l * self._series[n - v - k]],
    over the first [m] entries of the cache. *)
Fixpoint invert_terms (l : list R) (k n v : Z) (c : R) (s : St) : result (R * St) :=
  match l with
  | [] => Ok (c, s)
  | x :: l' =>
      if truthy rO x then
        let* (y, s) := h_getitem series (n - v - k) s in
        invert_terms l' (k + 1) n v (radd c (rmul x y)) s
      else invert_terms l' (k + 1) n v c s
  end.

(** One round of the loop of the generator, [n] already incremented.
    The second [for] calls [self[k]] while the generator is running; it
    runs only when the cache is shorter than [n], and then re-enters the
    running generator, which Python refuses with [ValueError]. *)
Definition invert_step (v n : Z) (st : inexact R invert_iter) (s : St)
  : result (R * invert_iter * St) :=
  match _cache st with
  | DenseCache cache =>
      let m := Z.min (Z.of_nat (length cache)) n in
      let* (c, s) := invert_terms (take (Z.to_nat m) cache) 0 n v rO s in
      if m <? n then Raise ValueError
      else
        let* (xg, s) := ainv_attr (_iter st) s in
        Ok (rmul (ropp c) xg.1, mkInvertIter (_ainv xg.2) (InLoop v n), s)
  | SparseCache _ => Raise TypeError
  end.

(** One [next] of [Stream_cauchy_invert.iterate_coefficients]. *)
Definition Stream_cauchy_invert_next (st : inexact R invert_iter) (s : St)
  : result (R * invert_iter * St) :=
  match phase (_iter st) with
  | NotStarted =>
      let* (xg, s) := ainv_attr (_iter st) s in
      Ok (xg.1, mkInvertIter (_ainv xg.2) AtFirstYield, s)
  | AtFirstYield =>
      match _approximate_order st with
      | Some (Fin v) => invert_step v 1 st s
      | _ => Raise TypeError
      end
  | InLoop v n => invert_step v (n + 1) st s
  end.

(** [Stream_cauchy_invert.__init__]: always dense. *)
Definition Stream_cauchy_invert_init (approximate_order : option Z)
  : inexact R invert_iter :=
  mkInexact false (Fin <$> approximate_order) (DenseCache [])
            (mkInvertIter None NotStarted).

Definition Stream_cauchy_invert_getitem :=
  Stream_inexact_getitem rO Stream_cauchy_invert_approximate_order
    (fun _ (_ : St) => Raise AttributeError) Stream_cauchy_invert_next.

Definition Stream_cauchy_invert : handle R (inexact R invert_iter * St) :=
  mkHandle Stream_cauchy_invert_getitem
           (approximate_order_attr Stream_cauchy_invert_approximate_order)
           (Stream_inexact_order rO Stream_cauchy_invert_approximate_order
              Stream_cauchy_invert_getitem).

(** The inverse as a sequence: for a series [g] of order [vg] whose
    leading coefficient has inverse [ainv], the coefficients from index
    [- vg] on are [ainv] and then the solutions of the convolution
    recurrence. *)
Variable gden : Z -> R.
Variable vg : Z.
Variable ainv : R.

Definition invert_next_coefficient (l : list R) (n : nat) : R :=
  match n with
  | O => ainv
  | S _ =>
      rmul (ropp (fold_left radd
                    (imap (fun k x => rmul x (gden (Z.of_nat n + vg - Z.of_nat k))) l) rO))
           ainv
  end.

Fixpoint inverse_prefix (j : nat) : list R :=
  match j with
  | O => []
  | S j' => inverse_prefix j' ++ [invert_next_coefficient (inverse_prefix j') j']
  end.

Definition inverse_coefficient (k : nat) : R :=
  invert_next_coefficient (inverse_prefix k) k.

Definition inverse_sequence (i : Z) : R :=
  if i <? - vg then rO else inverse_coefficient (Z.to_nat (i + vg)).

(** What the generator state must be for order [a] and a cache of
    length [len]. *)
Definition invert_gen_ok (a : Z) (len : nat) (g : invert_iter) : Prop :=
  a = - vg
  /\ match phase g with
     | NotStarted => len = O /\ (_ainv g = None \/ _ainv g = Some ainv)
     | AtFirstYield => len = 1%nat /\ _ainv g = Some ainv
     | InLoop v n => v = a /\ Z.of_nat len = n + 1 /\ 1 <= n /\ _ainv g = Some ainv
     end.

Definition invert_inv (Inv : St -> Prop) (st : inexact R invert_iter) : Prop :=
  _is_sparse st = false
  /\ node_inv rO Stream_cauchy_invert_approximate_order inverse_sequence Inv
       (fun _ => True) invert_gen_ok st.

End CauchyInvert.

Arguments NotStarted : clear implicits.
Arguments AtFirstYield : clear implicits.
Arguments InLoop _ _ : clear implicits.

(** The doctest of [Stream_cauchy_invert.iterate_coefficients] over the
    integers: [f(n) = n^2] from index 1; the inverse starts at index [-1]. *)
Definition unit_inverse (x : Z) : result Z :=
  if (x =? 1) || (x =? -1) then Ok x else Raise ZeroDivisionError.

Example Stream_cauchy_invert_doctest :
  values (Stream_cauchy_invert 0 Z.add Z.mul Z.opp unit_inverse
            (Stream_function 0 (fun n => n * n)) 5)
         (seqZ (-1) 10)
         (Stream_cauchy_invert_init None, (Stream_function_init false 1 false, tt))
  = Ok [1; -4; 7; -8; 8; -8; 8; -8; 8; -8].
Proof. vm_compute. reflexivity. Qed.

(** *** Sums in a ring *)

(** The laws of a ring; the multiplication is not assumed commutative, as
    the streams are also used over non-commutative rings. *)
Record ring_laws {R : Type} (rO rI : R) (radd rmul : R -> R -> R)
    (ropp : R -> R) : Prop := mkRingLaws {
  rl_add_0_l : forall x, radd rO x = x;
  rl_add_comm : forall x y, radd x y = radd y x;
  rl_add_assoc : forall x y z, radd x (radd y z) = radd (radd x y) z;
  rl_mul_1_l : forall x, rmul rI x = x;
  rl_mul_1_r : forall x, rmul x rI = x;
  rl_mul_assoc : forall x y z, rmul x (rmul y z) = rmul (rmul x y) z;
  rl_distr_l : forall x y z, rmul (radd x y) z = radd (rmul x z) (rmul y z);
  rl_distr_r : forall x y z, rmul x (radd y z) = radd (rmul x y) (rmul x z);
  rl_opp_def : forall x, radd x (ropp x) = rO
}.

(** A commutative ring is a ring. *)
Lemma ring_theory_laws {R : Type} (rO rI : R) (radd rmul rsub : R -> R -> R)
    (ropp : R -> R) :
  ring_theory rO rI radd rmul rsub ropp eq -> ring_laws rO rI radd rmul ropp.
Proof.
  intros Rth. constructor.
  - exact (Radd_0_l Rth).
  - exact (Radd_comm Rth).
  - exact (Radd_assoc Rth).
  - exact (Rmul_1_l Rth).
  - intros x. rewrite (Rmul_comm Rth). exact (Rmul_1_l Rth x).
  - exact (Rmul_assoc Rth).
  - exact (Rdistr_l Rth).
  - intros x y z. rewrite (Rmul_comm Rth x (radd y z)), (Rdistr_l Rth).
    now rewrite (Rmul_comm Rth y x), (Rmul_comm Rth z x).
  - exact (Ropp_def Rth).
Qed.

Section Sums.
Context {R : Type}.
Variables (rO rI : R) (radd rmul : R -> R -> R) (ropp : R -> R).
Hypothesis Rl : ring_laws rO rI radd rmul ropp.

Lemma rl_add_0_r (x : R) : radd x rO = x.
Proof. rewrite (rl_add_comm _ _ _ _ _ Rl). apply (rl_add_0_l _ _ _ _ _ Rl). Qed.

Lemma rl_add_cancel_l (x y z : R) : radd x y = radd x z -> y = z.
Proof.
  intros H.
  assert (Hx : forall w, radd (ropp x) (radd x w) = w).
  { intros w. rewrite (rl_add_assoc _ _ _ _ _ Rl).
    rewrite (rl_add_comm _ _ _ _ _ Rl (ropp x) x), (rl_opp_def _ _ _ _ _ Rl).
    apply (rl_add_0_l _ _ _ _ _ Rl). }
  rewrite <- (Hx y), <- (Hx z). now rewrite H.
Qed.

Lemma rl_add_cancel_r (x y z : R) : radd y x = radd z x -> y = z.
Proof.
  rewrite (rl_add_comm _ _ _ _ _ Rl y x), (rl_add_comm _ _ _ _ _ Rl z x).
  apply rl_add_cancel_l.
Qed.

Lemma rl_mul_0_l (x : R) : rmul rO x = rO.
Proof.
  apply (rl_add_cancel_l (rmul rO x)).
  rewrite <- (rl_distr_l _ _ _ _ _ Rl), (rl_add_0_l _ _ _ _ _ Rl).
  now rewrite rl_add_0_r.
Qed.

Lemma rl_mul_0_r (x : R) : rmul x rO = rO.
Proof.
  apply (rl_add_cancel_l (rmul x rO)).
  rewrite <- (rl_distr_r _ _ _ _ _ Rl), (rl_add_0_l _ _ _ _ _ Rl).
  now rewrite rl_add_0_r.
Qed.

Lemma rl_add_swap (a b c d : R) :
  radd (radd a b) (radd c d) = radd (radd a c) (radd b d).
Proof.
  rewrite <- (rl_add_assoc _ _ _ _ _ Rl a b (radd c d)).
  rewrite (rl_add_assoc _ _ _ _ _ Rl b c d).
  rewrite (rl_add_comm _ _ _ _ _ Rl b c).
  rewrite <- (rl_add_assoc _ _ _ _ _ Rl c b d).
  now rewrite (rl_add_assoc _ _ _ _ _ Rl a c (radd b d)).
Qed.

Lemma fold_left_radd_acc (l : list R) (acc : R) :
  fold_left radd l acc = radd acc (fold_left radd l rO).
Proof.
  revert acc. induction l as [|x l IH]; intros acc; simpl;
    [now rewrite rl_add_0_r|].
  rewrite (IH (radd acc x)), (IH (radd rO x)).
  now rewrite (rl_add_0_l _ _ _ _ _ Rl), (rl_add_assoc _ _ _ _ _ Rl).
Qed.

Lemma fold_left_radd_app (l1 l2 : list R) :
  fold_left radd (l1 ++ l2) rO
  = radd (fold_left radd l1 rO) (fold_left radd l2 rO).
Proof. rewrite fold_left_app. apply fold_left_radd_acc. Qed.

Lemma fold_left_radd_zero (l : list R) :
  Forall (fun x => x = rO) l -> fold_left radd l rO = rO.
Proof.
  induction 1 as [|x l Hx _ IH]; simpl; [reflexivity|].
  subst x. rewrite (rl_add_0_l _ _ _ _ _ Rl). exact IH.
Qed.

(** A sum over an interval loses nothing when the terms below [lo'] are
    dropped, if they vanish. *)
Lemma sum_skip_low (t : Z -> R) (lo lo' len : Z) :
  lo <= lo' -> (forall k, k < lo' -> t k = rO) ->
  fold_left radd (map t (seqZ lo len)) rO
  = fold_left radd (map t (seqZ lo' (lo + len - lo'))) rO.
Proof.
  intros Hlo Hz. destruct (Z.le_gt_cases lo' (lo + len)) as [Hin|Hout].
  - replace len with ((lo' - lo) + (lo + len - lo')) at 1 by lia.
    rewrite seqZ_app by lia. rewrite map_app, fold_left_radd_app.
    rewrite fold_left_radd_zero.
    + replace (lo + (lo' - lo)) with lo' by lia.
      apply (rl_add_0_l _ _ _ _ _ Rl).
    + apply Forall_forall. intros x Hx.
      apply list_elem_of_fmap in Hx as (k & -> & Hk).
      apply elem_of_seqZ in Hk. apply Hz. lia.
  - rewrite (seqZ_nil lo') by lia. simpl. apply fold_left_radd_zero.
    apply Forall_forall. intros x Hx.
    apply list_elem_of_fmap in Hx as (k & -> & Hk).
    apply elem_of_seqZ in Hk. apply Hz. lia.
Qed.

(** The same for the terms above [hi]. *)
Lemma sum_skip_high (t : Z -> R) (lo len len' : Z) :
  len' <= len -> (forall k, lo + len' <= k -> t k = rO) ->
  fold_left radd (map t (seqZ lo len)) rO
  = fold_left radd (map t (seqZ lo len')) rO.
Proof.
  intros Hlen Hz. destruct (Z.le_gt_cases 0 len') as [Hpos|Hneg].
  - replace len with (len' + (len - len')) by lia.
    rewrite seqZ_app by lia. rewrite map_app, fold_left_radd_app.
    rewrite (fold_left_radd_zero (map t (seqZ (lo + len') (len - len'))));
      [apply rl_add_0_r|].
    apply Forall_forall. intros x Hx.
    apply list_elem_of_fmap in Hx as (k & -> & Hk).
    apply elem_of_seqZ in Hk. apply Hz. lia.
  - rewrite (seqZ_nil lo len') by lia. simpl. apply fold_left_radd_zero.
    apply Forall_forall. intros x Hx.
    apply list_elem_of_fmap in Hx as (k & -> & Hk).
    apply elem_of_seqZ in Hk. apply Hz. lia.
Qed.

(** Sums over [0 .. m - 1]. *)
Definition sum_upto (m : nat) (t : nat -> R) : R :=
  fold_left radd (map t (seq 0 m)) rO.

Lemma sum_upto_S (m : nat) (t : nat -> R) :
  sum_upto (S m) t = radd (sum_upto m t) (t m).
Proof.
  unfold sum_upto. rewrite seq_S, map_app, fold_left_radd_app. simpl.
  now rewrite (rl_add_0_l _ _ _ _ _ Rl).
Qed.

Lemma sum_upto_shift (m : nat) (t : nat -> R) :
  sum_upto (S m) t = radd (t O) (sum_upto m (fun j => t (S j))).
Proof.
  unfold sum_upto. simpl. rewrite fold_left_radd_acc.
  rewrite <- seq_shift, map_map. now rewrite (rl_add_0_l _ _ _ _ _ Rl).
Qed.

Lemma sum_upto_ext (m : nat) (t t' : nat -> R) :
  (forall j, (j < m)%nat -> t j = t' j) -> sum_upto m t = sum_upto m t'.
Proof.
  intros Ht. unfold sum_upto. f_equal. apply map_ext_in. intros j Hj.
  apply in_seq in Hj. apply Ht. lia.
Qed.

Lemma sum_upto_zero (m : nat) (t : nat -> R) :
  (forall j, (j < m)%nat -> t j = rO) -> sum_upto m t = rO.
Proof.
  intros Ht. unfold sum_upto. apply fold_left_radd_zero.
  apply Forall_forall. intros x Hx.
  apply list_elem_of_fmap in Hx as (j & -> & Hj).
  apply elem_of_seq in Hj. apply Ht. lia.
Qed.

Lemma sum_upto_add (m : nat) (t t' : nat -> R) :
  sum_upto m (fun j => radd (t j) (t' j)) = radd (sum_upto m t) (sum_upto m t').
Proof.
  induction m as [|m IH]; [symmetry; apply (rl_add_0_l _ _ _ _ _ Rl)|].
  rewrite !sum_upto_S, IH. apply rl_add_swap.
Qed.

Lemma sum_upto_mul_l (m : nat) (c : R) (t : nat -> R) :
  sum_upto m (fun j => rmul c (t j)) = rmul c (sum_upto m t).
Proof.
  induction m as [|m IH]; [symmetry; apply rl_mul_0_r|].
  now rewrite !sum_upto_S, IH, (rl_distr_r _ _ _ _ _ Rl).
Qed.

Lemma sum_upto_mul_r (m : nat) (c : R) (t : nat -> R) :
  sum_upto m (fun j => rmul (t j) c) = rmul (sum_upto m t) c.
Proof.
  induction m as [|m IH]; [symmetry; apply rl_mul_0_l|].
  now rewrite !sum_upto_S, IH, (rl_distr_l _ _ _ _ _ Rl).
Qed.

(** A sum over the pairs [(i, j)] with [i + j <= n], by rows and by
    anti-diagonals. *)
Lemma sum_triangle (n : nat) (F : nat -> nat -> R) :
  sum_upto (S n) (fun i => sum_upto (S (n - i)) (fun j => F i j))
  = sum_upto (S n) (fun m => sum_upto (S m) (fun i => F i (m - i)%nat)).
Proof.
  induction n as [|n IH]; [reflexivity|].
  rewrite (sum_upto_S (S n) (fun m => sum_upto (S m) (fun i => F i (m - i)%nat))).
  rewrite <- IH.
  rewrite (sum_upto_S (S n)).
  rewrite (sum_upto_ext (S n)
             (fun i => sum_upto (S (S n - i)) (fun j => F i j))
             (fun i => radd (sum_upto (S (n - i)) (fun j => F i j))
                            (F i (S n - i)%nat))).
  - rewrite sum_upto_add.
    rewrite <- (rl_add_assoc _ _ _ _ _ Rl). f_equal.
    rewrite (sum_upto_S (S n) (fun i => F i (S n - i)%nat)). f_equal.
    replace (S (S n - S n)) with 1%nat by lia.
    unfold sum_upto. simpl. rewrite (rl_add_0_l _ _ _ _ _ Rl).
    f_equal. lia.
  - intros i Hi. replace (S (S n - i)) with (S (S (n - i))) by lia.
    rewrite sum_upto_S. do 2 f_equal. lia.
Qed.

End Sums.

Section CauchyMulFacts.
Context {R : Type} `{EqDecision R}.
Variables (rO rI : R) (radd rmul : R -> R -> R) (ropp : R -> R).
Hypothesis Rl : ring_laws rO rI radd rmul ropp.
Context {St : Type}.
Variables left right : handle R St.
Variables denL denR : Z -> R.
Variable Inv : St -> Prop.
Variables vL vR : Z.
Hypothesis HL : lawful rO left denL Inv.
Hypothesis HR : lawful rO right denR Inv.
Hypothesis HvL : denL vL <> rO.
Hypothesis HvR : denR vR <> rO.
Hypothesis HzL : forall k, k < vL -> denL k = rO.
Hypothesis HzR : forall k, k < vR -> denR k = rO.

Lemma bound_finite (a : ext) (f : Z -> R) (v : Z) :
  below rO a f -> f v <> rO -> exists z, a = Fin z /\ z <= v.
Proof.
  intros Hb Hv. destruct a as [z|]; [|exfalso; apply Hv, Hb; exact I].
  exists z. split; [reflexivity|]. destruct (Z.le_gt_cases z v); [assumption|].
  exfalso. apply Hv, Hb. simpl. lia.
Qed.

Lemma cauchy_terms_correct (n : Z) (ks : list Z) :
  forall (acc : R) (s : St), Inv s ->
  exists s',
    cauchy_terms rO radd rmul left right n ks acc s
    = Ok (fold_left radd (map (fun k => rmul (denL k) (denR (n - k))) ks) acc, s')
    /\ Inv s'.
Proof.
  induction ks as [|k ks IH]; intros acc s Hs; simpl; [eauto|].
  destruct (law_getitem _ _ _ _ HL k s Hs) as (s1 & Hl & Hs1).
  rewrite Hl. simpl. destruct (truthy rO (denL k)) eqn:Ht.
  - destruct (law_getitem _ _ _ _ HR (n - k) s1 Hs1) as (s2 & Hr & Hs2).
    rewrite Hr. simpl. now apply IH.
  - apply (truthy_false rO) in Ht. rewrite Ht.
    rewrite (rl_mul_0_l rO rI radd rmul ropp Rl), (rl_add_0_r rO rI radd rmul ropp Rl).
    now apply IH.
Qed.

Lemma Stream_cauchy_mul_coefficient_ok :
  coefficient_ok (Stream_cauchy_mul_get_coefficient rO radd rmul left right)
    (convolution rO radd rmul denL denR vL vR) Inv (fun _ => True).
Proof.
  intros n s Hs _. unfold Stream_cauchy_mul_get_coefficient.
  destruct (law_approximate_order _ _ _ _ HL s Hs) as (a & s1 & Ha & Hs1 & Hba).
  destruct (law_approximate_order _ _ _ _ HR s1 Hs1) as (b & s2 & Hb & Hs2 & Hbb).
  rewrite Ha. simpl. rewrite Hb. simpl.
  destruct (bound_finite a denL vL Hba HvL) as (za & -> & Hza).
  destruct (bound_finite b denR vR Hbb HvR) as (zb & -> & Hzb).
  destruct (cauchy_terms_correct n (seqZ za (n - zb + 1 - za)) rO s2 Hs2)
    as (s3 & Hc & Hs3).
  rewrite Hc. exists s3. split; [|assumption]. do 2 f_equal. unfold convolution.
  rewrite (sum_skip_low rO rI radd rmul ropp Rl _ za vL) by
    (assumption
     || (intros k Hk; rewrite (HzL k Hk); apply (rl_mul_0_l rO rI radd rmul ropp Rl))).
  apply (sum_skip_high rO rI radd rmul ropp Rl); [lia|].
  intros k Hk. rewrite (HzR (n - k)) by lia.
  apply (rl_mul_0_r rO rI radd rmul ropp Rl).
Qed.

Lemma convolution_below (a b : Z) (k : Z) :
  a <= vL -> b <= vR -> k < a + b ->
  convolution rO radd rmul denL denR vL vR k = rO.
Proof.
  intros Ha Hb Hk. unfold convolution. rewrite seqZ_nil by lia. reflexivity.
Qed.

Lemma Stream_cauchy_mul_lazy_ok :
  lazy_ok rO (Stream_cauchy_mul_approximate_order left right)
    (convolution rO radd rmul denL denR vL vR) Inv (fun _ => True).
Proof.
  intros s Hs. unfold Stream_cauchy_mul_approximate_order.
  destruct (law_approximate_order _ _ _ _ HL s Hs) as (a & s1 & Ha & Hs1 & Hba).
  destruct (law_approximate_order _ _ _ _ HR s1 Hs1) as (b & s2 & Hb & Hs2 & Hbb).
  rewrite Ha. simpl. rewrite Hb. simpl.
  destruct (bound_finite a denL vL Hba HvL) as (za & -> & Hza).
  destruct (bound_finite b denR vR Hbb HvR) as (zb & -> & Hzb).
  exists (Fin (za + zb)), s2. split; [reflexivity|]. split; [assumption|].
  split; [|trivial]. intros k Hk. simpl in Hk.
  now apply (convolution_below za zb).
Qed.

Lemma Stream_cauchy_mul_lawful :
  lawful rO (Stream_cauchy_mul rO radd rmul left right)
    (convolution rO radd rmul denL denR vL vR)
    (fun p => cauchy_mul_inv rO radd rmul left right denL denR vL vR Inv p.1
              /\ Inv p.2).
Proof. apply inexact_handle_lawful, Stream_cauchy_mul_coefficient_ok. Qed.

Lemma Stream_cauchy_mul_init_inv (is_sparse : bool) :
  cauchy_mul_inv rO radd rmul left right denL denR vL vR Inv
    (Stream_binary_init is_sparse).
Proof.
  unfold cauchy_mul_inv, node_inv. simpl. split; [|split; [reflexivity|]].
  - apply Stream_cauchy_mul_lazy_ok.
  - destruct is_sparse; simpl; [reflexivity|]. split; [reflexivity|]. intros s a s' _ _. reflexivity.
Qed.

End CauchyMulFacts.

Section CauchyInvertFacts.
Context {R : Type} `{EqDecision R}.
Variables (rO rI : R) (radd rmul : R -> R -> R) (ropp : R -> R).
Hypothesis Rl : ring_laws rO rI radd rmul ropp.
Variable rinv : R -> result R.
Context {St : Type}.
Variable series : handle R St.
Variables fuel fuel0 : nat.
Variable gden : Z -> R.
Variable vg : Z.
Variable ainv : R.
Variable Inv : St -> Prop.
Hypothesis Hseries : lawful rO series gden Inv.
Hypothesis Horder : order_within series Inv vg fuel0.
Hypothesis Hfuel : (fuel0 <= fuel)%nat.
Hypothesis Hvg : gden vg <> rO.
Hypothesis Hrinv : rinv (gden vg) = Ok ainv.
Hypothesis Hainv : rmul ainv (gden vg) = rI.

#[local] Abbreviation prefix := (inverse_prefix rO radd rmul ropp gden vg ainv).
#[local] Abbreviation coefficient := (inverse_coefficient rO radd rmul ropp gden vg ainv).
#[local] Abbreviation iseq := (inverse_sequence rO radd rmul ropp gden vg ainv).

Lemma ainv_nonzero : ainv <> rO.
Proof.
  intros H0. apply Hvg.
  rewrite <- (rl_mul_1_l rO rI radd rmul ropp Rl (gden vg)), <- Hainv, H0.
  rewrite !(rl_mul_0_l rO rI radd rmul ropp Rl). reflexivity.
Qed.

Lemma length_inverse_prefix (j : nat) : length (prefix j) = j.
Proof. induction j as [|j IH]; simpl; [reflexivity|]. rewrite length_app, IH. simpl. lia. Qed.

Lemma inverse_prefix_lookup (j k : nat) :
  (k < j)%nat -> prefix j !! k = Some (coefficient k).
Proof.
  induction j as [|j IH]; intros Hk; [lia|]. simpl.
  destruct (decide (k = j)) as [->|Hne].
  - rewrite lookup_app_r by (rewrite length_inverse_prefix; lia).
    rewrite length_inverse_prefix, Nat.sub_diag. reflexivity.
  - rewrite lookup_app_l by (rewrite length_inverse_prefix; lia). apply IH. lia.
Qed.

Lemma inverse_sequence_from (j : nat) : iseq (- vg + Z.of_nat j) = coefficient j.
Proof.
  unfold inverse_sequence. destruct (Z.ltb_spec (- vg + Z.of_nat j) (- vg)); [lia|].
  f_equal. lia.
Qed.

Lemma inverse_sequence_below (k : Z) : k < - vg -> iseq k = rO.
Proof. intros Hk. unfold inverse_sequence. destruct (Z.ltb_spec k (- vg)); [reflexivity|lia]. Qed.

Lemma cache_is_prefix (l : list R) :
  (forall j v, l !! j = Some v -> v = iseq (- vg + Z.of_nat j)) ->
  l = prefix (length l).
Proof.
  intros Hl. apply list_eq. intros j.
  destruct (decide (j < length l)%nat) as [Hj|Hj].
  - rewrite inverse_prefix_lookup by assumption.
    destruct (lookup_lt_is_Some_2 l j Hj) as [v Hv]. rewrite Hv.
    now rewrite (Hl j v Hv), inverse_sequence_from.
  - rewrite !lookup_ge_None_2; [reflexivity| |lia]. rewrite length_inverse_prefix. lia.
Qed.

Lemma ainv_attr_correct (g : invert_iter) (s : St) :
  _ainv g = None \/ _ainv g = Some ainv -> Inv s ->
  exists s',
    ainv_attr rinv series fuel g s = Ok (ainv, mkInvertIter (Some ainv) (phase g), s')
    /\ Inv s'.
Proof.
  intros Hg Hs. unfold ainv_attr. destruct Hg as [Hg|Hg]; rewrite Hg.
  - destruct (Horder s fuel Hs Hfuel) as (s1 & Ho & Hs1). rewrite Ho. simpl.
    destruct (law_getitem _ _ _ _ Hseries vg s1 Hs1) as (s2 & Hc & Hs2).
    rewrite Hc. simpl. rewrite Hrinv. simpl. eauto.
  - exists s. split; [|assumption]. destruct g as [x ph]. simpl in *. now subst x.
Qed.

Lemma invert_terms_correct (n v : Z) (l : list R) :
  forall (k : Z) (c : R) (s : St), Inv s ->
  exists s',
    invert_terms rO radd rmul series l k n v c s
    = Ok (fold_left radd
            (imap (fun i x => rmul x (gden (n - v - (k + Z.of_nat i)))) l) c, s')
    /\ Inv s'.
Proof.
  induction l as [|x l IH]; intros k c s Hs; simpl; [eauto|].
  assert (Himap : imap ((fun i x0 => rmul x0 (gden (n - v - (k + Z.of_nat i)))) ∘ S) l
                  = imap (fun i x0 => rmul x0 (gden (n - v - (k + 1 + Z.of_nat i)))) l).
  { apply imap_ext. intros i y _. simpl. do 2 f_equal. lia. }
  rewrite Himap. rewrite ?Z.add_0_r.
  destruct (truthy rO x) eqn:Ht.
  - destruct (law_getitem _ _ _ _ Hseries (n - v - k) s Hs) as (s1 & Hy & Hs1).
    rewrite Hy. simpl. now apply IH.
  - apply (truthy_false rO) in Ht. subst x.
    rewrite (rl_mul_0_l rO rI radd rmul ropp Rl), (rl_add_0_r rO rI radd rmul ropp Rl).
    now apply IH.
Qed.

Lemma invert_step_correct (n : nat) (st : inexact R invert_iter) (s : St) :
  (1 <= n)%nat -> _cache st = DenseCache (prefix n) ->
  _ainv (_iter st) = Some ainv -> Inv s ->
  exists s',
    invert_step rO radd rmul ropp rinv series fuel (- vg) (Z.of_nat n) st s
    = Ok (coefficient n, mkInvertIter (Some ainv) (InLoop (- vg) (Z.of_nat n)), s')
    /\ Inv s'.
Proof.
  intros Hn Hc Ha Hs. unfold invert_step. rewrite Hc, length_inverse_prefix.
  rewrite Z.min_id, Nat2Z.id.
  rewrite take_ge by (rewrite length_inverse_prefix; lia).
  destruct (invert_terms_correct (Z.of_nat n) (- vg) (prefix n) 0 rO s Hs)
    as (s1 & Ht & Hs1).
  rewrite Ht. simpl. rewrite Z.ltb_irrefl.
  destruct (ainv_attr_correct (_iter st) s1 (or_intror Ha) Hs1) as (s2 & Hx & Hs2).
  rewrite Hx. simpl. exists s2. split; [|assumption]. do 3 f_equal.
  unfold inverse_coefficient, invert_next_coefficient.
  destruct n as [|n]; [lia|]. do 3 f_equal. apply imap_ext. intros i y _. simpl.
  do 2 f_equal. lia.
Qed.

#[local] Abbreviation invert_lazy :=
  (Stream_cauchy_invert_approximate_order series fuel).
#[local] Abbreviation invert_next :=
  (Stream_cauchy_invert_next rO radd rmul ropp rinv series fuel).
#[local] Abbreviation invert_node_inv :=
  (node_inv rO invert_lazy iseq Inv (fun _ => True)
     (invert_gen_ok vg ainv)).

Lemma invert_lazy_correct (s : St) :
  Inv s -> exists s', invert_lazy s = Ok (Fin (- vg), s') /\ Inv s'.
Proof.
  intros Hs. unfold Stream_cauchy_invert_approximate_order.
  destruct (Horder s fuel Hs Hfuel) as (s1 & Ho & Hs1). rewrite Ho. simpl. eauto.
Qed.

Lemma Stream_cauchy_invert_generator_ok :
  generator_ok rO invert_lazy invert_next iseq Inv (fun _ => True)
    (invert_gen_ok vg ainv).
Proof.
  intros st s a l Hao Hc Hnode Hs.
  pose proof Hnode as Hnode'. unfold node_inv in Hnode'. rewrite Hao in Hnode'.
  destruct Hnode' as (_ & _ & _ & Hcache). unfold cache_inv in Hcache.
  rewrite Hc in Hcache. destruct Hcache as (Hne & Hvals & [-> Hphase]).
  pose proof (cache_is_prefix l Hvals) as Hl.
  rewrite inverse_sequence_from.
  unfold Stream_cauchy_invert_next. destruct (phase (_iter st)) as [| |v n] eqn:Hph.
  - destruct Hphase as [Hlen Ha].
    destruct (ainv_attr_correct (_iter st) s Ha Hs) as (s1 & Hx & Hs1).
    rewrite Hx. simpl. rewrite Hlen. eexists _, s1. split; [reflexivity|].
    split; [assumption|]. split.
    + intros _. split; [reflexivity|]. simpl. tauto.
    + intros _ H0. exfalso. now apply ainv_nonzero.
  - destruct Hphase as [Hlen Ha]. rewrite Hao.
    rewrite Hlen in Hl. rewrite Hl in Hc.
    destruct (invert_step_correct 1 st s ltac:(lia) Hc Ha Hs) as (s1 & Hx & Hs1).
    rewrite Hlen. change (Z.of_nat 1) with 1 in Hx. rewrite Hx.
    eexists _, s1. split; [reflexivity|]. split; [assumption|]. split.
    + intros _. split; [reflexivity|]. simpl. repeat split; lia.
    + intros Hto. rewrite Hne in Hto; [discriminate|]. rewrite Hl. discriminate.
  - destruct Hphase as (-> & Hlen & Hn & Ha).
    rewrite Hl in Hc.
    destruct (invert_step_correct (length l) st s ltac:(lia) Hc Ha Hs)
      as (s1 & Hx & Hs1).
    replace (n + 1) with (Z.of_nat (length l)) by lia. rewrite Hx.
    eexists _, s1. split; [reflexivity|]. split; [assumption|]. split.
    + intros _. split; [reflexivity|]. simpl. repeat split; lia.
    + intros Hto. rewrite Hne in Hto; [discriminate|].
      intros ->. simpl in Hlen. lia.
Qed.

(** The inverse node is a lawful stream for the inverse sequence. *)
Lemma Stream_cauchy_invert_lawful :
  lawful rO (Stream_cauchy_invert rO radd rmul ropp rinv series fuel) iseq
    (fun p => invert_inv rO radd rmul ropp series fuel gden vg ainv Inv p.1
              /\ Inv p.2).
Proof.
  constructor.
  - intros n [st s] [[Hkind Hnode] Hs]. simpl in *.
    destruct (Stream_inexact_getitem_correct rO invert_lazy
                (fun _ (_ : St) => Raise AttributeError) invert_next
                iseq Inv (fun _ => True) (invert_gen_ok vg ainv) n st s)
      as (st' & s' & Hg & Hn' & Hs' & _ & Hk); try assumption.
    + intros Hsp. congruence.
    + intros _. apply Stream_cauchy_invert_generator_ok.
    + exists (st', s'). split; [exact Hg|]. simpl. split; [|assumption].
      split; [|assumption]. unfold same_kind in Hk. congruence.
  - intros [st s] [[Hkind Hnode] Hs]. simpl in *.
    destruct (approximate_order_attr_correct rO invert_lazy iseq Inv (fun _ => True)
                (invert_gen_ok vg ainv) st s Hnode Hs)
      as (a & st' & s' & Ha & _ & Hn' & Hs' & _ & Hc & Hb).
    exists a, (st', s'). split; [exact Ha|]. simpl. split; [|assumption].
    split; [|assumption]. split; [|assumption].
    unfold _is_sparse in *. now rewrite Hc.
Qed.

Lemma Stream_cauchy_invert_init_inv :
  invert_inv rO radd rmul ropp series fuel gden vg ainv Inv
    (Stream_cauchy_invert_init None).
Proof.
  split; [reflexivity|]. unfold node_inv. simpl. split; [|split; [reflexivity|]].
  - intros s Hs. destruct (invert_lazy_correct s Hs) as (s' & Hl & Hs').
    exists (Fin (- vg)), s'. split; [exact Hl|]. split; [assumption|].
    split; [|trivial]. intros k Hk. now apply inverse_sequence_below.
  - split; [reflexivity|]. intros s a s' Hs Hl.
    destruct (invert_lazy_correct s Hs) as (s1 & Hl1 & _).
    rewrite Hl in Hl1. inversion Hl1; subst. split; [reflexivity|]. simpl. tauto.
Qed.

(** The cached coefficients pair with the series to the unit. *)
Lemma imap_prefix_sum (j : nat) (f : nat -> R -> R) :
  fold_left radd (imap f (prefix j)) rO
  = sum_upto rO radd j (fun k => f k (coefficient k)).
Proof.
  unfold sum_upto. f_equal. apply list_eq. intros i.
  rewrite list_lookup_imap, list_lookup_fmap.
  destruct (decide (i < j)%nat) as [Hi|Hi].
  - rewrite inverse_prefix_lookup by assumption.
    rewrite lookup_seq_lt by assumption. reflexivity.
  - rewrite lookup_ge_None_2 by (rewrite length_inverse_prefix; lia).
    rewrite lookup_seq_ge by lia. reflexivity.
Qed.

Lemma inverse_recurrence (n : nat) :
  sum_upto rO radd (S n)
    (fun k => rmul (coefficient k) (gden (Z.of_nat n + vg - Z.of_nat k)))
  = if decide (n = O) then rI else rO.
Proof.
  rewrite (sum_upto_S rO rI radd rmul ropp Rl).
  replace (Z.of_nat n + vg - Z.of_nat n) with vg by lia.
  destruct n as [|n]; (destruct (decide _) as [He|He]; [try discriminate He|try (exfalso; apply He; reflexivity)]).
  - unfold sum_upto, inverse_coefficient. simpl. rewrite Hainv.
    apply (rl_add_0_l rO rI radd rmul ropp Rl).
  - unfold inverse_coefficient at 2. unfold invert_next_coefficient.
    rewrite imap_prefix_sum.
    set (c := sum_upto rO radd (S n) _).
    rewrite <- (rl_mul_assoc rO rI radd rmul ropp Rl), Hainv.
    rewrite (rl_mul_1_r rO rI radd rmul ropp Rl).
    replace (sum_upto rO radd (S n)
               (fun k => rmul (coefficient k)
                           (gden (Z.of_nat (S n) + vg - Z.of_nat k)))) with c.
    + apply (rl_opp_def rO rI radd rmul ropp Rl).
    + reflexivity.
Qed.

(** The leading coefficient is a unit: [ainv] is its inverse on both
    sides. The generator multiplies by [ainv] on the right, which makes the
    stream a left inverse of the series ([inverse_recurrence]); that it is
    also the right inverse follows without commuting any product. *)
Hypothesis Hainv_r : rmul (gden vg) ainv = rI.

(** The coefficient at [n + 0] of the product of the series (from its
    order on) with the inverse, the series on the left. *)
Definition inverse_right_product (n : nat) : R :=
  sum_upto rO radd (S n)
    (fun i => rmul (gden (Z.of_nat i + vg)) (coefficient (n - i)%nat)).

(** The inverse times (the series times the inverse) is the inverse:
    associativity of the product of series, with [inverse_recurrence]. *)
Lemma inverse_times_right_product (n : nat) :
  sum_upto rO radd (S n)
    (fun i => rmul (coefficient i) (inverse_right_product (n - i)%nat))
  = coefficient n.
Proof.
  transitivity
    (sum_upto rO radd (S n)
       (fun i => sum_upto rO radd (S (n - i))
                   (fun j => rmul (coefficient i)
                               (rmul (gden (Z.of_nat j + vg))
                                     (coefficient (n - i - j)%nat))))).
  { apply sum_upto_ext. intros i Hi. unfold inverse_right_product.
    symmetry. apply (sum_upto_mul_l rO rI radd rmul ropp Rl). }
  rewrite (sum_triangle rO rI radd rmul ropp Rl n
             (fun i j => rmul (coefficient i)
                           (rmul (gden (Z.of_nat j + vg))
                                 (coefficient (n - i - j)%nat)))).
  transitivity
    (sum_upto rO radd (S n)
       (fun m => rmul (if decide (m = O) then rI else rO) (coefficient (n - m)%nat))).
  { apply sum_upto_ext. intros m Hm. rewrite <- (inverse_recurrence m).
    rewrite <- (sum_upto_mul_r rO rI radd rmul ropp Rl).
    apply sum_upto_ext. intros i Hi.
    rewrite (rl_mul_assoc rO rI radd rmul ropp Rl).
    f_equal; [f_equal; f_equal; lia|f_equal; lia]. }
  rewrite (sum_upto_shift rO rI radd rmul ropp Rl).
  rewrite (sum_upto_zero rO rI radd rmul ropp Rl).
  - destruct (decide (O = O)) as [_|He]; [|exfalso; now apply He].
    rewrite (rl_mul_1_l rO rI radd rmul ropp Rl), Nat.sub_0_r.
    apply (rl_add_0_r rO rI radd rmul ropp Rl).
  - intros j Hj. destruct (decide (S j = O)) as [He|_]; [discriminate He|].
    apply (rl_mul_0_l rO rI radd rmul ropp Rl).
Qed.

(** The series times the inverse is the unit. *)
Lemma inverse_right_product_unit (n : nat) :
  inverse_right_product n = if decide (n = O) then rI else rO.
Proof.
  induction n as [n IH] using lt_wf_ind.
  assert (H0 : inverse_right_product O = rI).
  { unfold inverse_right_product, sum_upto. simpl.
    change (inverse_coefficient rO radd rmul ropp gden vg ainv 0) with ainv.
    change (Z.of_nat 0 + vg) with vg.
    rewrite Hainv_r. apply (rl_add_0_l rO rI radd rmul ropp Rl). }
  destruct n as [|n].
  - destruct (decide (O = O)) as [_|He]; [exact H0|exfalso; now apply He].
  - destruct (decide (S n = O)) as [He|_]; [discriminate He|].
    pose proof (inverse_times_right_product (S n)) as HT.
    rewrite (sum_upto_shift rO rI radd rmul ropp Rl) in HT.
    rewrite (sum_upto_S rO rI radd rmul ropp Rl) in HT.
    rewrite (sum_upto_zero rO rI radd rmul ropp Rl) in HT.
    + replace (S n - S n)%nat with O in HT by lia. rewrite H0 in HT.
      rewrite (rl_mul_1_r rO rI radd rmul ropp Rl) in HT.
      rewrite (rl_add_0_l rO rI radd rmul ropp Rl) in HT.
      rewrite Nat.sub_0_r in HT.
      change (inverse_coefficient rO radd rmul ropp gden vg ainv 0) with ainv in HT.
      assert (Hz : rmul ainv (inverse_right_product (S n)) = rO).
      { apply (rl_add_cancel_r rO rI radd rmul ropp Rl (coefficient (S n))).
        rewrite HT. symmetry. apply (rl_add_0_l rO rI radd rmul ropp Rl). }
      rewrite <- (rl_mul_1_l rO rI radd rmul ropp Rl (inverse_right_product (S n))).
      rewrite <- Hainv_r, <- (rl_mul_assoc rO rI radd rmul ropp Rl), Hz.
      apply (rl_mul_0_r rO rI radd rmul ropp Rl).
    + intros j Hj. rewrite (IH (S n - S j)%nat) by lia.
      destruct (decide (S n - S j = O)%nat) as [He|_]; [lia|].
      apply (rl_mul_0_r rO rI radd rmul ropp Rl).
Qed.

(** The product of the series with its inverse, at [n >= 0]. *)
Lemma convolution_inverse (n : Z) :
  0 <= n ->
  convolution rO radd rmul gden iseq vg (- vg) n = if n =? 0 then rI else rO.
Proof.
  intros Hn. unfold convolution.
  replace (n - - vg + 1 - vg) with (Z.of_nat (S (Z.to_nat n))) by lia.
  unfold seqZ. rewrite Nat2Z.id.
  change (?f <$> seq 0 ?m) with (map f (seq 0 m)). rewrite List.map_map.
  change (fold_left radd (map ?t (seq 0 ?m)) rO) with (sum_upto rO radd m t).
  rewrite (sum_upto_ext rO radd (S (Z.to_nat n)) _
             (fun i => rmul (gden (Z.of_nat i + vg))
                         (coefficient (Z.to_nat n - i)%nat))).
  - change (sum_upto rO radd (S (Z.to_nat n)) _)
      with (inverse_right_product (Z.to_nat n)).
    rewrite inverse_right_product_unit.
    destruct (decide (Z.to_nat n = O)), (Z.eqb_spec n 0); (reflexivity || lia).
  - intros i Hi. simpl.
    replace (n - (Z.of_nat i + vg)) with (- vg + Z.of_nat (Z.to_nat n - i)) by lia.
    now rewrite inverse_sequence_from.
Qed.

(** The states of the product node, the inverse node and the store of the
    series that [Stream_cauchy_mul(g, Stream_cauchy_invert(g))] can be in. *)
Definition inverse_product_inv
    (p : inexact R (option Z) * (inexact R invert_iter * St)) : Prop :=
  cauchy_mul_inv rO radd rmul (on_snd series)
    (Stream_cauchy_invert rO radd rmul ropp rinv series fuel)
    gden iseq vg (- vg)
    (fun q => invert_inv rO radd rmul ropp series fuel gden vg ainv Inv q.1
              /\ Inv q.2) p.1
  /\ invert_inv rO radd rmul ropp series fuel gden vg ainv Inv p.2.1
  /\ Inv p.2.2.

Lemma inverse_sequence_leading : iseq (- vg) <> rO.
Proof.
  replace (- vg) with (- vg + Z.of_nat 0) by (simpl; lia).
  rewrite inverse_sequence_from. exact ainv_nonzero.
Qed.

(** C2. For a series [g] of order [vg] over a ring, commutative or not,
    whose leading coefficient has the inverse [ainv], the product
    [Stream_cauchy_mul(g, Stream_cauchy_invert(g))], with [g] on the left,
    returns at every index [n >= 0] the unit when [n = 0] and zero
    otherwise; this holds in the fresh state of the two nodes and in every
    state reached by earlier accesses. *)
Theorem Stream_cauchy_invert_is_inverse (n : Z)
    (p : inexact R (option Z) * (inexact R invert_iter * St)) :
  (forall k, k < vg -> gden k = rO) ->
  0 <= n ->
  inverse_product_inv p ->
  exists p',
    h_getitem (Stream_cauchy_mul rO radd rmul (on_snd series)
                 (Stream_cauchy_invert rO radd rmul ropp rinv series fuel)) n p
    = Ok ((if n =? 0 then rI else rO), p')
    /\ inverse_product_inv p'.
Proof.
  intros Hzero Hn (Hmul & Hinv & Hs).
  pose proof (Stream_cauchy_mul_lawful rO rI radd rmul ropp Rl
                (on_snd series)
                (Stream_cauchy_invert rO radd rmul ropp rinv series fuel)
                gden iseq _ vg (- vg)
                (on_snd_lawful rO series gden _ Inv Hseries)
                Stream_cauchy_invert_lawful Hvg inverse_sequence_leading Hzero
                (fun k Hk => inverse_sequence_below k Hk)) as Hlaw.
  destruct (law_getitem _ _ _ _ Hlaw n p) as (p' & Hg & Hm' & Hi' & Hs').
  - split; [exact Hmul|]. split; assumption.
  - exists p'. rewrite Hg, (convolution_inverse n Hn).
    split; [reflexivity|]. split; [exact Hm'|]. split; assumption.
Qed.

(** The fresh nodes satisfy the invariant. *)
Lemma inverse_product_init_inv (is_sparse : bool) (s : St) :
  Inv s ->
  inverse_product_inv (Stream_binary_init is_sparse,
                       (Stream_cauchy_invert_init None, s)).
Proof.
  intros Hs. split; [|split; [exact Stream_cauchy_invert_init_inv|exact Hs]].
  apply (Stream_cauchy_mul_init_inv rO radd rmul (on_snd series)
           (Stream_cauchy_invert rO radd rmul ropp rinv series fuel)
           gden iseq _ vg (- vg)
           (on_snd_lawful rO series gden _ Inv Hseries)
           Stream_cauchy_invert_lawful Hvg inverse_sequence_leading).
Qed.

End CauchyInvertFacts.

(** The product of [n^2] (from index 1) with its inverse, evaluated. *)
Example Stream_cauchy_invert_product_doctest :
  values (Stream_cauchy_mul 0 Z.add Z.mul
            (on_snd (Stream_function 0 (fun n => n * n)))
            (Stream_cauchy_invert 0 Z.add Z.mul Z.opp unit_inverse
               (Stream_function 0 (fun n => n * n)) 5))
         (seqZ 0 6)
         (Stream_binary_init false,
          (Stream_cauchy_invert_init None, (Stream_function_init false 1 false, tt)))
  = Ok [1; 0; 0; 0; 0; 0].
Proof. vm_compute. reflexivity. Qed.

Lemma Stream_cauchy_invert_is_inverse_witness :
  exists p',
    h_getitem (Stream_cauchy_mul 0 Z.add Z.mul
                 (on_snd (Stream_function 0 (fun n => n * n)))
                 (Stream_cauchy_invert 0 Z.add Z.mul Z.opp unit_inverse
                    (Stream_function 0 (fun n => n * n)) 5)) 3
      (Stream_binary_init false,
       (Stream_cauchy_invert_init None, (Stream_function_init false 1 false, tt)))
    = Ok (0, p').
Proof.
  assert (Hlead : function_sequence 0 (fun n => n * n) 1 1 <> 0)
    by (vm_compute; discriminate).
  assert (Hzero : forall k, k < 1 -> function_sequence 0 (fun n => n * n) 1 k = 0).
  { intros k Hk. unfold function_sequence.
    destruct (Z.ltb_spec k 1); [reflexivity|lia]. }
  assert (Hinit : function_inv 0 (fun n => n * n) 1
                    (Stream_function_init false 1 false, tt))
    by (apply Stream_function_init_inv; discriminate).
  destruct (Stream_cauchy_invert_is_inverse 0 1 Z.add Z.mul Z.opp
              (ring_theory_laws 0 1 Z.add Z.mul Z.sub Z.opp Zth)
              unit_inverse (Stream_function 0 (fun n => n * n)) 5
              (Z.to_nat (1 - 1 + 1))
              (function_sequence 0 (fun n => n * n) 1) 1 1
              (function_inv 0 (fun n => n * n) 1)
              (Stream_function_lawful 0 (fun n => n * n) 1)
              (Stream_function_order_within 0 (fun n => n * n) 1 1 Hlead Hzero)
              ltac:(simpl; lia) Hlead eq_refl eq_refl eq_refl 3
              (Stream_binary_init false,
               (Stream_cauchy_invert_init None,
                (Stream_function_init false 1 false, tt)))
              Hzero ltac:(lia))
    as (p' & Hg & _).
  - apply (inverse_product_init_inv 0 1 Z.add Z.mul Z.opp
             (ring_theory_laws 0 1 Z.add Z.mul Z.sub Z.opp Zth)
             unit_inverse (Stream_function 0 (fun n => n * n)) 5
             (Z.to_nat (1 - 1 + 1))
             (function_sequence 0 (fun n => n * n) 1) 1 1
             (function_inv 0 (fun n => n * n) 1)
             (Stream_function_lawful 0 (fun n => n * n) 1)
             (Stream_function_order_within 0 (fun n => n * n) 1 1 Hlead Hzero)
             ltac:(simpl; lia) Hlead eq_refl eq_refl false _ Hinit).
  - exists p'. exact Hg.
Defined.

(** ** Shifts: [Stream_shift] *)

Section Shift.
Context {R St : Type}.
Variable series : handle R St.
Variable shift : Z.

(** [Stream_shift]: the store holds the value of the lazy attribute
    [_approximate_order] once it has been computed,
    [self._series._approximate_order + self._shift]; [self[n]] is
    [self._series[n - self._shift]] and [order()] is
    [self._series.order() + self._shift]. *)
Definition Stream_shift : handle R (option ext * St) :=
  mkHandle
    (fun n p => let* (x, s) := h_getitem series (n - shift) p.2 in Ok (x, (p.1, s)))
    (fun p => match p.1 with
              | Some a => Ok (a, p)
              | None =>
                  let* (a, s) := h_approximate_order series p.2 in
                  Ok (ext_add a (Fin shift), (Some (ext_add a (Fin shift)), s))
              end)
    (fun fuel p => let* (v, s) := h_order series fuel p.2 in
                   Ok (ext_add v (Fin shift), (p.1, s))).

End Shift.

(** ** Infinite sums and products: [Stream_infinite_operator] *)

Module InfiniteOperator.

(** The values of [_cur_order]: [-infinity], an integer or [+infinity]. *)
Inductive bound : Type := NegInf | Order (a : ext).

(** [x < y]. *)
Definition bound_ltb (x y : bound) : bool :=
  match x, y with
  | NegInf, NegInf => false
  | NegInf, Order _ => true
  | Order _, NegInf => false
  | Order (Fin a), Order (Fin b) => a <? b
  | Order (Fin _), Order PosInf => true
  | Order PosInf, Order _ => false
  end.

(** [x == y]. *)
Definition bound_eqb (x y : bound) : bool :=
  match x, y with
  | NegInf, NegInf => true
  | Order (Fin a), Order (Fin b) => a =? b
  | Order PosInf, Order PosInf => true
  | _, _ => false
  end.

(** [n >= o] for an integer [n]. *)
Definition bound_leb_Z (o : bound) (n : Z) : bool :=
  match o with
  | NegInf => true
  | Order a => ext_leb_Z a n
  end.

(** The attribute [_coeff_stream] of a factor: an instance of
    [Stream_zero], or another stream. *)
Inductive coeff_stream (R St : Type) : Type :=
| ZeroStream
| OtherStream (h : handle R St).

Arguments ZeroStream {R St}.
Arguments OtherStream {R St} h.

(** The attributes of [Stream_infinite_operator]: the iterator of the
    factors, the partial result and the order up to which it is final. *)
Record infinite_operator (I series : Type) : Type := mkOperator {
  _op_iter : I;
  _cur : option series;
  _cur_order : bound
}.

Arguments mkOperator {I series} _ _ _.
Arguments _op_iter {I series} _.
Arguments _cur {I series} _.
Arguments _cur_order {I series} _.

Definition set_op_iter {I series : Type} (it : I) (op : infinite_operator I series)
  : infinite_operator I series :=
  mkOperator it (_cur op) (_cur_order op).

Definition set_cur {I series : Type} (c : series) (op : infinite_operator I series)
  : infinite_operator I series :=
  mkOperator (_op_iter op) (Some c) (_cur_order op).

Definition set_cur_order {I series : Type} (o : bound)
    (op : infinite_operator I series) : infinite_operator I series :=
  mkOperator (_op_iter op) (_cur op) o.

(** [Stream_infinite_operator.__init__]. *)
Definition Stream_infinite_operator_init {I series : Type} (iterator : I)
  : infinite_operator I series :=
  mkOperator iterator None NegInf.

Section Operator.
Context {R : Type} `{EqDecision R}.
Variable rO : R.
Context {St I factor series : Type}.

(** [next(self._op_iter)]; [None] is [StopIteration]. *)
Variable next : I -> option (factor * I).
Variable _coeff_stream : factor -> coeff_stream R St.

(** The methods of the subclasses, as the value they give [self._cur], and
    the indexing [self._cur[n]] of the partial result. *)
Variable initial : factor -> series.
Variable apply_operator : series -> factor -> series.
Variable series_getitem : series -> Z -> St -> result (R * St).

(** The loop
    [while coeff_stream._approximate_order < order:
         if coeff_stream[coeff_stream._approximate_order]: raise ValueError]
    of [_advance], cut off after [fuel] rounds; the attribute is read once
    per round. *)
Fixpoint check_order (fuel : nat) (h : handle R St) (order : bound) (s : St)
  : result St :=
  match fuel with
  | O => Diverge
  | S fuel =>
      let* (a, s) := h_approximate_order h s in
      if bound_ltb (Order a) order then
        match a with
        | Fin z =>
            let* (c, s) := h_getitem h z s in
            if truthy rO c then Raise ValueError
            else check_order fuel h order s
        | PosInf => Raise TypeError
        end
      else Ok s
  end.

(** The order after a factor has been applied:
    [order = coeff_stream._approximate_order] and then
    [if order == self._cur_order and not coeff_stream[order]: order += 1].
    Streams are indexed by integers; an infinite order is not an index. *)
Definition order_after (h : handle R St) (cur_order : bound) (s : St)
  : result (bound * St) :=
  let* (a, s) := h_approximate_order h s in
  if bound_eqb (Order a) cur_order then
    match a with
    | Fin z =>
        let* (c, s) := h_getitem h z s in
        Ok (if truthy rO c then Order a else Order (Fin (z + 1)), s)
    | PosInf => Raise TypeError
    end
  else Ok (Order a, s).

(** The loop [while order == self._cur_order] of [_advance], entered with
    [order = self._cur_order]; every [next] takes one unit of [fuel]. *)
Fixpoint advance_loop (fuel : nat) (op : infinite_operator I series) (s : St)
  : result (infinite_operator I series * St) :=
  match fuel with
  | O => Diverge
  | S fuel =>
      match next (_op_iter op) with
      | None => Ok (set_cur_order (Order PosInf) op, s)
      | Some (next_factor, it) =>
          let op := set_op_iter it op in
          match _coeff_stream next_factor with
          | ZeroStream => advance_loop fuel op s
          | OtherStream h =>
              let* s := check_order fuel h (_cur_order op) s in
              match _cur op with
              | None => Raise TypeError
              | Some c =>
                  let op := set_cur (apply_operator c next_factor) op in
                  let* (order, s) := order_after h (_cur_order op) s in
                  if bound_eqb order (_cur_order op) then advance_loop fuel op s
                  else Ok (set_cur_order order op, s)
              end
          end
      end
  end.

(** [Stream_infinite_operator._advance]. *)
Fixpoint _advance (fuel : nat) (op : infinite_operator I series) (s : St)
  : result (infinite_operator I series * St) :=
  match _cur op with
  | Some _ => advance_loop fuel op s
  | None =>
      match fuel with
      | O => Diverge
      | S fuel =>
          match next (_op_iter op) with
          | None => Raise StopIteration
          | Some (temp, it) =>
              let op := set_op_iter it op in
              match _coeff_stream temp with
              | ZeroStream => _advance fuel op s
              | OtherStream h =>
                  let op := set_cur (initial temp) op in
                  let* (a, s) := h_approximate_order h s in
                  advance_loop fuel (set_cur_order (Order a) op) s
              end
          end
      end
  end.

(** [Stream_infinite_operator.__getitem__]:
    [while n >= self._cur_order: self._advance()] and then
    [return self._cur[n]]. *)
Fixpoint Stream_infinite_operator_getitem (fuel : nat) (n : Z)
    (op : infinite_operator I series) (s : St)
  : result (R * (infinite_operator I series * St)) :=
  match fuel with
  | O => Diverge
  | S fuel =>
      if bound_leb_Z (_cur_order op) n then
        let* (op, s) := _advance fuel op s in
        Stream_infinite_operator_getitem fuel n op s
      else
        match _cur op with
        | Some c => let* (x, s) := series_getitem c n s in Ok (x, (op, s))
        | None => Raise TypeError
        end
  end.

(** A stream whose approximate order moves up when the coefficient at it
    is found to be zero, as [Stream_inexact.__getitem__] does. *)
Definition refining (h : handle R St) (Inv : St -> Prop) : Prop :=
  forall s z s1 s2, Inv s ->
    h_approximate_order h s = Ok (Fin z, s1) ->
    h_getitem h z s1 = Ok (rO, s2) ->
    forall a s3, h_approximate_order h s2 = Ok (a, s3) -> ext_gt a z.

(** The states reached from [p] by calls of [_advance] made while
    [n >= self._cur_order]. *)
Inductive advances (n : Z)
  : infinite_operator I series * St -> infinite_operator I series * St -> Prop :=
| advances_done p :
    bound_leb_Z (_cur_order p.1) n = false -> advances n p p
| advances_step p p' p'' fuel :
    bound_leb_Z (_cur_order p.1) n = true ->
    _advance fuel p.1 p.2 = Ok p' ->
    advances n p' p'' ->
    advances n p p''.

End Operator.

Section Subclasses.
Context {factor series : Type}.

(** The operations of the front end on series: a factor as a series, the
    sum and the product of two series and the series [1]. *)
Variable series_of : factor -> series.
Variable series_add series_mul : series -> series -> series.
Variable series_one : series.

(** [Stream_infinite_sum.initial]: [self._cur = obj]. *)
Definition Stream_infinite_sum_initial (obj : factor) : series := series_of obj.

(** [Stream_infinite_sum.apply_operator]: [self._cur += next_obj]. *)
Definition Stream_infinite_sum_apply_operator (cur : series) (next_obj : factor)
  : series :=
  series_add cur (series_of next_obj).

(** [Stream_infinite_product.initial]: [self._cur = obj + 1]. *)
Definition Stream_infinite_product_initial (obj : factor) : series :=
  series_add (series_of obj) series_one.

(** [Stream_infinite_product.apply_operator]:
    [self._cur = self._cur + self._cur * next_obj]. *)
Definition Stream_infinite_product_apply_operator (cur : series) (next_obj : factor)
  : series :=
  series_add cur (series_mul cur (series_of next_obj)).

End Subclasses.

(** Modelled from the spec: the series of the front end (lazy_series.py is
    not under src/) are expressions over the factors; the coefficient of a
    sum is the sum of the coefficients, the series [1] has the coefficient
    [1] at index 0, and the coefficient of a product is the Cauchy product
    taken from the approximate orders of its operands. The caches of the
    nodes the front end builds are left out. *)
Inductive lazy_series (R St : Type) : Type :=
| Series_of (c : coeff_stream R St)
| Series_add (a b : lazy_series R St)
| Series_mul (a b : lazy_series R St)
| Series_one.

Arguments Series_of {R St} c.
Arguments Series_add {R St} a b.
Arguments Series_mul {R St} a b.
Arguments Series_one {R St}.

Section FrontEnd.
Context {R : Type} `{EqDecision R}.
Variables (rO rI : R) (radd rmul : R -> R -> R).
Context {St : Type}.

(** Modelled from the spec: the stream behind a factor. *)
Definition coeff_handle (c : coeff_stream R St) : handle R St :=
  match c with
  | ZeroStream => Stream_zero rO
  | OtherStream h => h
  end.

(** Modelled from the spec: a lower bound of the order of a series. *)
Fixpoint lazy_series_approximate_order (e : lazy_series R St) (s : St)
  : result (ext * St) :=
  match e with
  | Series_of c => h_approximate_order (coeff_handle c) s
  | Series_add a b =>
      let* (x, s) := lazy_series_approximate_order a s in
      let* (y, s) := lazy_series_approximate_order b s in
      Ok (ext_min x y, s)
  | Series_mul a b =>
      let* (x, s) := lazy_series_approximate_order a s in
      let* (y, s) := lazy_series_approximate_order b s in
      Ok (ext_add x y, s)
  | Series_one => Ok (Fin 0, s)
  end.

(** Modelled from the spec: the sum of [a[k] * b[n - k]] over [ks]. *)
Fixpoint product_terms (geta getb : Z -> St -> result (R * St)) (n : Z)
    (ks : list Z) (acc : R) (s : St) : result (R * St) :=
  match ks with
  | [] => Ok (acc, s)
  | k :: ks' =>
      let* (x, s) := geta k s in
      let* (y, s) := getb (n - k) s in
      product_terms geta getb n ks' (radd acc (rmul x y)) s
  end.

(** Modelled from the spec: [series[n]]. *)
Fixpoint lazy_series_getitem (e : lazy_series R St) (n : Z) (s : St)
  : result (R * St) :=
  match e with
  | Series_of c => h_getitem (coeff_handle c) n s
  | Series_add a b =>
      let* (x, s) := lazy_series_getitem a n s in
      let* (y, s) := lazy_series_getitem b n s in
      Ok (radd x y, s)
  | Series_mul a b =>
      let* (x, s) := lazy_series_approximate_order a s in
      let* (y, s) := lazy_series_approximate_order b s in
      match x, y with
      | Fin x, Fin y =>
          product_terms (lazy_series_getitem a) (lazy_series_getitem b) n
            (seqZ x (n - y + 1 - x)) rO s
      | _, _ => Ok (rO, s)
      end
  | Series_one => Ok (if n =? 0 then rI else rO, s)
  end.

(** [Stream_infinite_sum] and [Stream_infinite_product] over an iterator
    of coefficient streams. *)
Definition Stream_infinite_sum_getitem {I : Type}
    (next : I -> option (coeff_stream R St * I)) :=
  Stream_infinite_operator_getitem rO next (fun c => c)
    (Stream_infinite_sum_initial Series_of)
    (Stream_infinite_sum_apply_operator Series_of Series_add)
    lazy_series_getitem.

Definition Stream_infinite_sum_advance {I : Type}
    (next : I -> option (coeff_stream R St * I)) :=
  _advance rO next (fun c => c)
    (Stream_infinite_sum_initial Series_of)
    (Stream_infinite_sum_apply_operator Series_of Series_add).

Definition Stream_infinite_product_advance {I : Type}
    (next : I -> option (coeff_stream R St * I)) :=
  _advance rO next (fun c => c)
    (Stream_infinite_product_initial Series_of Series_add Series_one)
    (Stream_infinite_product_apply_operator Series_of Series_add Series_mul).

(** [[series[n] for n in ns]] for the partial result of an operator. *)
Definition cur_values {I : Type}
    (r : result (infinite_operator I (lazy_series R St) * St)) (ns : list Z)
  : result (list R) :=
  let* (op, s) := r in
  match _cur op with
  | Some c => values (mkHandle (lazy_series_getitem c)
                        (lazy_series_approximate_order c)
                        (fun _ => lazy_series_approximate_order c)) ns s
  | None => Raise TypeError
  end.

End FrontEnd.

(** An iterator over a list, and one over the positive integers. *)
Definition list_next {A : Type} (l : list A) : option (A * list A) :=
  match l with
  | [] => None
  | x :: l' => Some (x, l')
  end.

Definition positive_integers_next {A : Type} (f : Z -> A) (n : Z) : option (A * Z) :=
  Some (f n, n + 1).

(** [c * t^n] and [t^n / (1 - t)] as exact streams. *)
Definition monomial (c n : Z) : coeff_stream Z unit :=
  if c =? 0 then ZeroStream
  else OtherStream (Stream_exact_handle 0 (mkExact [c] 0 (n + 1) n)).

Definition geometric_from (n : Z) : coeff_stream Z unit :=
  OtherStream (Stream_exact_handle 0 (mkExact [] 1 n n)).

(** The stream [1 if n >= lo else 0] known from [approximate_order] on, as
    a sparse [Stream_function]. *)
Definition step_from (lo : Z) : handle Z (inexact Z (option Z) * unit) :=
  Stream_function 0 (fun n => if lo <=? n then 1 else 0).

(** *** The doctests of [_advance] and [__getitem__] *)

Definition advance_times {St I : Type}
    (advance : nat -> infinite_operator I (lazy_series Z St) -> St ->
               result (infinite_operator I (lazy_series Z St) * St))
    (k : nat) (op : infinite_operator I (lazy_series Z St)) (s : St)
  : result (infinite_operator I (lazy_series Z St) * St) :=
  Nat.iter k (fun r => let* (op, s) := r in advance 30%nat op s) (Ok (op, s)).

(** [it = (n * t^n for n in range(10))]: after one [_advance] the partial
    sum is [t + 2*t^2] and [_cur_order] is 2; after twenty more it is the
    whole sum and [_cur_order] is [+Infinity]. *)
Example Stream_infinite_sum_advance_doctest :
  let it := map (fun n => monomial n n) (seqZ 0 10) in
  let r1 := advance_times (Stream_infinite_sum_advance 0 list_next) 1
              (Stream_infinite_operator_init it) tt in
  let r21 := advance_times (Stream_infinite_sum_advance 0 list_next) 21
               (Stream_infinite_operator_init it) tt in
  cur_values 0 1 Z.add Z.mul r1 (seqZ 0 6) = Ok [0; 1; 2; 0; 0; 0]
  /\ (let* (op, _) := r1 in Ok (_cur_order op)) = Ok (Order (Fin 2))
  /\ cur_values 0 1 Z.add Z.mul r21 (seqZ 0 12)
     = Ok [0; 1; 2; 3; 4; 5; 6; 7; 8; 9; 0; 0]
  /\ (let* (op, _) := r21 in Ok (_cur_order op)) = Ok (Order PosInf).
Proof. vm_compute. repeat split; reflexivity. Qed.

(** [it = (t^(n//3) / (1 - t) for n in PositiveIntegers())]. *)
Example Stream_infinite_sum_advance_doctest_2 :
  let next := positive_integers_next (fun n => geometric_from (n / 3)) in
  cur_values 0 1 Z.add Z.mul
    (advance_times (Stream_infinite_sum_advance 0 next) 1
       (Stream_infinite_operator_init 1) tt) (seqZ 0 4)
  = Ok [2; 3; 3; 3]
  /\ cur_values 0 1 Z.add Z.mul
       (advance_times (Stream_infinite_sum_advance 0 next) 2
          (Stream_infinite_operator_init 1) tt) (seqZ 0 5)
     = Ok [2; 5; 6; 6; 6].
Proof. vm_compute. split; reflexivity. Qed.

(** [it = (t^n / (1 - t) for n in PositiveIntegers())]: [f[2]] and [f[5]]
    of the sum, and the partial products after one and two [_advance]. *)
Example Stream_infinite_sum_getitem_doctest :
  let next := positive_integers_next geometric_from in
  (let* (x, _) := Stream_infinite_sum_getitem 0 1 Z.add Z.mul next 10 2
                    (Stream_infinite_operator_init 1) tt in Ok x) = Ok 2
  /\ (let* (x, _) := Stream_infinite_sum_getitem 0 1 Z.add Z.mul next 10 5
                       (Stream_infinite_operator_init 1) tt in Ok x) = Ok 5.
Proof. vm_compute. split; reflexivity. Qed.

Example Stream_infinite_product_advance_doctest :
  let next := positive_integers_next geometric_from in
  cur_values 0 1 Z.add Z.mul
    (advance_times (Stream_infinite_product_advance 0 next) 1
       (Stream_infinite_operator_init 1) tt) (seqZ 0 7)
  = Ok [1; 1; 2; 3; 4; 5; 6]
  /\ cur_values 0 1 Z.add Z.mul
       (advance_times (Stream_infinite_product_advance 0 next) 2
          (Stream_infinite_operator_init 1) tt) (seqZ 0 7)
     = Ok [1; 1; 2; 4; 6; 9; 13].
Proof. vm_compute. split; reflexivity. Qed.

(** A second factor of order 1 after a first factor of order 2 is
    refused. *)
Example Stream_infinite_sum_invalid_order :
  (let* (x, _) :=
     Stream_infinite_sum_getitem 0 1 Z.add Z.mul list_next 10 2
       (Stream_infinite_operator_init
          [OtherStream (Stream_exact_handle 0 (mkExact [1] 0 3 2));
           OtherStream (step_from 1)])
       (Stream_function_init true 0 false, tt) in Ok x)
  = Raise ValueError.
Proof. vm_compute. reflexivity. Qed.

(** *** Properties of [_advance] and [__getitem__] *)

#[local] Arguments bound_ltb : simpl never.
#[local] Arguments bound_eqb : simpl never.
#[local] Arguments bound_leb_Z : simpl never.

Section OperatorFacts.
Context {R : Type} `{EqDecision R}.
Variable rO : R.
Context {St I factor series : Type}.
Variable next : I -> option (factor * I).
Variable _coeff_stream : factor -> coeff_stream R St.
Variable initial : factor -> series.
Variable apply_operator : series -> factor -> series.
Variable series_getitem : series -> Z -> St -> result (R * St).

#[local] Abbreviation check := (check_order rO).
#[local] Abbreviation loop := (advance_loop rO next _coeff_stream apply_operator).
#[local] Abbreviation advance :=
  (_advance rO next _coeff_stream initial apply_operator).
#[local] Abbreviation getitem :=
  (Stream_infinite_operator_getitem rO next _coeff_stream initial apply_operator
     series_getitem).

(** More fuel does not change a result. *)
Lemma check_order_mono (h : handle R St) (order : bound) (fuel : nat) :
  forall fuel' s r, (fuel <= fuel')%nat ->
    check fuel h order s = r -> r <> Diverge -> check fuel' h order s = r.
Proof.
  induction fuel as [|fuel IH]; intros fuel' s r Hle Hr Hd; simpl in Hr.
  - congruence.
  - destruct fuel' as [|fuel']; [lia|]. simpl.
    destruct (h_approximate_order h s) as [[a s1]| |]; simpl in *; try assumption.
    destruct (bound_ltb (Order a) order); [|assumption].
    destruct a as [z|]; [|assumption].
    destruct (h_getitem h z s1) as [[c s2]| |]; simpl in *; try assumption.
    destruct (truthy rO c); [assumption|]. apply IH; [lia|assumption..].
Qed.

Lemma advance_loop_mono (fuel : nat) :
  forall fuel' op s r, (fuel <= fuel')%nat ->
    loop fuel op s = r -> r <> Diverge -> loop fuel' op s = r.
Proof.
  induction fuel as [|fuel IH]; intros fuel' op s r Hle Hr Hd; simpl in Hr.
  - congruence.
  - destruct fuel' as [|fuel']; [lia|]. simpl.
    destruct (next (_op_iter op)) as [[f it]|]; [|assumption].
    destruct (_coeff_stream f) as [|h].
    + apply IH; [lia|assumption..].
    + simpl in *.
      destruct (check fuel h (_cur_order op) s) as [s1|e|] eqn:Hc; simpl in Hr.
      * rewrite (check_order_mono h _ fuel fuel' s (Ok s1)); [|lia|assumption|discriminate].
        simpl. destruct (_cur op) as [c|]; [|assumption].
        destruct (order_after rO h (_cur_order op) s1) as [[o s2]| |];
          simpl in *; try assumption.
        destruct (bound_eqb o (_cur_order op)); [|assumption].
        apply IH; [lia|assumption..].
      * rewrite (check_order_mono h _ fuel fuel' s (Raise e)); [|lia|assumption|discriminate].
        assumption.
      * congruence.
Qed.

Lemma advance_Some (fuel : nat) (op : infinite_operator I series) (s : St)
    (c : series) :
  _cur op = Some c -> advance fuel op s = loop fuel op s.
Proof. intros Hc. destruct fuel; simpl; rewrite Hc; reflexivity. Qed.

Lemma advance_None (fuel : nat) (op : infinite_operator I series) (s : St) :
  _cur op = None ->
  advance (S fuel) op s
  = match next (_op_iter op) with
    | None => Raise StopIteration
    | Some (temp, it) =>
        match _coeff_stream temp with
        | ZeroStream => advance fuel (set_op_iter it op) s
        | OtherStream h =>
            let* (a, s) := h_approximate_order h s in
            loop fuel (set_cur_order (Order a) (set_cur (initial temp) (set_op_iter it op))) s
        end
    end.
Proof. intros Hc. simpl. rewrite Hc. reflexivity. Qed.

Lemma advance_mono (fuel : nat) :
  forall fuel' op s r, (fuel <= fuel')%nat ->
    advance fuel op s = r -> r <> Diverge -> advance fuel' op s = r.
Proof.
  induction fuel as [|fuel IH]; intros fuel' op s r Hle Hr Hd;
    destruct (_cur op) as [c|] eqn:Hcur.
  - rewrite (advance_Some fuel' op s c Hcur).
    rewrite (advance_Some O op s c Hcur) in Hr. now apply (advance_loop_mono O).
  - simpl in Hr. rewrite Hcur in Hr. congruence.
  - rewrite (advance_Some fuel' op s c Hcur).
    rewrite (advance_Some (S fuel) op s c Hcur) in Hr.
    now apply (advance_loop_mono (S fuel)).
  - destruct fuel' as [|fuel']; [lia|].
    rewrite (advance_None fuel' op s Hcur).
    rewrite (advance_None fuel op s Hcur) in Hr.
    destruct (next (_op_iter op)) as [[f it]|]; [|assumption].
    destruct (_coeff_stream f) as [|h].
    + apply IH; [lia|assumption..].
    + destruct (h_approximate_order h s) as [[a s1]| |]; simpl in *; try assumption.
      apply (advance_loop_mono fuel); [lia|assumption..].
Qed.

Lemma getitem_mono (n : Z) (fuel : nat) :
  forall fuel' op s r, (fuel <= fuel')%nat ->
    getitem fuel n op s = r -> r <> Diverge -> getitem fuel' n op s = r.
Proof.
  induction fuel as [|fuel IH]; intros fuel' op s r Hle Hr Hd; simpl in Hr.
  - congruence.
  - destruct fuel' as [|fuel']; [lia|]. simpl.
    destruct (bound_leb_Z (_cur_order op) n); [|assumption].
    destruct (advance fuel op s) as [[op1 s1]|e|] eqn:Ha; simpl in Hr.
    + rewrite (advance_mono fuel fuel' op s (Ok (op1, s1))); [|lia|assumption|discriminate].
      simpl. apply IH; [lia|assumption..].
    + rewrite (advance_mono fuel fuel' op s (Raise e)); [|lia|assumption|discriminate].
      assumption.
    + congruence.
Qed.

(** A factor whose coefficient stream is an instance of [Stream_zero] is
    skipped: [_advance] goes on with the rest of the iterator, and the
    partial result, its order and the store are as they were. *)
Lemma advance_skips_zero (fuel : nat) (op : infinite_operator I series) (s : St)
    (f : factor) (it : I) :
  next (_op_iter op) = Some (f, it) ->
  _coeff_stream f = ZeroStream ->
  advance (S fuel) op s = advance fuel (set_op_iter it op) s.
Proof.
  intros Hnext Hzero. destruct (_cur op) as [c|] eqn:Hcur.
  - rewrite (advance_Some (S fuel) op s c Hcur).
    rewrite (advance_Some fuel (set_op_iter it op) s c Hcur).
    simpl. rewrite Hnext, Hzero. reflexivity.
  - rewrite (advance_None fuel op s Hcur), Hnext, Hzero. reflexivity.
Qed.

(** Indexing gives the same with and without a structurally zero factor
    at the head of the iterator. *)
Lemma getitem_skips_zero (fuel : nat) (n : Z) (op : infinite_operator I series)
    (s : St) (f : factor) (it : I)
    (r : result (R * (infinite_operator I series * St))) :
  next (_op_iter op) = Some (f, it) ->
  _coeff_stream f = ZeroStream ->
  bound_leb_Z (_cur_order op) n = true ->
  getitem fuel n (set_op_iter it op) s = r -> r <> Diverge ->
  getitem (S fuel) n op s = r.
Proof.
  intros Hnext Hzero Hn Hr Hd. destruct fuel as [|fuel]; [simpl in Hr; congruence|].
  change (getitem (S (S fuel)) n op s)
    with (if bound_leb_Z (_cur_order op) n
          then let* (op1, s1) := advance (S fuel) op s in getitem (S fuel) n op1 s1
          else match _cur op with
               | Some c => let* (x, s1) := series_getitem c n s in Ok (x, (op, s1))
               | None => Raise TypeError
               end).
  rewrite Hn, (advance_skips_zero fuel op s f it Hnext Hzero).
  simpl in Hr. change (_cur_order (set_op_iter it op)) with (_cur_order op) in Hr.
  rewrite Hn in Hr.
  destruct (advance fuel (set_op_iter it op) s) as [[op1 s1]|e|]; cbn [bind] in *;
    try assumption.
  apply (getitem_mono n fuel); [lia|assumption..].
Qed.

(** The check of a factor against the order: for a stream of the sequence
    [den] that refines its approximate order, a non-zero coefficient of
    [den] below [order] makes the check raise [ValueError]. *)
Lemma check_order_raises (h : handle R St) (den : Z -> R) (Inv : St -> Prop)
    (order : bound) (v : Z) :
  lawful rO h den Inv -> refining rO h Inv ->
  den v <> rO -> bound_ltb (Order (Fin v)) order = true ->
  forall (m : nat) (s : St) (z : Z) (s1 : St),
    Inv s -> h_approximate_order h s = Ok (Fin z, s1) ->
    v - z < Z.of_nat m ->
    forall fuel, (m <= fuel)%nat -> check fuel h order s = Raise ValueError.
Proof.
  intros Hlaw Href Hv Hlt.
  assert (Hbound : forall s a s1, Inv s -> h_approximate_order h s = Ok (a, s1) ->
            Inv s1 /\ exists z, a = Fin z /\ z <= v).
  { intros s a s1 Hs Ha.
    destruct (law_approximate_order _ _ _ _ Hlaw s Hs) as (a' & s' & Ha' & Hs' & Hb).
    rewrite Ha in Ha'. inversion Ha'; subst. split; [assumption|].
    exact (bound_finite rO a' den v Hb Hv). }
  induction m as [|m IH]; intros s z s1 Hs Ha Hm fuel Hfuel.
  - destruct (Hbound s _ s1 Hs Ha) as (_ & z' & Hz' & Hle). inversion Hz'; subst. lia.
  - destruct fuel as [|fuel]; [lia|]. simpl. rewrite Ha. simpl.
    destruct (Hbound s _ s1 Hs Ha) as (Hs1 & z' & Hz' & Hle). inversion Hz'; subst z'.
    assert (Hzo : bound_ltb (Order (Fin z)) order = true).
    { unfold bound_ltb in *. destruct order as [|[o|]]; [discriminate| |reflexivity].
      apply Z.ltb_lt. apply Z.ltb_lt in Hlt. lia. }
    rewrite Hzo.
    destruct (law_getitem _ _ _ _ Hlaw z s1 Hs1) as (s2 & Hg & Hs2).
    rewrite Hg. simpl. destruct (truthy rO (den z)) eqn:Ht; [reflexivity|].
    apply (truthy_false rO) in Ht. rewrite Ht in Hg.
    destruct (law_approximate_order _ _ _ _ Hlaw s2 Hs2) as (a' & s3 & Ha' & Hs3 & Hb).
    destruct (Hbound s2 a' s3 Hs2 Ha') as (_ & z' & -> & Hle').
    pose proof (Href s z s1 s2 Hs Ha Hg _ _ Ha') as Hgt. simpl in Hgt.
    apply (IH s2 z' s3 Hs2 Ha'); lia.
Qed.

(** A later factor whose valuation is below the committed order makes
    [_advance] raise [ValueError]. *)
Lemma advance_raises (op : infinite_operator I series) (s : St) (c : series)
    (f : factor) (it : I) (h : handle R St) (den : Z -> R) (Inv : St -> Prop)
    (v : Z) :
  _cur op = Some c ->
  next (_op_iter op) = Some (f, it) ->
  _coeff_stream f = OtherStream h ->
  lawful rO h den Inv -> refining rO h Inv -> Inv s ->
  den v <> rO -> bound_ltb (Order (Fin v)) (_cur_order op) = true ->
  exists fuel0, forall fuel, (fuel0 <= fuel)%nat ->
    advance fuel op s = Raise ValueError.
Proof.
  intros Hcur Hnext Hf Hlaw Href Hs Hv Hlt.
  destruct (law_approximate_order _ _ _ _ Hlaw s Hs) as (a & s1 & Ha & Hs1 & Hb).
  destruct (bound_finite rO a den v Hb Hv) as (z & -> & Hle).
  exists (S (Z.to_nat (v - z + 1))). intros fuel Hfuel.
  destruct fuel as [|fuel]; [lia|]. simpl. rewrite Hcur, Hnext, Hf. simpl.
  rewrite (check_order_raises h den Inv (_cur_order op) v Hlaw Href Hv Hlt
             (Z.to_nat (v - z + 1)) s z s1 Hs Ha); [reflexivity|lia|lia].
Qed.

(** Indexing at [n] advances while [n >= self._cur_order] and then returns
    the coefficient of the partial result. *)
Lemma getitem_advances (n : Z) (p p' : infinite_operator I series * St)
    (c : series) :
  advances rO next _coeff_stream initial apply_operator n p p' ->
  _cur p'.1 = Some c ->
  exists fuel0, forall fuel, (fuel0 <= fuel)%nat ->
    getitem fuel n p.1 p.2
    = let* (x, s) := series_getitem c n p'.2 in Ok (x, (p'.1, s)).
Proof.
  intros Hadv Hc. induction Hadv as [p Hn|p p1 p2 fuel1 Hn Ha Hadv IH].
  - exists 1%nat. intros fuel Hfuel. destruct fuel as [|fuel]; [lia|].
    simpl. rewrite Hn, Hc. reflexivity.
  - destruct (IH Hc) as (fuel0 & Hfuel0).
    exists (S (Nat.max fuel1 fuel0)). intros fuel Hfuel.
    destruct fuel as [|fuel]; [lia|]. simpl. rewrite Hn.
    rewrite (advance_mono fuel1 fuel p.1 p.2 (Ok p1)); [|lia|assumption|discriminate].
    simpl. destruct p1 as [op1 s1]. apply Hfuel0. lia.
Qed.

(** A check that does not move: the approximate order stays below [order]
    and the coefficient at it is zero, in a state that the two reads leave
    as it is. *)
Lemma check_order_stuck (h : handle R St) (order : bound) (s : St) (z : Z) :
  h_approximate_order h s = Ok (Fin z, s) ->
  bound_ltb (Order (Fin z)) order = true ->
  h_getitem h z s = Ok (rO, s) ->
  forall fuel, check fuel h order s = Diverge.
Proof.
  intros Ha Hlt Hg fuel. induction fuel as [|fuel IH]; [reflexivity|].
  simpl. rewrite Ha. simpl. rewrite Hlt, Hg. simpl.
  assert (Ht : truthy rO rO = false) by (now apply truthy_false).
  rewrite Ht. exact IH.
Qed.

(** One round of the check that finds a zero coefficient. *)
Lemma check_order_step (h : handle R St) (order : bound) (s s1 s2 : St) (z : Z)
    (fuel : nat) :
  h_approximate_order h s = Ok (Fin z, s1) ->
  bound_ltb (Order (Fin z)) order = true ->
  h_getitem h z s1 = Ok (rO, s2) ->
  check (S fuel) h order s = check fuel h order s2.
Proof.
  intros Ha Hlt Hg. simpl. rewrite Ha. simpl. rewrite Hlt, Hg. simpl.
  assert (Ht : truthy rO rO = false) by (now apply truthy_false).
  rewrite Ht. reflexivity.
Qed.

(** [_advance] does not return when the check of the next factor does
    not, and then neither does indexing. *)
Lemma advance_loop_check_diverges (op : infinite_operator I series) (s : St)
    (f : factor) (it : I) (h : handle R St) :
  next (_op_iter op) = Some (f, it) ->
  _coeff_stream f = OtherStream h ->
  (forall fuel, check fuel h (_cur_order op) s = Diverge) ->
  forall fuel, loop fuel op s = Diverge.
Proof.
  intros Hnext Hf Hc fuel. destruct fuel as [|fuel]; [reflexivity|].
  simpl. rewrite Hnext, Hf. simpl. rewrite Hc. reflexivity.
Qed.

Lemma advance_first (fuel : nat) (op : infinite_operator I series) (s s1 : St)
    (temp : factor) (it : I) (h : handle R St) (a : ext) :
  _cur op = None ->
  next (_op_iter op) = Some (temp, it) ->
  _coeff_stream temp = OtherStream h ->
  h_approximate_order h s = Ok (a, s1) ->
  advance (S fuel) op s
  = loop fuel (set_cur_order (Order a) (set_cur (initial temp) (set_op_iter it op))) s1.
Proof.
  intros Hcur Hnext Hf Ha. rewrite (advance_None fuel op s Hcur), Hnext, Hf, Ha.
  reflexivity.
Qed.

Lemma getitem_advance_diverges (n : Z) (op : infinite_operator I series) (s : St) :
  bound_leb_Z (_cur_order op) n = true ->
  (forall fuel, advance fuel op s = Diverge) ->
  forall fuel, getitem fuel n op s = Diverge.
Proof.
  intros Hn Ha fuel. destruct fuel as [|fuel]; [reflexivity|].
  simpl. rewrite Hn, Ha. reflexivity.
Qed.

End OperatorFacts.

(** An exact stream in canonical form refines its approximate order: the
    coefficient at it is not zero. *)
Lemma Stream_exact_refining {R : Type} `{EqDecision R} (rO : R) {St : Type}
    (e : Stream_exact) (Inv : St -> Prop) :
  canonical rO e -> refining rO (@Stream_exact_handle R rO St e) Inv.
Proof.
  intros Hcan s z s1 s2 _ Ha Hg. simpl in Ha, Hg.
  inversion Ha; subst. inversion Hg as [Hz].
  exfalso. exact (canonical_at_order rO e Hcan Hz).
Qed.

(** A node that keeps the inherited [Stream_inexact.__getitem__] refines
    its approximate order. *)
Lemma inexact_handle_refining {R : Type} `{EqDecision R} (rO : R) {St : Type}
    (lazy_approximate_order : St -> result (ext * St))
    (get_coefficient : Z -> St -> result (R * St))
    (den : Z -> R) (Inv : St -> Prop) (valid : Z -> Prop) :
  coefficient_ok get_coefficient den Inv valid ->
  refining rO (inexact_handle rO lazy_approximate_order get_coefficient)
    (fun p => node_inv rO lazy_approximate_order den Inv valid default_gen_ok p.1
              /\ Inv p.2).
Proof.
  intros Hgc [st s] z [st1 s1] [st2 s2] [Hn HI] Ha Hg a [st3 s3] Ha'. simpl in *.
  destruct (approximate_order_attr_correct rO lazy_approximate_order den Inv valid
              default_gen_ok st s Hn HI)
    as (a0 & st1' & s1' & Ha0 & Hao1 & Hn1 & HI1 & _).
  rewrite Ha in Ha0. inversion Ha0; subst a0 st1' s1'.
  destruct (getitem_default_correct rO lazy_approximate_order get_coefficient
              den Inv valid z st1 s1 Hgc Hn1 HI1) as (st2' & s2' & Hg' & _).
  rewrite Hg in Hg'. inversion Hg' as [[Hz Hst Hs]].
  destruct (Stream_inexact_getitem_refines rO lazy_approximate_order get_coefficient
              (iterate_coefficients get_coefficient) den Inv valid default_gen_ok
              z st1 s1 (fun _ => Hgc)
              (fun _ => default_generator_ok rO lazy_approximate_order
                          get_coefficient den Inv valid Hgc)
              Hn1 HI1 Hao1 (eq_sym Hz) rO st2 s2 Hg) as (a' & Hao2 & Hlt).
  unfold approximate_order_attr in Ha'. simpl in Ha'. rewrite Hao2 in Ha'.
  inversion Ha'; subst. exact Hlt.
Qed.

Lemma Stream_function_refining {R : Type} `{EqDecision R} (rO : R)
    (function : Z -> R) (ao : Z) :
  refining rO (Stream_function rO function) (function_inv rO function ao).
Proof.
  intros s z s1 s2 Hs. 
  apply (inexact_handle_refining rO Stream_lazy_approximate_order
           (fun n (s : unit) => Ok (function n, s))
           (function_sequence rO function ao) (fun _ => True) (fun k => ao <= k)
           (Stream_function_coefficient_ok rO function ao) s z s1 s2).
  split; [exact Hs|exact I].
Qed.

(** *** A shifted factor *)

(** The factors [t^2] and the shift by 1 of the stream
    [Stream_function(lambda n: 1 if n >= 4 else 0, True, 0)]: their orders
    are 2 and 5. *)
Definition shifted_factors
  : list (coeff_stream Z (option ext * (inexact Z (option Z) * unit))) :=
  [OtherStream (Stream_exact_handle 0 (mkExact [1] 0 3 2));
   OtherStream (Stream_shift (step_from 4) 1)].

Definition shifted_store : option ext * (inexact Z (option Z) * unit) :=
  (None, (Stream_function_init true 0 false, tt)).

(** The same series with the second factor given as the stream
    [Stream_function(lambda n: 1 if n >= 5 else 0, True, 1)]. *)
Definition unshifted_factors : list (coeff_stream Z (inexact Z (option Z) * unit)) :=
  [OtherStream (Stream_exact_handle 0 (mkExact [1] 0 3 2));
   OtherStream (step_from 5)].

Lemma shifted_check_diverges (order : Z) (fuel : nat) :
  1 < order ->
  check_order 0 fuel (Stream_shift (step_from 4) 1) (Order (Fin order)) shifted_store
  = Diverge.
Proof.
  intros Ho.
  assert (Hlt : bound_ltb (Order (Fin 1)) (Order (Fin order)) = true)
    by (apply Z.ltb_lt; exact Ho).
  destruct fuel as [|fuel]; [reflexivity|].
  rewrite (check_order_step 0 (Stream_shift (step_from 4) 1) (Order (Fin order))
             shifted_store
             (Some (Fin 1), (Stream_function_init true 0 false, tt))
             (Some (Fin 1), (Stream_function_init true 1 false, tt)) 1 fuel);
    [|vm_compute; reflexivity|exact Hlt|vm_compute; reflexivity].
  apply (check_order_stuck 0 (Stream_shift (step_from 4) 1) (Order (Fin order))
           (Some (Fin 1), (Stream_function_init true 1 false, tt)) 1);
    [vm_compute; reflexivity|exact Hlt|vm_compute; reflexivity].
Qed.

(** After the factor [t^7] the shifted factor, of order 5, is not refused
    with [ValueError] either: the check does not return. *)
Lemma shifted_invalid_order_diverges (fuel : nat) :
  Stream_infinite_sum_getitem 0 1 Z.add Z.mul list_next fuel 0
    (Stream_infinite_operator_init
       [OtherStream (Stream_exact_handle 0 (mkExact [1] 0 8 7));
        OtherStream (Stream_shift (step_from 4) 1)])
    shifted_store
  = Diverge.
Proof.
  revert fuel. apply getitem_advance_diverges; [reflexivity|].
  intros fuel. destruct fuel as [|fuel]; [reflexivity|].
  rewrite (advance_first 0 list_next (fun c => c)
             (Stream_infinite_sum_initial Series_of)
             (Stream_infinite_sum_apply_operator Series_of Series_add)
             fuel
             (Stream_infinite_operator_init
                [OtherStream (Stream_exact_handle 0 (mkExact [1] 0 8 7));
                 OtherStream (Stream_shift (step_from 4) 1)])
             shifted_store shifted_store
             (OtherStream (Stream_exact_handle 0 (mkExact [1] 0 8 7)))
             [OtherStream (Stream_shift (step_from 4) 1)]
             (Stream_exact_handle 0 (mkExact [1] 0 8 7)) (Fin 7)
             eq_refl eq_refl eq_refl eq_refl).
  apply advance_loop_check_diverges
    with (f := OtherStream (Stream_shift (step_from 4) 1)) (it := [])
         (h := Stream_shift (step_from 4) 1);
    [reflexivity|reflexivity|].
  intros fuel'. apply shifted_check_diverges. lia.
Qed.

(** C8. The sum of the factors [t^2] and
    [Stream_shift(Stream_function(lambda n: 1 if n >= 4 else 0, True, 0), 1)],
    whose orders 2 and 5 are weakly increasing: no amount of fuel makes
    indexing at 0 return, because the check of the second factor in
    [_advance] reads the approximate order 1 of the shift, finds the
    coefficient at 1 zero and reads the same approximate order again. The
    shift itself has the coefficients 0, 0, 0, 0, 0, 1, 1, 1, and with the
    second factor given as a [Stream_function] of the same coefficients
    indexing at 0 returns 0. *)
Theorem Stream_infinite_sum_getitem_at_failing_input :
  (forall fuel,
     Stream_infinite_sum_getitem 0 1 Z.add Z.mul list_next fuel 0
       (Stream_infinite_operator_init shifted_factors) shifted_store
     = Diverge)
  /\ values (Stream_shift (step_from 4) 1) (seqZ 0 8) shifted_store
     = Ok [0; 0; 0; 0; 0; 1; 1; 1]
  /\ (let* (x, _) :=
        Stream_infinite_sum_getitem 0 1 Z.add Z.mul list_next 10 0
          (Stream_infinite_operator_init unshifted_factors)
          (Stream_function_init true 1 false, tt) in Ok x)
     = Ok 0.
Proof.
  split; [|split; vm_compute; reflexivity].
  apply getitem_advance_diverges; [reflexivity|].
  intros fuel. destruct fuel as [|fuel]; [reflexivity|].
  rewrite (advance_first 0 list_next (fun c => c)
             (Stream_infinite_sum_initial Series_of)
             (Stream_infinite_sum_apply_operator Series_of Series_add)
             fuel (Stream_infinite_operator_init shifted_factors)
             shifted_store shifted_store
             (OtherStream (Stream_exact_handle 0 (mkExact [1] 0 3 2)))
             [OtherStream (Stream_shift (step_from 4) 1)]
             (Stream_exact_handle 0 (mkExact [1] 0 3 2)) (Fin 2)
             eq_refl eq_refl eq_refl eq_refl).
  apply advance_loop_check_diverges
    with (f := OtherStream (Stream_shift (step_from 4) 1)) (it := [])
         (h := Stream_shift (step_from 4) 1);
    [reflexivity|reflexivity|].
  intros fuel'. apply shifted_check_diverges. lia.
Qed.

End InfiniteOperator.

(** * Further properties of the streams *)

(** ** [Stream_inexact]: the cache and the order *)

Section InexactProperties.
Context {R : Type} `{EqDecision R}.
Variable rO : R.
Context {St : Type}.
Variable lazy_approximate_order : St -> result (ext * St).
Variable get_coefficient : Z -> St -> result (R * St).
Variable den : Z -> R.
Variable Inv : St -> Prop.
Variable valid : Z -> Prop.

#[local] Abbreviation node_ok :=
  (node_inv rO lazy_approximate_order den Inv valid default_gen_ok).

(** X1. [Stream_inexact.__getitem__], sparse or dense, over a coefficient
    rule that computes the sequence [den]: [self[n]] returns [den n] and
    keeps the invariant of the attributes; an approximate order that was
    known only moves up, every coefficient below it is zero, it stays
    where it is once [_true_order] is set, and when [_true_order] is set
    the coefficient at it is not zero. *)
Theorem Stream_inexact_getitem_tracks_order (n : Z) (st : inexact R (option Z))
    (s : St) :
  coefficient_ok get_coefficient den Inv valid ->
  node_ok st -> Inv s ->
  exists st' s',
    getitem_default rO lazy_approximate_order get_coefficient n (st, s)
    = Ok (den n, (st', s'))
    /\ node_ok st' /\ Inv s'
    /\ _is_sparse st' = _is_sparse st
    /\ (forall a, _approximate_order st = Some (Fin a) ->
        exists a', _approximate_order st' = Some (Fin a') /\ a <= a'
          /\ (forall k, k < a' -> den k = rO)
          /\ (_true_order st = true -> a' = a /\ _true_order st' = true)
          /\ (_true_order st' = true -> den a' <> rO)).
Proof.
  intros Hgc Hn Hs.
  destruct (getitem_default_correct rO lazy_approximate_order get_coefficient
              den Inv valid n st s Hgc Hn Hs)
    as (st' & s' & Hg & Hn' & Hs' & Href & Hk).
  exists st', s'. split; [exact Hg|]. split; [exact Hn'|]. split; [exact Hs'|].
  split; [exact Hk|]. intros a Ha. unfold refines in Href. rewrite Ha in Href.
  destruct (_approximate_order st') as [[a'|]|] eqn:Ha'; try contradiction.
  exists a'. split; [reflexivity|]. destruct Href as [Hle Hfix].
  split; [exact Hle|]. unfold node_inv in Hn'. rewrite Ha' in Hn'.
  destruct Hn' as (Hlow & _ & Htrue & _). tauto.
Qed.

(** X2. [Stream_inexact.order]: when the sequence has its first non-zero
    coefficient at [v] and the coefficient rule is asked from [lo] on,
    [order()] returns [v] after at most [v - lo + 1] probes, and keeps the
    invariant. *)
Theorem Stream_inexact_order_first_nonzero (lo v : Z)
    (p : inexact R (option Z) * St) (fuel : nat) :
  coefficient_ok get_coefficient den Inv valid ->
  (forall k, valid k -> lo <= k) ->
  den v <> rO -> (forall k, k < v -> den k = rO) ->
  node_ok p.1 -> Inv p.2 ->
  (Z.to_nat (v - lo + 1) <= fuel)%nat ->
  exists p',
    h_order (inexact_handle rO lazy_approximate_order get_coefficient) fuel p
    = Ok (Fin v, p')
    /\ node_ok p'.1 /\ Inv p'.2.
Proof.
  intros Hgc Hlo Hv Hz Hn Hs Hfuel.
  exact (inexact_handle_order_within rO lazy_approximate_order get_coefficient
           den Inv valid lo v Hgc Hlo Hv Hz p fuel (conj Hn Hs) Hfuel).
Qed.

(** X3. Indexing a [Stream_inexact] at its approximate order, when the
    coefficient there is zero, returns zero and moves the approximate
    order strictly up. *)
Theorem Stream_inexact_getitem_at_order (a : Z) (st : inexact R (option Z))
    (s : St) :
  coefficient_ok get_coefficient den Inv valid ->
  node_ok st -> Inv s ->
  _approximate_order st = Some (Fin a) -> den a = rO ->
  exists st' s' a',
    getitem_default rO lazy_approximate_order get_coefficient a (st, s)
    = Ok (rO, (st', s'))
    /\ _approximate_order st' = Some (Fin a') /\ a < a'.
Proof.
  intros Hgc Hn Hs Ha Hz.
  destruct (getitem_default_correct rO lazy_approximate_order get_coefficient
              den Inv valid a st s Hgc Hn Hs)
    as (st' & s' & Hg & _).
  rewrite Hz in Hg.
  destruct (Stream_inexact_getitem_refines rO lazy_approximate_order get_coefficient
              (iterate_coefficients get_coefficient) den Inv valid default_gen_ok
              a st s (fun _ => Hgc)
              (fun _ => default_generator_ok rO lazy_approximate_order
                          get_coefficient den Inv valid Hgc)
              Hn Hs Ha Hz rO st' s' Hg) as (a' & Ha' & Hlt).
  exists st', s', a'. split; [exact Hg|]. split; assumption.
Qed.

End InexactProperties.

Lemma Stream_inexact_getitem_tracks_order_witness :
  exists st' s',
    getitem_default 0 Stream_lazy_approximate_order
      (fun n (s : unit) => Ok (n * n, s)) 3 (Stream_function_init true 1 false, tt)
    = Ok (9, (st', s')).
Proof.
  destruct (Stream_inexact_getitem_tracks_order 0 Stream_lazy_approximate_order
              (fun n (s : unit) => Ok (n * n, s))
              (function_sequence 0 (fun n => n * n) 1) (fun _ => True)
              (fun k => 1 <= k) 3 (Stream_function_init true 1 false) tt
              (Stream_function_coefficient_ok 0 (fun n => n * n) 1)
              (Stream_function_init_inv 0 (fun n => n * n) true 1 false
                 ltac:(discriminate)) I)
    as (st' & s' & Hg & _).
  exists st', s'. exact Hg.
Defined.

Lemma Stream_inexact_order_first_nonzero_witness :
  exists p',
    h_order (Stream_function 0 (fun n => n * (n + 1))) 3
      (Stream_function_init false (-1) false, tt)
    = Ok (Fin 1, p').
Proof.
  destruct (Stream_inexact_order_first_nonzero 0 Stream_lazy_approximate_order
              (fun n (s : unit) => Ok (n * (n + 1), s))
              (function_sequence 0 (fun n => n * (n + 1)) (-1)) (fun _ => True)
              (fun k => -1 <= k) (-1) 1
              (Stream_function_init false (-1) false, tt) 3
              (Stream_function_coefficient_ok 0 (fun n => n * (n + 1)) (-1))
              (fun k Hk => Hk))
    as (p' & Hp & _).
  - vm_compute. discriminate.
  - intros k Hk. unfold function_sequence.
    destruct (Z.ltb_spec k (-1)); [reflexivity|].
    assert (k = -1 \/ k = 0) as [->| ->] by lia; reflexivity.
  - apply (Stream_function_init_inv 0 (fun n => n * (n + 1)) false (-1) false).
    discriminate.
  - exact I.
  - simpl. lia.
  - exists p'. exact Hp.
Defined.

Lemma Stream_inexact_getitem_at_order_witness :
  exists st' s' a',
    getitem_default 0 Stream_lazy_approximate_order
      (fun n (s : unit) => Ok (n, s)) 0 (Stream_function_init true 0 false, tt)
    = Ok (0, (st', s'))
    /\ _approximate_order st' = Some (Fin a') /\ 0 < a'.
Proof.
  apply (Stream_inexact_getitem_at_order 0 Stream_lazy_approximate_order
           (fun n (s : unit) => Ok (n, s))
           (function_sequence 0 (fun n => n) 0) (fun _ => True)
           (fun k => 0 <= k) 0 (Stream_function_init true 0 false) tt
           (Stream_function_coefficient_ok 0 (fun n => n) 0)
           (Stream_function_init_inv 0 (fun n => n) true 0 false
              ltac:(discriminate)) I eq_refl eq_refl).
Defined.

(** ** [Stream_exact]: the constructor, the order and [!=] *)

Section ExactProperties.
Context {R : Type} `{EqDecision R}.
Variable rO : R.

(** The constructor only fails at one of its two assertions. *)
Lemma Stream_exact_init_raises (ic : list R) (c : option R) (d o : option Z)
    (e : exn) :
  Stream_exact_init rO ic c d o = Raise e ->
  e = AssertionError
  /\ (init_degree rO (Z.of_nat (length ic)) (init_constant rO c) d (init_order o)
      < init_order o + Z.of_nat (length ic)
      \/ (first_nonzero rO ic = None /\ init_constant rO c = rO)).
Proof.
  unfold Stream_exact_init.
  set (c0 := init_constant rO c). set (o0 := init_order o).
  set (D0 := init_degree rO (Z.of_nat (length ic)) c0 d o0).
  destruct (Z.leb_spec (o0 + Z.of_nat (length ic)) D0) as [Hb|Hb]; simpl negb; cbv iota.
  2: { intros [= <-]. split; [reflexivity|]. left. lia. }
  destruct (first_nonzero rO ic) as [i|] eqn:Hfirst.
  - apply first_nonzero_Some in Hfirst as (v & rest & Hic & Hv).
    assert (Hdrop : drop i ic = v :: rest).
    { rewrite Hic. apply drop_app_length'. now rewrite length_replicate. }
    rewrite Hdrop.
    pose proof (normalize_nonzero rO v rest c0 D0 (o0 + Z.of_nat i) Hv) as Hn.
    cbv zeta in Hn.
    destruct (if o0 + Z.of_nat i + Z.of_nat (length (v :: rest)) =? D0
              then strip_constant c0 (v :: rest) D0 else (v :: rest, D0))
      as [l2 D2].
    cbn [fst snd] in Hn.
    destruct (bool_decide (strip_zeros rO l2 = [])) eqn:Hnil;
      destruct (truthy rO c0) eqn:Hc; simpl; try discriminate.
    exfalso. apply bool_decide_eq_true in Hnil. apply (truthy_false rO) in Hc.
    tauto.
  - rewrite bool_decide_eq_true_2 by reflexivity. simpl.
    destruct (truthy rO c0) eqn:Hc; simpl; [discriminate|].
    intros [= <-]. apply (truthy_false rO) in Hc. tauto.
Qed.

(** X4. [Stream_exact.__init__] fails exactly when the degree it arrives
    at is below [order + len(initial_coefficients)] or when the stream the
    arguments describe is zero everywhere, and it fails with
    [AssertionError]. *)
Theorem Stream_exact_init_fails_iff (ic : list R) (c : option R) (d o : option Z) :
  ((exists e, Stream_exact_init rO ic c d o = Raise e)
   <-> init_degree rO (Z.of_nat (length ic)) (init_constant rO c) d (init_order o)
       < init_order o + Z.of_nat (length ic)
       \/ (forall n, argument_sequence rO ic c d o n = rO))
  /\ (forall e, Stream_exact_init rO ic c d o = Raise e -> e = AssertionError)
  /\ Stream_exact_init rO ic c d o <> Diverge.
Proof.
  split; [split|split].
  - intros [e He]. apply Stream_exact_init_raises in He as [_ [Hb|[Hfirst Hc]]];
      [left; exact Hb|].
    destruct (Z.lt_ge_cases
                (init_degree rO (Z.of_nat (length ic)) (init_constant rO c) d
                   (init_order o))
                (init_order o + Z.of_nat (length ic))) as [Hb|Hb]; [left; exact Hb|].
    right. intros n. unfold argument_sequence. apply first_nonzero_None in Hfirst.
    rewrite Hc in *. set (D := init_degree rO (Z.of_nat (length ic)) rO d (init_order o)) in *.
    clearbody D. rewrite Hfirst.
    rewrite (denote_all_zero rO) by exact Hb.
    unfold denote. destruct (_ <=? n); [reflexivity|].
    destruct (n <? _); [reflexivity|]. now rewrite lookup_nil.
  - intros H. destruct (Stream_exact_init rO ic c d o) as [s|e|] eqn:Hinit.
    + exfalso. destruct (Stream_exact_init_sound rO ic c d o s Hinit) as [Hcan Hden].
      destruct H as [Hb|Hz].
      * revert Hinit. unfold Stream_exact_init.
        destruct (Z.leb_spec
                    (init_order o + Z.of_nat (length ic))
                    (init_degree rO (Z.of_nat (length ic)) (init_constant rO c) d
                       (init_order o))); [lia|discriminate].
      * apply (canonical_at_order rO s Hcan). rewrite Hden. apply Hz.
    + eauto.
    + exfalso. revert Hinit. unfold Stream_exact_init.
      destruct (negb _); [discriminate|].
      destruct (match first_nonzero rO ic with Some _ => _ | None => _ end)
        as [[l D] o'].
      destruct (negb _); discriminate.
  - intros e He. now apply Stream_exact_init_raises in He.
  - unfold Stream_exact_init. destruct (negb _); [discriminate|].
    destruct (match first_nonzero rO ic with Some _ => _ | None => _ end)
      as [[l D] o'].
    destruct (negb _); discriminate.
Qed.

(** X5. The order of an exact stream is its true order: for a stream the
    constructor returns, the coefficient at [order()] is not zero, every
    coefficient below it is zero, and every coefficient from [_degree] on
    is [_constant]. *)
Theorem Stream_exact_order_is_true_order (ic : list R) (c : option R)
    (d o : option Z) (s : Stream_exact) :
  Stream_exact_init rO ic c d o = Ok s ->
  Stream_exact_getitem rO s (Stream_exact_order s) <> rO
  /\ (forall n, n < Stream_exact_order s -> Stream_exact_getitem rO s n = rO)
  /\ (forall n, _degree s <= n -> Stream_exact_getitem rO s n = _constant s)
  /\ Stream_exact_order s <= _degree s.
Proof.
  intros Hs. destruct (Stream_exact_init_sound rO ic c d o s Hs) as [Hcan _].
  split; [now apply canonical_at_order|].
  split; [intros n Hn; now apply canonical_below|].
  split; [intros n Hn; now apply canonical_from_degree|].
  pose proof (can_bound rO s Hcan). unfold Stream_exact_order. lia.
Qed.

(** [Stream_exact.__ne__] between two exact streams. *)
Definition Stream_exact_ne (s t : @Stream_exact R) : bool :=
  negb (bool_decide (_degree s = _degree t))
  || negb (bool_decide (exact_approximate_order s = exact_approximate_order t))
  || negb (bool_decide (_initial_coefficients s = _initial_coefficients t))
  || negb (bool_decide (_constant s = _constant t)).

(** X6. For two exact streams the constructor returns, [s != t] is the
    negation of [s == t], and it holds exactly when the two streams do not
    have the same coefficients. *)
Theorem Stream_exact_ne_iff (ic ic' : list R) (c c' : option R)
    (d d' o o' : option Z) (s t : Stream_exact) :
  Stream_exact_init rO ic c d o = Ok s ->
  Stream_exact_init rO ic' c' d' o' = Ok t ->
  Stream_exact_ne s t = negb (Stream_exact_eq s t)
  /\ (Stream_exact_ne s t = true
      <-> ~ (forall n, Stream_exact_getitem rO s n = Stream_exact_getitem rO t n)).
Proof.
  intros Hs Ht.
  assert (Hneg : Stream_exact_ne s t = negb (Stream_exact_eq s t)).
  { unfold Stream_exact_ne, Stream_exact_eq. now rewrite !negb_andb. }
  split; [exact Hneg|]. rewrite Hneg, negb_true_iff.
  destruct (Stream_exact_init_sound rO ic c d o s Hs) as [Hcs _].
  destruct (Stream_exact_init_sound rO ic' c' d' o' t Ht) as [Hct _].
  split.
  - intros Hne Hall. apply (canonical_unique rO s t Hcs Hct) in Hall.
    apply (Stream_exact_eq_true s t) in Hall. congruence.
  - intros Hdiff. destruct (Stream_exact_eq s t) eqn:He; [|reflexivity].
    exfalso. apply Hdiff. apply (Stream_exact_eq_true s t) in He. now subst.
Qed.

End ExactProperties.

Lemma Stream_exact_order_is_true_order_witness :
  Stream_exact_getitem 0 (mkExact [1; 0; 1] 1 10 2) 2 <> 0.
Proof.
  exact (proj1 (Stream_exact_order_is_true_order 0 [0; 0; 1; 0; 1] (Some 1)
                  (Some 10) None (mkExact [1; 0; 1] 1 10 2) exact_doctest_2)).
Defined.

Lemma Stream_exact_ne_iff_witness :
  Stream_exact_ne (mkExact [1; 0; 1] 1 10 2) (mkExact [1] 0 3 2)
  = negb (Stream_exact_eq (mkExact [1; 0; 1] 1 10 2) (mkExact [1] 0 3 2)).
Proof.
  exact (proj1 (Stream_exact_ne_iff 0 [0; 0; 1; 0; 1] [0; 0; 1; 0; 0] (Some 1) None
                  (Some 10) None None None
                  (mkExact [1; 0; 1] 1 10 2) (mkExact [1] 0 3 2)
                  exact_doctest_2 exact_doctest_1)).
Defined.

(** ** [Stream_inexact.is_nonzero] and [Stream_inexact.__ne__] *)

Section Known.
Context {R : Type} `{EqDecision R}.
Variable rO : R.
Context {G St : Type}.

(** [Stream_inexact.is_nonzero]: [any(self._cache.values())] for a sparse
    stream, [any(self._cache)] for a dense one. *)
Definition Stream_inexact_is_nonzero (st : inexact R G) : bool :=
  match _cache st with
  | SparseCache d => existsb (fun kv => truthy rO kv.2) (map_to_list d)
  | DenseCache l => existsb (truthy rO) l
  end.

Variable lazy_approximate_order : St -> result (ext * St).
Variable get_coefficient : Z -> St -> result (R * St).
Variable next_iter : inexact R G -> St -> result (R * G * St).
Variable den : Z -> R.
Variable Inv : St -> Prop.
Variable valid : Z -> Prop.
Variable gen_ok : Z -> nat -> G -> Prop.

Lemma is_nonzero_sparse (d : gmap Z R) (n : Z) (v : R) :
  d !! n = Some v -> v <> rO ->
  existsb (fun kv => truthy rO kv.2) (map_to_list d) = true.
Proof.
  intros Hd Hv. apply existsb_exists. exists (n, v). split.
  - apply list_elem_of_In. now apply elem_of_map_to_list.
  - now apply (truthy_true rO).
Qed.

Lemma py_index_In {A : Type} (l : list A) (i : Z) (x : A) :
  py_index l i = Ok x -> In x l.
Proof.
  unfold py_index. destruct (_ <? 0); [discriminate|].
  destruct (l !! _) as [y|] eqn:Hy; [|discriminate].
  intros [= <-]. apply list_elem_of_In. now apply list_elem_of_lookup_2 in Hy.
Qed.

(** X7. [Stream_inexact.is_nonzero] answers from the cache alone. Once
    [self[n]] has returned a coefficient that is not zero, [is_nonzero()]
    is [True]; and under the invariant of the attributes (with a finite
    approximate order) it is [True] only for a stream that has a non-zero
    coefficient. *)
Theorem Stream_inexact_is_nonzero_spec :
  (forall n st s v st' s',
     Stream_inexact_getitem rO lazy_approximate_order get_coefficient next_iter
       n (st, s) = Ok (v, (st', s')) ->
     v <> rO -> Stream_inexact_is_nonzero st' = true)
  /\ (forall st a,
        node_inv rO lazy_approximate_order den Inv valid gen_ok st ->
        _approximate_order st = Some (Fin a) ->
        Stream_inexact_is_nonzero st = true -> exists n, den n <> rO).
Proof.
  split.
  - intros n st s v st' s' Hg Hv. unfold Stream_inexact_getitem in Hg.
    destruct (approximate_order_attr lazy_approximate_order (st, s))
      as [[a [st1 s1]]|e|]; simpl in Hg; try discriminate.
    destruct a as [a|]; [|inversion Hg; congruence].
    destruct (n <? a); [inversion Hg; congruence|].
    unfold Stream_inexact_is_nonzero.
    destruct (_cache st1) as [d|l] eqn:Hc.
    + unfold sparse_getitem in Hg. destruct (d !! n) as [c|] eqn:Hdn.
      * inversion Hg; subst. rewrite Hc. now apply (is_nonzero_sparse d n v).
      * destruct (get_coefficient n s1) as [[c s2]|e|]; simpl in Hg; try discriminate.
        destruct (_true_order st1 || (a <? n)).
        { inversion Hg; subst. simpl.
          apply (is_nonzero_sparse _ n v); [apply lookup_insert_eq|assumption]. }
        destruct (truthy rO c) eqn:Ht.
        { inversion Hg; subst. simpl.
          apply (is_nonzero_sparse _ n v); [apply lookup_insert_eq|assumption]. }
        destruct (sparse_scan rO _ d (a + 1)) as [[ao found]|e|]; simpl in Hg;
          try discriminate.
        inversion Hg; subst. apply (truthy_false rO) in Ht. contradiction.
    + unfold dense_getitem in Hg.
      destruct (dense_search rO next_iter _ n st1 s1) as [[st2 s2]|e|];
        simpl in Hg; try discriminate.
      destruct (_true_order st2); [|inversion Hg; congruence].
      destruct (_approximate_order st2) as [[a2|]|]; try discriminate.
      destruct (_cache st2) as [d2|l2]; [discriminate|].
      destruct (dense_extend next_iter _ st2 s2) as [[st3 s3]|e|]; simpl in Hg;
        try discriminate.
      destruct (_cache st3) as [d3|l3] eqn:Hc3; [discriminate|].
      destruct (py_index l3 (n - a2)) as [c|e|] eqn:Hi; simpl in Hg; try discriminate.
      inversion Hg; subst. rewrite Hc3. apply existsb_exists. exists v.
      split; [now apply py_index_In in Hi|now apply (truthy_true rO)].
  - intros st a Hn Ha Hnz. unfold node_inv in Hn. rewrite Ha in Hn.
    destruct Hn as (_ & _ & _ & Hcache). unfold cache_inv in Hcache.
    unfold Stream_inexact_is_nonzero in Hnz.
    destruct (_cache st) as [d|l].
    + destruct Hcache as [_ Hvals]. apply existsb_exists in Hnz as ([k v] & Hin & Ht).
      apply list_elem_of_In, elem_of_map_to_list in Hin. simpl in Ht.
      apply (truthy_true rO) in Ht. rewrite (Hvals k v Hin) in Ht. eauto.
    + destruct Hcache as (_ & Hvals & _). apply existsb_exists in Hnz as (v & Hin & Ht).
      apply list_elem_of_In, list_elem_of_lookup_1 in Hin as [j Hj].
      apply (truthy_true rO) in Ht. rewrite (Hvals j v Hj) in Ht. eauto.
Qed.

End Known.

(** [a < b] for two orders. *)
Definition ext_ltb (a b : ext) : bool :=
  match a, b with
  | Fin x, Fin y => x <? y
  | Fin _, PosInf => true
  | PosInf, _ => false
  end.

Section NotEqual.
Context {R : Type} `{EqDecision R}.
Variable rO : R.
Context {G1 G2 St : Type}.
Variable lazy_self lazy_other : St -> result (ext * St).

(** [x._true_order and y._approximate_order > x._approximate_order], with
    the two attribute reads in the order Python makes them. *)
Definition known_below {Gx Gy : Type} (lazy_x lazy_y : St -> result (ext * St))
    (x : inexact R Gx) (y : inexact R Gy) (s : St)
  : result (bool * (inexact R Gx * inexact R Gy * St)) :=
  if _true_order x then
    let* (ay, py) := approximate_order_attr lazy_y (y, s) in
    let* (ax, px) := approximate_order_attr lazy_x (x, py.2) in
    Ok (ext_ltb ax ay, (px.1, py.1, px.2))
  else Ok (false, (x, y, s)).

(** [Stream_inexact.__ne__] for two instances of [Stream_inexact]; the
    two booleans are what [self.is_uninitialized()] and
    [other.is_uninitialized()] return. *)
Definition Stream_inexact_ne (self_uninitialized other_uninitialized : bool)
    (self : inexact R G1) (other : inexact R G2) (s : St)
  : result (bool * (inexact R G1 * inexact R G2 * St)) :=
  if negb (eqb self_uninitialized other_uninitialized)
  then Ok (true, (self, other, s))
  else
    match _cache self, _cache other with
    | SparseCache d1, SparseCache d2 =>
        Ok (existsb (fun kv => match d2 !! kv.1 with
                               | Some w => negb (bool_decide (w = kv.2))
                               | None => false
                               end) (map_to_list d1),
            (self, other, s))
    | DenseCache _, DenseCache _ =>
        let* (b, q) := known_below lazy_self lazy_other self other s in
        if b then Ok (true, q)
        else
          let* (b, q') := known_below lazy_other lazy_self q.1.2 q.1.1 q.2 in
          let q := (q'.1.2, q'.1.1, q'.2) in
          if b then Ok (true, q)
          else if negb (_true_order q.1.1) || negb (_true_order q.1.2)
          then Ok (false, q)
          else
            match _cache q.1.1, _cache q.1.2 with
            | DenseCache l1, DenseCache l2 =>
                Ok (existsb (fun ij => negb (bool_decide (ij.1 = ij.2))) (zip l1 l2), q)
            | _, _ => Raise TypeError
            end
    | _, _ => Ok (false, (self, other, s))
    end.

End NotEqual.

Section NotEqualFacts.
Context {R : Type} `{EqDecision R}.
Variable rO : R.
Context {St : Type}.
Variable Inv : St -> Prop.

Lemma approximate_order_attr_true_order {G : Type}
    (lazy_approximate_order : St -> result (ext * St)) (st st' : inexact R G)
    (s s' : St) (a : ext) :
  approximate_order_attr lazy_approximate_order (st, s) = Ok (a, (st', s')) ->
  _true_order st' = _true_order st.
Proof.
  unfold approximate_order_attr. simpl.
  destruct (_approximate_order st); [intros [= <- <- <-]; reflexivity|].
  destruct (lazy_approximate_order s) as [[a0 s0]|e|]; simpl; try discriminate.
  intros [= <- <- <-]. reflexivity.
Qed.

(** What the comparison of the orders establishes. *)
Lemma known_below_spec {Gx Gy : Type} (lazy_x lazy_y : St -> result (ext * St))
    (denx deny : Z -> R) (validx validy : Z -> Prop)
    (gx : Z -> nat -> Gx -> Prop) (gy : Z -> nat -> Gy -> Prop)
    (x : inexact R Gx) (y : inexact R Gy) (s : St) :
  node_inv rO lazy_x denx Inv validx gx x ->
  node_inv rO lazy_y deny Inv validy gy y ->
  Inv s ->
  exists b x' y' s',
    known_below lazy_x lazy_y x y s = Ok (b, (x', y', s'))
    /\ node_inv rO lazy_x denx Inv validx gx x'
    /\ node_inv rO lazy_y deny Inv validy gy y'
    /\ Inv s'
    /\ _cache x' = _cache x /\ _cache y' = _cache y
    /\ _true_order x' = _true_order x /\ _true_order y' = _true_order y
    /\ (forall a, _approximate_order x = Some a -> _approximate_order x' = Some a)
    /\ (forall a, _approximate_order y = Some a -> _approximate_order y' = Some a)
    /\ (b = true -> exists n, denx n <> deny n)
    /\ (b = false -> _true_order x = true ->
        forall ax ay, _approximate_order x' = Some (Fin ax) ->
                      _approximate_order y' = Some (Fin ay) -> ay <= ax).
Proof.
  intros Hx Hy Hs. unfold known_below.
  destruct (_true_order x) eqn:Hto.
  2: { exists false, x, y, s. split; [reflexivity|]. repeat split; try assumption;
         try tauto; discriminate. }
  destruct (approximate_order_attr_correct rO lazy_y deny Inv validy gy y s Hy Hs)
    as (ay & y' & s1 & Hay & Hay' & Hy' & Hs1 & Hrefy & Hcy & Hby).
  rewrite Hay. simpl.
  destruct (approximate_order_attr_correct rO lazy_x denx Inv validx gx x s1 Hx Hs1)
    as (ax & x' & s2 & Hax & Hax' & Hx' & Hs2 & Hrefx & Hcx & Hbx).
  rewrite Hax. simpl.
  pose proof (approximate_order_attr_true_order lazy_y y y' s s1 ay Hay) as Hty.
  pose proof (approximate_order_attr_true_order lazy_x x x' s1 s2 ax Hax) as Htx.
  exists (ext_ltb ax ay), x', y', s2. split; [reflexivity|].
  split; [assumption|]. split; [assumption|]. split; [assumption|].
  split; [assumption|]. split; [assumption|]. split; [congruence|].
  split; [assumption|].
  split.
  { intros a Ha. unfold approximate_order_attr in Hax. simpl in Hax.
    rewrite Ha in Hax. inversion Hax; subst. exact Ha. }
  split.
  { intros a Ha. unfold approximate_order_attr in Hay. simpl in Hay.
    rewrite Ha in Hay. inversion Hay; subst. exact Ha. }
  split.
  - intros Hlt. destruct ax as [ax|]; [|discriminate].
    exists ax. unfold node_inv in Hx'. rewrite Hax' in Hx'.
    destruct Hx' as (_ & _ & Hnz & _).
    assert (Hzero : deny ax = rO).
    { apply Hby. destruct ay as [ay|]; simpl in *; [now apply Z.ltb_lt|exact I]. }
    rewrite Hzero. apply Hnz. congruence.
  - intros Hge _ ax0 ay0 Hax0 Hay0. rewrite Hax' in Hax0. rewrite Hay' in Hay0.
    inversion Hax0; inversion Hay0; subst. simpl in Hge.
    apply Z.ltb_ge in Hge. exact Hge.
Qed.

End NotEqualFacts.

Section NotEqualSound.
Context {R : Type} `{EqDecision R}.
Variable rO : R.
Context {G1 G2 St : Type}.
Variable lazy_self lazy_other : St -> result (ext * St).
Variable den_self den_other : Z -> R.
Variable Inv : St -> Prop.
Variable valid_self valid_other : Z -> Prop.
Variable gen_self : Z -> nat -> G1 -> Prop.
Variable gen_other : Z -> nat -> G2 -> Prop.

Lemma sparse_cache_sound {G : Type} (lazy_approximate_order : St -> result (ext * St))
    (den : Z -> R) (valid : Z -> Prop) (gen_ok : Z -> nat -> G -> Prop)
    (st : inexact R G) (d : gmap Z R) (k : Z) (v : R) :
  node_inv rO lazy_approximate_order den Inv valid gen_ok st ->
  _approximate_order st <> Some PosInf ->
  _cache st = SparseCache d -> d !! k = Some v -> v = den k.
Proof.
  intros Hn Hfin Hc Hk. unfold node_inv in Hn.
  destruct (_approximate_order st) as [[a|]|]; [|congruence|].
  - destruct Hn as (_ & _ & _ & Hcache). unfold cache_inv in Hcache.
    rewrite Hc in Hcache. now apply Hcache.
  - destruct Hn as (_ & _ & Hcache). rewrite Hc in Hcache. subst d.
    rewrite lookup_empty in Hk. discriminate.
Qed.

Lemma dense_cache_sound {G : Type} (lazy_approximate_order : St -> result (ext * St))
    (den : Z -> R) (valid : Z -> Prop) (gen_ok : Z -> nat -> G -> Prop)
    (st : inexact R G) (a : Z) (l : list R) (j : nat) (v : R) :
  node_inv rO lazy_approximate_order den Inv valid gen_ok st ->
  _approximate_order st = Some (Fin a) ->
  _cache st = DenseCache l -> l !! j = Some v -> v = den (a + Z.of_nat j).
Proof.
  intros Hn Ha Hc Hj. unfold node_inv in Hn. rewrite Ha in Hn.
  destruct Hn as (_ & _ & _ & Hcache). unfold cache_inv in Hcache.
  rewrite Hc in Hcache. destruct Hcache as (_ & Hvals & _). now apply Hvals.
Qed.

Lemma true_order_known {G : Type} (lazy_approximate_order : St -> result (ext * St))
    (den : Z -> R) (valid : Z -> Prop) (gen_ok : Z -> nat -> G -> Prop)
    (st : inexact R G) :
  node_inv rO lazy_approximate_order den Inv valid gen_ok st ->
  _approximate_order st <> Some PosInf ->
  _true_order st = true ->
  exists a, _approximate_order st = Some (Fin a).
Proof.
  intros Hn Hfin Ht. unfold node_inv in Hn.
  destruct (_approximate_order st) as [[a|]|]; [eauto|congruence|].
  destruct Hn as (_ & Hf & _). congruence.
Qed.

(** X8. [Stream_inexact.__ne__] never reports two streams with the same
    coefficients as different: for two nodes that satisfy the invariant of
    their attributes (with approximate orders that are not infinite) and
    are both initialized or both not, [self != other] is [True] only when
    the two sequences differ at some index. *)
Theorem Stream_inexact_ne_sound (u : bool) (self self' : inexact R G1)
    (other other' : inexact R G2) (s s' : St) :
  node_inv rO lazy_self den_self Inv valid_self gen_self self ->
  node_inv rO lazy_other den_other Inv valid_other gen_other other ->
  Inv s ->
  _approximate_order self <> Some PosInf ->
  _approximate_order other <> Some PosInf ->
  Stream_inexact_ne lazy_self lazy_other u u self other s
  = Ok (true, (self', other', s')) ->
  exists n, den_self n <> den_other n.
Proof.
  intros Hself Hother Hs Hfs Hfo. unfold Stream_inexact_ne.
  rewrite eqb_reflx. simpl.
  destruct (_cache self) as [d1|l1] eqn:Hc1; destruct (_cache other) as [d2|l2] eqn:Hc2;
    try discriminate.
  - intros [= Hex _ _ _]. apply existsb_exists in Hex as ([k v] & Hin & Hne).
    apply list_elem_of_In, elem_of_map_to_list in Hin. simpl in Hne.
    destruct (d2 !! k) as [w|] eqn:Hw; [|discriminate].
    apply negb_true_iff, bool_decide_eq_false in Hne.
    exists k.
    rewrite <- (sparse_cache_sound lazy_self den_self valid_self gen_self
                  self d1 k v Hself Hfs Hc1 Hin).
    rewrite <- (sparse_cache_sound lazy_other den_other valid_other gen_other
                  other d2 k w Hother Hfo Hc2 Hw).
    congruence.
  - destruct (known_below_spec rO Inv lazy_self lazy_other den_self den_other
                valid_self valid_other gen_self gen_other self other s
                Hself Hother Hs)
      as (b & x1 & y1 & s1 & Hk & Hx1 & Hy1 & Hs1 & Hcx1 & Hcy1 & Htx1 & Hty1
          & Hax1 & Hay1 & Hb1 & Hle1).
    rewrite Hk. simpl. destruct b; [intros _; now apply Hb1|].
    destruct (known_below_spec rO Inv lazy_other lazy_self den_other den_self
                valid_other valid_self gen_other gen_self y1 x1 s1
                Hy1 Hx1 Hs1)
      as (b & y2 & x2 & s2 & Hk2 & Hy2 & Hx2 & Hs2 & Hcy2 & Hcx2 & Hty2 & Htx2
          & Hay2 & Hax2 & Hb2 & Hle2).
    rewrite Hk2. simpl.
    destruct b.
    { intros _. destruct (Hb2 eq_refl) as [n Hn]. exists n. congruence. }
    destruct (_true_order x2) eqn:Htx; [|discriminate].
    destruct (_true_order y2) eqn:Hty; [|discriminate]. simpl.
    rewrite Hcx2, Hcx1, Hc1, Hcy2, Hcy1, Hc2.
    intros [= Hex _ _ _]. apply existsb_exists in Hex as ([v w] & Hin & Hne).
    apply list_elem_of_In, list_elem_of_lookup_1 in Hin as [j Hj].
    apply lookup_zip_with_Some in Hj as (v' & w' & [= -> ->] & Hv & Hw).
    simpl in Hne. apply negb_true_iff, bool_decide_eq_false in Hne.
    destruct (true_order_known lazy_self den_self valid_self gen_self self
                Hself Hfs ltac:(congruence)) as [a1 Ha1].
    destruct (true_order_known lazy_other den_other valid_other gen_other other
                Hother Hfo ltac:(congruence)) as [a2 Ha2].
    pose proof (Hax2 _ (Hax1 _ Ha1)) as Hxa. pose proof (Hay2 _ (Hay1 _ Ha2)) as Hya.
    assert (a2 <= a1) by (apply (Hle1 eq_refl ltac:(congruence) a1 a2); auto).
    assert (a1 <= a2) by (apply (Hle2 eq_refl ltac:(congruence) a2 a1); auto).
    assert (a1 = a2) as -> by lia.
    exists (a2 + Z.of_nat j).
    rewrite <- (dense_cache_sound lazy_self den_self valid_self gen_self
                  x2 a2 l1 j v' Hx2 Hxa ltac:(congruence) Hv).
    rewrite <- (dense_cache_sound lazy_other den_other valid_other gen_other
                  y2 a2 l2 j w' Hy2 Hya ltac:(congruence) Hw).
    exact Hne.
Qed.

End NotEqualSound.

Section ExactNotEqual.
Context {R : Type} `{EqDecision R}.
Variable rO : R.
Context {G St : Type}.
Variable lazy_approximate_order : St -> result (ext * St).

(** [Stream_exact.__ne__] when [other] is an instance of [Stream_inexact]
    (neither exact nor [Stream_zero]); the boolean is what
    [other.is_uninitialized()] returns. *)
Definition Stream_exact_ne_inexact (other_uninitialized : bool)
    (self : @Stream_exact R) (other : inexact R G) (s : St)
  : result (bool * (inexact R G * St)) :=
  if other_uninitialized then Ok (true, (other, s))
  else
    match _cache other with
    | SparseCache d =>
        Ok (existsb (fun kv => negb (bool_decide (Stream_exact_getitem rO self kv.1 = kv.2)))
                    (map_to_list d),
            (other, s))
    | DenseCache l =>
        if _true_order other then
          let* (a, p) := approximate_order_attr lazy_approximate_order (other, s) in
          match a with
          | Fin a =>
              Ok (existsb (fun ic => negb (bool_decide (Stream_exact_getitem rO self ic.1 = ic.2)))
                          (zip (seqZ a (Z.of_nat (length l))) l),
                  p)
          | PosInf => Raise TypeError
          end
        else
          let* (a, p) := approximate_order_attr lazy_approximate_order (other, s) in
          Ok (ext_ltb (Fin (exact_approximate_order self)) a, p)
    end.

Variable den : Z -> R.
Variable Inv : St -> Prop.
Variable valid : Z -> Prop.
Variable gen_ok : Z -> nat -> G -> Prop.

(** X9. [Stream_exact.__ne__] against an initialized inexact stream: for
    an exact stream in the form the constructor produces and a node that
    satisfies the invariant of the attributes of [Stream_inexact] (its
    cache holds its own coefficients at its own indices, which a
    [Stream_truncated] sharing the cache of its series does not),
    [self != other] is [True] only when the two sequences differ at some
    index. *)
Theorem Stream_exact_ne_inexact_sound (self : @Stream_exact R)
    (other other' : inexact R G) (s s' : St) :
  canonical rO self ->
  node_inv rO lazy_approximate_order den Inv valid gen_ok other ->
  Inv s ->
  _approximate_order other <> Some PosInf ->
  Stream_exact_ne_inexact false self other s = Ok (true, (other', s')) ->
  exists n, Stream_exact_getitem rO self n <> den n.
Proof.
  intros Hcan Hn Hs Hfin. unfold Stream_exact_ne_inexact.
  destruct (_cache other) as [d|l] eqn:Hc.
  - intros [= Hex _ _]. apply existsb_exists in Hex as ([k v] & Hin & Hne).
    apply list_elem_of_In, elem_of_map_to_list in Hin. simpl in Hne.
    apply negb_true_iff, bool_decide_eq_false in Hne. exists k.
    now rewrite <- (sparse_cache_sound rO Inv lazy_approximate_order den valid
                      gen_ok other d k v Hn Hfin Hc Hin).
  - destruct (approximate_order_attr_correct rO lazy_approximate_order den Inv valid
                gen_ok other s Hn Hs)
      as (a & st1 & s1 & Ha & Hao1 & Hn1 & Hs1 & _ & Hc1 & Hb).
    rewrite Ha. simpl. destruct (_true_order other) eqn:Hto.
    + destruct a as [a|]; [|discriminate].
      intros [= Hex _ _]. apply existsb_exists in Hex as ([i v] & Hin & Hne).
      apply list_elem_of_In, list_elem_of_lookup_1 in Hin as [j Hj].
      apply lookup_zip_with_Some in Hj as (i' & v' & [= -> ->] & Hi & Hv).
      apply lookup_seqZ in Hi as [-> _]. simpl in Hne.
      apply negb_true_iff, bool_decide_eq_false in Hne.
      exists (a + Z.of_nat j).
      now rewrite <- (dense_cache_sound rO Inv lazy_approximate_order den valid
                        gen_ok st1 a l j v' Hn1 Hao1 ltac:(congruence) Hv).
    + intros [= Hlt _ _]. exists (exact_approximate_order self).
      assert (Hz : den (exact_approximate_order self) = rO).
      { apply Hb. destruct a as [a|]; simpl in *; [now apply Z.ltb_lt|exact I]. }
      rewrite Hz. now apply canonical_at_order.
Qed.

End ExactNotEqual.

(** The doctest of [Stream_inexact.__ne__]: the sparse streams of [n] and
    of [n^2], after [f[2]] and [g[2]] were asked. *)
Definition ne_doctest_f : inexact Z (option Z) :=
  mkInexact false (Some (Fin 0)) (SparseCache {[2 := 2]}) None.

Definition ne_doctest_g : inexact Z (option Z) :=
  mkInexact false (Some (Fin 0)) (SparseCache {[2 := 4]}) None.

Lemma ne_doctest_inv (function : Z -> Z) (v : Z) :
  function 2 = v ->
  function_inv 0 function 0
    (mkInexact false (Some (Fin 0)) (SparseCache {[2 := v]}) None, tt).
Proof.
  intros Hv. unfold function_inv, node_inv. simpl. split; [|split; [|split]].
  - intros k Hk. unfold function_sequence. destruct (Z.ltb_spec k 0); [reflexivity|lia].
  - intros k Hk. exact Hk.
  - discriminate.
  - unfold cache_inv. simpl. split.
    + intros _. apply lookup_singleton_ne. discriminate.
    + intros k w Hk. apply lookup_singleton_Some in Hk as [<- <-].
      unfold function_sequence. simpl. now rewrite Hv.
Qed.

Lemma Stream_inexact_ne_sound_witness :
  exists n, function_sequence 0 (fun n => n) 0 n
            <> function_sequence 0 (fun n => n * n) 0 n.
Proof.
  apply (Stream_inexact_ne_sound 0 Stream_lazy_approximate_order
           Stream_lazy_approximate_order
           (function_sequence 0 (fun n => n) 0)
           (function_sequence 0 (fun n => n * n) 0)
           (fun _ : unit => True) (fun k => 0 <= k) (fun k => 0 <= k)
           default_gen_ok default_gen_ok false
           ne_doctest_f ne_doctest_f ne_doctest_g ne_doctest_g tt tt).
  - apply (ne_doctest_inv (fun n => n) 2). reflexivity.
  - apply (ne_doctest_inv (fun n => n * n) 4). reflexivity.
  - exact I.
  - discriminate.
  - discriminate.
  - vm_compute. reflexivity.
Defined.

Lemma Stream_exact_ne_inexact_sound_witness :
  exists n, Stream_exact_getitem 0 (mkExact [1] 0 3 2) n
            <> function_sequence 0 (fun n => n * n) 0 n.
Proof.
  apply (Stream_exact_ne_inexact_sound 0 Stream_lazy_approximate_order
           (function_sequence 0 (fun n => n * n) 0)
           (fun _ : unit => True) (fun k => 0 <= k) default_gen_ok
           (mkExact [1] 0 3 2) ne_doctest_g ne_doctest_g tt tt).
  - apply (Stream_exact_init_sound 0 [0; 0; 1; 0; 0] None None None).
    exact exact_doctest_1.
  - apply (ne_doctest_inv (fun n => n * n) 4). reflexivity.
  - exact I.
  - discriminate.
  - vm_compute. reflexivity.
Defined.

(** ** Cauchy product and Cauchy inverse, coefficient by coefficient *)

Section CauchyProperties.
Context {R : Type} `{EqDecision R}.
Variables (rO rI : R) (radd rmul rsub : R -> R -> R) (ropp : R -> R).
Hypothesis Rth : ring_theory rO rI radd rmul rsub ropp eq.
Context {St : Type}.
Variable Inv : St -> Prop.


Variable rinv : R -> result R.
Variable series : handle R St.
Variables fuel fuel0 : nat.
Variable gden : Z -> R.
Variable vg : Z.

(** X11. [Stream_cauchy_invert]: for a series of order [vg] whose leading
    coefficient has the inverse [ainv], the inverse node returns zero below
    [-vg], [ainv] at [-vg], and at [-vg + j] the solution of the recurrence
    of the inverse; its approximate order is [-vg]. *)
Theorem Stream_cauchy_invert_getitem_spec (ainv : R) (n : Z)
    (p : inexact R invert_iter * St) :
  lawful rO series gden Inv ->
  order_within series Inv vg fuel0 -> (fuel0 <= fuel)%nat ->
  gden vg <> rO -> rinv (gden vg) = Ok ainv -> rmul ainv (gden vg) = rI ->
  invert_inv rO radd rmul ropp series fuel gden vg ainv Inv p.1 -> Inv p.2 ->
  (exists p',
     h_getitem (Stream_cauchy_invert rO radd rmul ropp rinv series fuel) n p
     = Ok (inverse_sequence rO radd rmul ropp gden vg ainv n, p')
     /\ invert_inv rO radd rmul ropp series fuel gden vg ainv Inv p'.1
     /\ Inv p'.2)
  /\ (n < - vg -> inverse_sequence rO radd rmul ropp gden vg ainv n = rO)
  /\ inverse_sequence rO radd rmul ropp gden vg ainv (- vg) = ainv
  /\ ainv <> rO
  /\ invert_inv rO radd rmul ropp series fuel gden vg ainv Inv
       (Stream_cauchy_invert_init None).
Proof.
  intros Hser Hord Hfuel Hvg Hrinv Hainv Hp Hs.
  split; [|split; [|split; [|split]]].
  - destruct (law_getitem _ _ _ _
                (Stream_cauchy_invert_lawful rO rI radd rmul ropp
                   (ring_theory_laws rO rI radd rmul rsub ropp Rth) rinv
                   series fuel fuel0 gden vg ainv Inv Hser Hord Hfuel Hvg Hrinv Hainv)
                n p (conj Hp Hs)) as (p' & Hg & Hp' & Hs').
    exists p'. tauto.
  - intros Hn. unfold inverse_sequence.
    destruct (Z.ltb_spec n (- vg)); [reflexivity|lia].
  - unfold inverse_sequence. rewrite Z.ltb_irrefl.
    replace (- vg + vg) with 0 by lia. reflexivity.
  - exact (ainv_nonzero rO rI radd rmul ropp
             (ring_theory_laws rO rI radd rmul rsub ropp Rth) gden vg ainv Hvg Hainv).
  - exact (Stream_cauchy_invert_init_inv rO rI radd rmul ropp
             (ring_theory_laws rO rI radd rmul rsub ropp Rth) series
             fuel fuel0 gden vg ainv Inv Hord Hfuel Hainv).
Qed.

(** X12. When the leading coefficient of the series has no inverse, a
    fresh [Stream_cauchy_invert] still returns zero below [-vg], and every
    index from [-vg] on raises the error of the inversion: the lazy
    attribute [_ainv] is only computed by the generator. *)
Theorem Stream_cauchy_invert_not_invertible (e : exn) (n : Z) (s : St) :
  lawful rO series gden Inv ->
  order_within series Inv vg fuel0 -> (fuel0 <= fuel)%nat ->
  rinv (gden vg) = Raise e ->
  Inv s ->
  (n < - vg ->
   exists p',
     h_getitem (Stream_cauchy_invert rO radd rmul ropp rinv series fuel) n
       (Stream_cauchy_invert_init None, s) = Ok (rO, p'))
  /\ (- vg <= n ->
      h_getitem (Stream_cauchy_invert rO radd rmul ropp rinv series fuel) n
        (Stream_cauchy_invert_init None, s) = Raise e).
Proof.
  intros Hser Hord Hfuel Hrinv Hs.
  destruct (Hord s fuel Hs Hfuel) as (s1 & Ho1 & Hs1).
  simpl. unfold Stream_cauchy_invert_getitem, Stream_inexact_getitem,
    approximate_order_attr, Stream_cauchy_invert_approximate_order. simpl.
  rewrite Ho1. simpl. split.
  - intros Hn. destruct (Z.ltb_spec n (- vg)); [eauto|lia].
  - intros Hn. destruct (Z.ltb_spec n (- vg)); [lia|].
    unfold dense_getitem.
    destruct (Z.to_nat (n - - vg + 1)) as [|k] eqn:Hk; [lia|].
    simpl. destruct (Z.leb_spec (- vg) n); [|lia]. simpl.
    unfold Stream_cauchy_invert_next, ainv_attr. simpl.
    destruct (Hord s1 fuel Hs1 Hfuel) as (s2 & Ho2 & Hs2). rewrite Ho2. simpl.
    destruct (law_getitem _ _ _ _ Hser vg s2 Hs2) as (s3 & Hg & _).
    rewrite Hg. simpl. rewrite Hrinv. reflexivity.
Qed.

End CauchyProperties.

Lemma function_sequence_below_1 (function : Z -> Z) (ao : Z) :
  0 <= ao -> function 0 = 0 ->
  forall k, k < 1 -> function_sequence 0 function ao k = 0.
Proof.
  intros Hao H0 k Hk. unfold function_sequence.
  destruct (Z.ltb_spec k ao); [reflexivity|].
  assert (k = 0) as -> by lia. exact H0.
Qed.


Lemma Stream_cauchy_invert_getitem_spec_witness :
  exists p',
    h_getitem (Stream_cauchy_invert 0 Z.add Z.mul Z.opp unit_inverse
                 (Stream_function 0 (fun n => n * n)) 5) 0
      (Stream_cauchy_invert_init None, (Stream_function_init false 1 false, tt))
    = Ok (-4, p').
Proof.
  assert (Hlead : function_sequence 0 (fun n => n * n) 1 1 <> 0)
    by (vm_compute; discriminate).
  assert (Hzero := function_sequence_below_1 (fun n => n * n) 1 ltac:(lia) eq_refl).
  assert (Hord := Stream_function_order_within 0 (fun n => n * n) 1 1 Hlead Hzero).
  destruct (Stream_cauchy_invert_getitem_spec 0 1 Z.add Z.mul Z.sub Z.opp Zth
              (function_inv 0 (fun n => n * n) 1) unit_inverse
              (Stream_function 0 (fun n => n * n)) 5 (Z.to_nat (1 - 1 + 1))
              (function_sequence 0 (fun n => n * n) 1) 1 1 0
              (Stream_cauchy_invert_init None, (Stream_function_init false 1 false, tt))
              (Stream_function_lawful 0 (fun n => n * n) 1) Hord
              ltac:(simpl; lia) Hlead eq_refl eq_refl)
    as [(p' & Hg & _) _].
  - apply (Stream_cauchy_invert_init_inv 0 1 Z.add Z.mul Z.opp
             (ring_theory_laws 0 1 Z.add Z.mul Z.sub Z.opp Zth)
             (Stream_function 0 (fun n => n * n)) 5 (Z.to_nat (1 - 1 + 1))
             (function_sequence 0 (fun n => n * n) 1) 1 1
             (function_inv 0 (fun n => n * n) 1) Hord ltac:(simpl; lia) eq_refl).
  - apply Stream_function_init_inv. discriminate.
  - exists p'. exact Hg.
Defined.

Lemma Stream_cauchy_invert_not_invertible_witness :
  h_getitem (Stream_cauchy_invert 0 Z.add Z.mul Z.opp unit_inverse
               (Stream_function 0 (fun n => 2 * n)) 5) 0
    (Stream_cauchy_invert_init None, (Stream_function_init false 1 false, tt))
  = Raise ZeroDivisionError.
Proof.
  assert (Hlead : function_sequence 0 (fun n => 2 * n) 1 1 <> 0)
    by (vm_compute; discriminate).
  assert (Hzero := function_sequence_below_1 (fun n => 2 * n) 1 ltac:(lia) eq_refl).
  apply (Stream_cauchy_invert_not_invertible 0 Z.add Z.mul Z.opp
           (function_inv 0 (fun n => 2 * n) 1) unit_inverse
           (Stream_function 0 (fun n => 2 * n)) 5 (Z.to_nat (1 - 1 + 1))
           (function_sequence 0 (fun n => 2 * n) 1) 1 ZeroDivisionError 0
           (Stream_function_init false 1 false, tt)
           (Stream_function_lawful 0 (fun n => 2 * n) 1)
           (Stream_function_order_within 0 (fun n => 2 * n) 1 1 Hlead Hzero)
           ltac:(simpl; lia) eq_refl).
  - apply Stream_function_init_inv. discriminate.
  - lia.
Defined.

(** ** Infinite sums and products over well-behaved factors *)

Module OperatorProperties.
Import InfiniteOperator.

#[local] Arguments bound_ltb : simpl never.
#[local] Arguments bound_eqb : simpl never.
#[local] Arguments bound_leb_Z : simpl never.

Section Properties.
Context {R : Type} `{EqDecision R}.
Variable rO : R.
Context {St factor series : Type}.
Variable _coeff_stream : factor -> coeff_stream R St.
Variable initial : factor -> series.
Variable apply_operator : series -> factor -> series.
Variable series_getitem : series -> Z -> St -> result (R * St).

(** X13. With a partial result committed up to the order [o], indexing at
    [n >= o] raises [ValueError] when the next factor has a non-zero
    coefficient below [o], for every factor stream that is lawful and
    moves its approximate order up when indexed at a zero (the instances
    of [Stream_inexact] and the exact streams). *)
Theorem Stream_infinite_operator_refuses_lower_order {I : Type}
    (next : I -> option (factor * I))
    (op : infinite_operator I series) (s : St) (c : series)
    (f : factor) (it : I) (h : handle R St) (den : Z -> R) (Inv : St -> Prop)
    (v n : Z) :
  _cur op = Some c ->
  next (_op_iter op) = Some (f, it) ->
  _coeff_stream f = OtherStream h ->
  lawful rO h den Inv -> refining rO h Inv -> Inv s ->
  den v <> rO -> bound_ltb (Order (Fin v)) (_cur_order op) = true ->
  bound_leb_Z (_cur_order op) n = true ->
  exists fuel0, forall fuel, (fuel0 <= fuel)%nat ->
    Stream_infinite_operator_getitem rO next _coeff_stream initial apply_operator
      series_getitem fuel n op s
    = Raise ValueError.
Proof.
  intros Hcur Hnext Hf Hlaw Href Hs Hv Hlt Hn.
  destruct (advance_raises rO next _coeff_stream initial apply_operator op s c f it
              h den Inv v Hcur Hnext Hf Hlaw Href Hs Hv Hlt) as [fuel0 Hfuel0].
  exists (S fuel0). intros fuel Hfuel. destruct fuel as [|fuel]; [lia|].
  simpl. rewrite Hn, (Hfuel0 fuel) by lia. reflexivity.
Qed.

(** X14. Factors whose coefficient stream is an instance of [Stream_zero]
    are skipped: when an advance is due, indexing over an iterator that
    first yields the zero factors [zeros] and then goes on as [rest] gives
    what indexing over [rest] gives. *)
Theorem Stream_infinite_operator_skips_zero_factors
    (zeros rest : list factor) (cur : option series) (o : bound) (n : Z) (s : St)
    (fuel : nat) (r : result (R * (infinite_operator (list factor) series * St))) :
  Forall (fun f => _coeff_stream f = ZeroStream) zeros ->
  bound_leb_Z o n = true ->
  Stream_infinite_operator_getitem rO list_next _coeff_stream initial apply_operator
    series_getitem fuel n (mkOperator rest cur o) s = r ->
  r <> Diverge ->
  Stream_infinite_operator_getitem rO list_next _coeff_stream initial apply_operator
    series_getitem (length zeros + fuel) n (mkOperator (zeros ++ rest) cur o) s = r.
Proof.
  intros Hz Hn Hr Hd. induction Hz as [|f zeros Hf Hz IH]; [exact Hr|].
  simpl length. simpl app.
  apply (getitem_skips_zero rO list_next _coeff_stream initial apply_operator
           series_getitem (length zeros + fuel) n
           (mkOperator (f :: zeros ++ rest) cur o) s f (zeros ++ rest) r);
    [reflexivity|exact Hf|exact Hn|exact IH|exact Hd].
Qed.

(** X15. Indexing at [n] advances while [n >= self._cur_order] and then
    returns the coefficient of the partial result: if calls of [_advance]
    lead from the state [p] to a state [p'] whose order is above [n], every
    call made at an order not above [n], then [self[n]] is [self._cur[n]]
    taken in [p'], for every large enough bound on the number of rounds. *)
Theorem Stream_infinite_operator_getitem_delegates {I : Type}
    (next : I -> option (factor * I)) (n : Z)
    (p p' : infinite_operator I series * St) (c : series) :
  advances rO next _coeff_stream initial apply_operator n p p' ->
  _cur p'.1 = Some c ->
  bound_leb_Z (_cur_order p'.1) n = false
  /\ exists fuel0, forall fuel, (fuel0 <= fuel)%nat ->
       Stream_infinite_operator_getitem rO next _coeff_stream initial apply_operator
         series_getitem fuel n p.1 p.2
       = let* (x, s) := series_getitem c n p'.2 in Ok (x, (p'.1, s)).
Proof.
  intros Hadv Hc. split.
  - clear Hc. induction Hadv; assumption.
  - exact (getitem_advances rO next _coeff_stream initial apply_operator
             series_getitem n p p' c Hadv Hc).
Qed.

End Properties.

(** The factors [t^2], [0] and [3*t] given as exact streams: the third has
    order 1, below the order of the first. *)
Definition lower_order_factors : list (coeff_stream Z unit) :=
  [monomial 1 2; monomial 0 5; monomial 3 1].

Lemma monomial_canonical (c n : Z) : c <> 0 -> canonical 0 (mkExact [c] 0 (n + 1) n).
Proof.
  intros Hc. constructor; simpl; try lia.
  - intros v [= <-]. exact Hc.
  - intros v [= <-]. exact Hc.
  - intros _ v [= <-]. exact Hc.
  - discriminate.
Qed.

Lemma Stream_infinite_operator_refuses_lower_order_witness :
  exists fuel0, forall fuel, (fuel0 <= fuel)%nat ->
    Stream_infinite_sum_getitem 0 1 Z.add Z.mul list_next fuel 4
      (mkOperator [monomial 3 1] (Some (Series_of (monomial 1 2))) (Order (Fin 2))) tt
    = Raise ValueError.
Proof.
  apply (Stream_infinite_operator_refuses_lower_order 0 (fun c => c)
           (Stream_infinite_sum_initial Series_of)
           (Stream_infinite_sum_apply_operator Series_of Series_add)
           (lazy_series_getitem 0 1 Z.add Z.mul) list_next
           (mkOperator [monomial 3 1] (Some (Series_of (monomial 1 2))) (Order (Fin 2)))
           tt (Series_of (monomial 1 2)) (monomial 3 1) []
           (Stream_exact_handle 0 (mkExact [3] 0 2 1))
           (Stream_exact_getitem 0 (mkExact [3] 0 2 1)) (fun _ => True) 1 4
           eq_refl eq_refl eq_refl
           (Stream_exact_lawful 0 _ _ (monomial_canonical 3 1 ltac:(lia)))
           (Stream_exact_refining 0 _ _ (monomial_canonical 3 1 ltac:(lia)))
           I ltac:(vm_compute; discriminate) eq_refl eq_refl).
Defined.

Lemma Stream_infinite_operator_skips_zero_factors_witness :
  Stream_infinite_sum_getitem 0 1 Z.add Z.mul list_next (2 + 10) 1
    (mkOperator ([monomial 0 3; monomial 0 4] ++ [monomial 5 1; monomial 7 2])
       None NegInf) tt
  = Stream_infinite_sum_getitem 0 1 Z.add Z.mul list_next 10 1
      (mkOperator [monomial 5 1; monomial 7 2] None NegInf) tt.
Proof.
  apply (Stream_infinite_operator_skips_zero_factors 0 (fun c => c)
           (Stream_infinite_sum_initial Series_of)
           (Stream_infinite_sum_apply_operator Series_of Series_add)
           (lazy_series_getitem 0 1 Z.add Z.mul)
           [monomial 0 3; monomial 0 4] [monomial 5 1; monomial 7 2] None NegInf 1 tt
           10).
  - repeat constructor.
  - reflexivity.
  - reflexivity.
  - vm_compute. discriminate.
Defined.

Lemma Stream_infinite_operator_getitem_delegates_witness :
  exists fuel0, forall fuel, (fuel0 <= fuel)%nat ->
    (let* (x, _) := Stream_infinite_sum_getitem 0 1 Z.add Z.mul list_next fuel 1
                      (Stream_infinite_operator_init [monomial 5 1; monomial 7 2]) tt
     in Ok x)
    = Ok 5.
Proof.
  destruct (Stream_infinite_operator_getitem_delegates 0 (fun c => c)
              (Stream_infinite_sum_initial Series_of)
              (Stream_infinite_sum_apply_operator Series_of Series_add)
              (lazy_series_getitem 0 1 Z.add Z.mul) list_next 1
              (Stream_infinite_operator_init [monomial 5 1; monomial 7 2], tt)
              (mkOperator [] (Some (Series_add (Series_of (monomial 5 1))
                                               (Series_of (monomial 7 2))))
                          (Order (Fin 2)), tt)
              (Series_add (Series_of (monomial 5 1)) (Series_of (monomial 7 2))))
    as [_ [fuel0 Hfuel0]].
  - apply advances_step with (p' := (mkOperator [] (Some (Series_add (Series_of (monomial 5 1))
                                               (Series_of (monomial 7 2))))
                          (Order (Fin 2)), tt)) (fuel := 5%nat).
    + reflexivity.
    + vm_compute. reflexivity.
    + apply advances_done. reflexivity.
  - reflexivity.
  - exists fuel0. intros fuel Hfuel.
    unfold Stream_infinite_sum_getitem. simpl in Hfuel0.
    rewrite (Hfuel0 fuel Hfuel). reflexivity.
Defined.

End OperatorProperties.

(** ** [Stream_shift] *)

Section ShiftProperties.
Context {R : Type} `{EqDecision R}.
Variable rO : R.
Context {St : Type}.
Variable series : handle R St.
Variable den : Z -> R.
Variable Inv : St -> Prop.

(** The states of a shift: the stored approximate order, when there is
    one, is a lower bound of the order of the shifted sequence. *)
Definition shift_inv (shift : Z) (p : option ext * St) : Prop :=
  Inv p.2
  /\ match p.1 with
     | Some a => below rO a (fun n => den (n - shift))
     | None => True
     end.

Lemma below_shift (a : ext) (shift : Z) :
  below rO a den -> below rO (ext_add a (Fin shift)) (fun n => den (n - shift)).
Proof.
  intros Hb k Hk. apply Hb. destruct a as [a|]; simpl in *; [lia|exact I].
Qed.

(** X16. [Stream_shift(series, shift)] over a lawful stream: [self[n]] is
    [series[n - shift]], the approximate order is a lower bound of the
    order of the shifted sequence, [order()] is the order of the series
    plus [shift], and shifting back by [-shift] gives the coefficients of
    the series again. *)
Theorem Stream_shift_spec (shift : Z) (n : Z) (p : option ext * St)
    (v : Z) (fuel0 fuel : nat) :
  lawful rO series den Inv ->
  order_within series Inv v fuel0 -> (fuel0 <= fuel)%nat ->
  shift_inv shift p ->
  (exists p', h_getitem (Stream_shift series shift) n p = Ok (den (n - shift), p')
              /\ shift_inv shift p')
  /\ (exists a p', h_approximate_order (Stream_shift series shift) p = Ok (a, p')
                   /\ shift_inv shift p'
                   /\ below rO a (fun k => den (k - shift)))
  /\ (exists p', h_order (Stream_shift series shift) fuel p = Ok (Fin (v + shift), p')
                 /\ shift_inv shift p')
  /\ (forall q, exists p',
        h_getitem (Stream_shift (Stream_shift series shift) (- shift)) n (q, p)
        = Ok (den n, (q, p')) /\ shift_inv shift p').
Proof.
  intros Hlaw Hord Hfuel [Hs Ha]. destruct p as [o s]. simpl in Hs, Ha.
  assert (Hget : forall m, exists p',
             h_getitem (Stream_shift series shift) m (o, s) = Ok (den (m - shift), p')
             /\ shift_inv shift p').
  { intros m. simpl.
    destruct (law_getitem _ _ _ _ Hlaw (m - shift) s Hs) as (s' & Hg & Hs').
    rewrite Hg. simpl. exists (o, s'). split; [reflexivity|]. split; assumption. }
  split; [apply Hget|]. split; [|split].
  - simpl. destruct o as [a|].
    + exists a, (Some a, s). split; [reflexivity|]. split; [split; assumption|exact Ha].
    + destruct (law_approximate_order _ _ _ _ Hlaw s Hs) as (a & s' & Hao & Hs' & Hb).
      rewrite Hao. simpl. eexists _, _. split; [reflexivity|].
      pose proof (below_shift a shift Hb). split; [split; assumption|assumption].
  - simpl. destruct (Hord s fuel Hs Hfuel) as (s' & Ho & Hs'). rewrite Ho. simpl.
    exists (o, s'). split; [reflexivity|]. split; assumption.
  - intros q. destruct (Hget (n - - shift)) as (p' & Hg & Hp').
    exists p'. split; [|exact Hp'].
    change (h_getitem (Stream_shift (Stream_shift series shift) (- shift)) n (q, (o, s)))
      with (let* (x, s0) := h_getitem (Stream_shift series shift) (n - - shift) (o, s)
            in Ok (x, (q, s0))).
    rewrite Hg. simpl. do 3 f_equal. lia.
Qed.

End ShiftProperties.

Lemma Stream_shift_spec_witness :
  exists p',
    h_getitem (Stream_shift (Stream_function 0 (fun n => n * n)) 3) 5
      (None, (Stream_function_init true 1 false, tt)) = Ok (4, p').
Proof.
  assert (Hlead : function_sequence 0 (fun n => n * n) 1 1 <> 0)
    by (vm_compute; discriminate).
  assert (Hzero := function_sequence_below_1 (fun n => n * n) 1 ltac:(lia) eq_refl).
  destruct (Stream_shift_spec 0 (Stream_function 0 (fun n => n * n))
              (function_sequence 0 (fun n => n * n) 1)
              (function_inv 0 (fun n => n * n) 1) 3 5
              (None, (Stream_function_init true 1 false, tt)) 1
              (Z.to_nat (1 - 1 + 1)) 1
              (Stream_function_lawful 0 (fun n => n * n) 1)
              (Stream_function_order_within 0 (fun n => n * n) 1 1 Hlead Hzero)
              ltac:(simpl; lia))
    as [(p' & Hg & _) _].
  - split; [|exact I]. apply Stream_function_init_inv. discriminate.
  - exists p'. exact Hg.
Defined.

(** ** Unary operators: [Stream_rmul], [Stream_lmul], [Stream_neg],
    [Stream_map_coefficients] *)

Section Unary.
Context {R : Type} `{EqDecision R}.
Variables (rO rI : R) (rmul : R -> R -> R) (ropp : R -> R).
Context {St : Type}.
Variable series : handle R St.

(** [Stream_unary.__init__]: [super().__init__(is_sparse, true_order)]. *)
Definition Stream_unary_init (is_sparse true_order : bool) : inexact R (option Z) :=
  Stream_inexact_init is_sparse true_order None None.


(** The lazy attribute [_approximate_order] of [Stream_scalar], of
    [Stream_neg] and of [Stream_map_coefficients]:
    [self._series._approximate_order]. *)
Definition Stream_unary_approximate_order (s : St) : result (ext * St) :=
  h_approximate_order series s.





(** [Stream_neg.__init__]: [super().__init__(series, is_sparse)] and then
    [self._true_order = self._series._true_order]. *)
Definition Stream_neg_init (is_sparse series_true_order : bool)
  : inexact R (option Z) :=
  set_true_order series_true_order (Stream_unary_init is_sparse false).

(** [Stream_neg.get_coefficient]: [-self._series[n]]. *)
Definition Stream_neg_get_coefficient (n : Z) (s : St) : result (R * St) :=
  let* (x, s) := h_getitem series n s in Ok (ropp x, s).

Definition Stream_neg : handle R (inexact R (option Z) * St) :=
  inexact_handle rO Stream_unary_approximate_order Stream_neg_get_coefficient.

(** [Stream_map_coefficients.__init__]. *)
Definition Stream_map_coefficients_init (is_sparse : bool)
    (approximate_order : option Z) (true_order : bool) : inexact R (option Z) :=
  Stream_inexact_init is_sparse true_order (Fin <$> approximate_order) None.

(** [Stream_map_coefficients.get_coefficient]:
    [c = self._series[n]; if c: return self._function(c); return c]. *)
Definition Stream_map_coefficients_get_coefficient (function : R -> R) (n : Z)
    (s : St) : result (R * St) :=
  let* (c, s) := h_getitem series n s in
  Ok (if truthy rO c then function c else c, s).

Definition Stream_map_coefficients (function : R -> R)
  : handle R (inexact R (option Z) * St) :=
  inexact_handle rO Stream_unary_approximate_order
    (Stream_map_coefficients_get_coefficient function).

(** The coefficients after the function was applied to the non-zero
    ones. *)
Definition map_nonzero (function : R -> R) (c : R) : R :=
  if truthy rO c then function c else c.

End Unary.

Section UnaryFacts.
Context {R : Type} `{EqDecision R}.
Variable rO : R.
Context {St : Type}.
Variable series : handle R St.
Variable den : Z -> R.
Variable Inv : St -> Prop.
Hypothesis Hseries : lawful rO series den Inv.

(** A coefficient rule that applies [phi] to the coefficient of the
    series. *)
Variable phi : R -> R.
Variable get_coefficient : Z -> St -> result (R * St).
Hypothesis Hget : forall n s,
  get_coefficient n s = let* (x, s) := h_getitem series n s in Ok (phi x, s).
Hypothesis Hphi : phi rO = rO.

Lemma pointwise_coefficient_ok :
  coefficient_ok get_coefficient (fun n => phi (den n)) Inv (fun _ => True).
Proof.
  intros n s Hs _. rewrite Hget.
  destruct (law_getitem _ _ _ _ Hseries n s Hs) as (s' & Hg & Hs').
  rewrite Hg. simpl. eauto.
Qed.

Lemma pointwise_lazy_ok :
  lazy_ok rO (Stream_unary_approximate_order series) (fun n => phi (den n)) Inv
    (fun _ => True).
Proof.
  intros s Hs. unfold Stream_unary_approximate_order.
  destruct (law_approximate_order _ _ _ _ Hseries s Hs) as (a & s' & Ha & Hs' & Hb).
  exists a, s'. split; [exact Ha|]. split; [exact Hs'|]. split; [|trivial].
  intros k Hk. now rewrite (Hb k Hk).
Qed.

Lemma pointwise_init_inv (is_sparse : bool) :
  node_inv rO (Stream_unary_approximate_order series) (fun n => phi (den n)) Inv
    (fun _ => True) default_gen_ok (Stream_unary_init is_sparse false).
Proof.
  unfold node_inv. simpl. split; [exact pointwise_lazy_ok|]. split; [reflexivity|].
  destruct is_sparse; simpl; [reflexivity|]. split; [reflexivity|].
  intros s a s' _ _. reflexivity.
Qed.

Lemma pointwise_lawful :
  lawful rO (inexact_handle rO (Stream_unary_approximate_order series) get_coefficient)
    (fun n => phi (den n))
    (fun p => node_inv rO (Stream_unary_approximate_order series)
                (fun n => phi (den n)) Inv (fun _ => True) default_gen_ok p.1
              /\ Inv p.2).
Proof. apply inexact_handle_lawful, pointwise_coefficient_ok. Qed.

End UnaryFacts.

Section UnaryProperties.
Context {R : Type} `{EqDecision R}.
Variables (rO rI : R) (radd rmul rsub : R -> R -> R) (ropp : R -> R).
Hypothesis Rth : ring_theory rO rI radd rmul rsub ropp eq.
Add Ring Rring_unary : Rth.
Context {St : Type}.
Variable Inv : St -> Prop.


(** X18. [Stream_neg]: over a lawful series whose [_true_order] is not
    set when the node is built, the node returns [-series[n]] at every
    [n], and the negative of the negative returns [series[n]] again. *)
Theorem Stream_neg_spec (series : handle R St) (den : Z -> R)
    (is_sparse is_sparse' : bool) (n : Z) (s : St) :
  lawful rO series den Inv -> Inv s ->
  (exists p', h_getitem (Stream_neg rO ropp series) n (Stream_neg_init is_sparse false, s)
              = Ok (ropp (den n), p'))
  /\ (exists p', h_getitem (Stream_neg rO ropp (Stream_neg rO ropp series)) n
                   (Stream_neg_init is_sparse' false, (Stream_neg_init is_sparse false, s))
                 = Ok (den n, p')).
Proof.
  intros Hser Hs.
  assert (H0 : ropp rO = rO) by ring.
  pose proof (pointwise_lawful rO series den Inv Hser ropp
                (Stream_neg_get_coefficient ropp series) (fun _ _ => eq_refl)) as Hneg.
  assert (Hinit : node_inv rO (Stream_unary_approximate_order series)
                    (fun k => ropp (den k)) Inv (fun _ => True) default_gen_ok
                    (Stream_neg_init is_sparse false) /\ Inv s).
  { split; [|exact Hs].
    exact (pointwise_init_inv rO series den Inv Hser ropp H0 is_sparse). }
  split.
  - destruct (law_getitem _ _ _ _ Hneg n (Stream_neg_init is_sparse false, s) Hinit)
      as (p' & Hg & _).
    exists p'. exact Hg.
  - pose proof (pointwise_lawful rO (Stream_neg rO ropp series)
                  (fun k => ropp (den k)) _ Hneg ropp
                  (Stream_neg_get_coefficient ropp (Stream_neg rO ropp series))
                  (fun _ _ => eq_refl)) as Hnegneg.
    destruct (law_getitem _ _ _ _ Hnegneg n
                (Stream_neg_init is_sparse' false, (Stream_neg_init is_sparse false, s)))
      as (p' & Hg & _).
    + split; [|exact Hinit].
      exact (pointwise_init_inv rO _ _ _ Hneg ropp H0 is_sparse').
    + exists p'. etransitivity; [exact Hg|]. do 2 f_equal. ring.
Qed.

(** X19. [Stream_map_coefficients], built without an approximate order
    and with [true_order=False] over a lawful series: the function is
    applied to the non-zero coefficients of the series only; where the
    series has a zero the result is that zero, whatever the function does
    there. *)
Theorem Stream_map_coefficients_spec (series : handle R St) (den : Z -> R)
    (function : R -> R) (is_sparse : bool) (n : Z) (s : St) :
  lawful rO series den Inv -> Inv s ->
  (exists p', h_getitem (Stream_map_coefficients rO series function) n
                (Stream_map_coefficients_init is_sparse None false, s)
              = Ok (map_nonzero rO function (den n), p'))
  /\ (den n = rO -> map_nonzero rO function (den n) = rO)
  /\ (den n <> rO -> map_nonzero rO function (den n) = function (den n)).
Proof.
  intros Hser Hs.
  assert (H0 : map_nonzero rO function rO = rO).
  { unfold map_nonzero. destruct (truthy rO rO) eqn:Ht; [|reflexivity].
    apply (truthy_true rO) in Ht. congruence. }
  split; [|split].
  - destruct (law_getitem _ _ _ _
                (pointwise_lawful rO series den Inv Hser (map_nonzero rO function)
                   (Stream_map_coefficients_get_coefficient rO series function)
                   (fun _ _ => eq_refl))
                n (Stream_map_coefficients_init is_sparse None false, s))
      as (p' & Hg & _).
    + split; [|exact Hs].
      apply (pointwise_init_inv rO series den Inv Hser (map_nonzero rO function) H0).
    + exists p'. exact Hg.
  - intros ->. exact H0.
  - intros Hn. unfold map_nonzero. apply (truthy_true rO) in Hn. now rewrite Hn.
Qed.

(** X20. Adding the negative is subtracting: over lawful streams (the
    [_true_order] of [right] not set when it is negated),
    [Stream_add(left, Stream_neg(right))] and [Stream_sub(left, right)]
    return the same coefficient at every [n], namely
    [left[n] - right[n]]. *)
Theorem Stream_add_neg_is_sub (left right : handle R St) (denL denR : Z -> R)
    (sparse_add sparse_neg sparse_sub : bool) (n : Z) (s : St) :
  lawful rO left denL Inv -> lawful rO right denR Inv -> Inv s ->
  (exists p', h_getitem (Stream_add rO radd (on_snd left) (Stream_neg rO ropp right)) n
                (Stream_binary_init sparse_add, (Stream_neg_init sparse_neg false, s))
              = Ok (rsub (denL n) (denR n), p'))
  /\ (exists p', h_getitem (Stream_sub rO rsub left right) n
                   (Stream_binary_init sparse_sub, s)
                 = Ok (rsub (denL n) (denR n), p')).
Proof.
  intros HL HR Hs.
  assert (H0 : ropp rO = rO) by ring.
  pose proof (pointwise_lawful rO right denR Inv HR ropp
                (Stream_neg_get_coefficient ropp right) (fun _ _ => eq_refl)) as Hneg.
  pose proof (on_snd_lawful rO left denL
                (node_inv rO (Stream_unary_approximate_order right)
                   (fun k => ropp (denR k)) Inv (fun _ => True) default_gen_ok)
                Inv HL) as HL'.
  split.
  - destruct (law_getitem _ _ _ _
                (Stream_add_lawful rO radd _ _ _ _ _ HL' Hneg) n
                (Stream_binary_init sparse_add, (Stream_neg_init sparse_neg false, s)))
      as (p' & Hg & _).
    + split.
      * apply (Stream_add_init_inv rO rI radd rmul rsub ropp Rth _ _ _ _ _ HL' Hneg).
      * split; [|exact Hs].
        exact (pointwise_init_inv rO right denR Inv HR ropp H0 sparse_neg).
    + exists p'. etransitivity; [exact Hg|]. do 2 f_equal. ring.
  - destruct (law_getitem _ _ _ _
                (Stream_sub_lawful rO rsub _ _ _ _ _ HL HR) n
                (Stream_binary_init sparse_sub, s)) as (p' & Hg & _).
    + split; [|exact Hs].
      apply (Stream_sub_init_inv rO rI radd rmul rsub ropp Rth _ _ _ _ _ HL HR).
    + exists p'. exact Hg.
Qed.

End UnaryProperties.


Lemma Stream_neg_spec_witness :
  exists p',
    h_getitem (Stream_neg 0 Z.opp (Stream_function 0 (fun n => n))) 5
      (Stream_neg_init true false, (Stream_function_init true 1 false, tt))
    = Ok (-5, p').
Proof.
  destruct (Stream_neg_spec 0 1 Z.add Z.mul Z.sub Z.opp Zth
              (function_inv 0 (fun n => n) 1)
              (Stream_function 0 (fun n => n))
              (function_sequence 0 (fun n => n) 1) true true 5
              (Stream_function_init true 1 false, tt)
              (Stream_function_lawful 0 (fun n => n) 1))
    as [(p' & Hg) _].
  - apply Stream_function_init_inv. discriminate.
  - exists p'. exact Hg.
Defined.

Lemma Stream_map_coefficients_spec_witness :
  exists p',
    h_getitem (Stream_map_coefficients 0 (Stream_function 0 (fun n => n))
                 (fun c => c * c + 1)) 5
      (Stream_map_coefficients_init true None false,
       (Stream_function_init true 1 false, tt))
    = Ok (26, p').
Proof.
  destruct (Stream_map_coefficients_spec 0
              (function_inv 0 (fun n => n) 1)
              (Stream_function 0 (fun n => n))
              (function_sequence 0 (fun n => n) 1)
              (fun c => c * c + 1) true 5
              (Stream_function_init true 1 false, tt)
              (Stream_function_lawful 0 (fun n => n) 1))
    as [(p' & Hg) _].
  - apply Stream_function_init_inv. discriminate.
  - exists p'. exact Hg.
Defined.

Lemma Stream_add_neg_is_sub_witness :
  exists p',
    h_getitem (Stream_add 0 Z.add (on_snd (Stream_function 0 (fun n => n * n)))
                 (Stream_neg 0 Z.opp (Stream_function 0 (fun n => n * n)))) 5
      (Stream_binary_init true,
       (Stream_neg_init true false, (Stream_function_init true 1 false, tt)))
    = Ok (0, p').
Proof.
  destruct (Stream_add_neg_is_sub 0 1 Z.add Z.mul Z.sub Z.opp Zth
              (function_inv 0 (fun n => n * n) 1)
              (Stream_function 0 (fun n => n * n))
              (Stream_function 0 (fun n => n * n))
              (function_sequence 0 (fun n => n * n) 1)
              (function_sequence 0 (fun n => n * n) 1)
              true true true 5
              (Stream_function_init true 1 false, tt)
              (Stream_function_lawful 0 (fun n => n * n) 1)
              (Stream_function_lawful 0 (fun n => n * n) 1))
    as [(p' & Hg) _].
  - apply Stream_function_init_inv. discriminate.
  - exists p'. exact Hg.
Defined.

(** ** [Stream_truncated] over a sparse series *)

Section TruncatedProperties.
Context {R : Type} `{EqDecision R}.
Variable rO : R.
Context {St : Type}.
Variable lazy_approximate_order : St -> result (ext * St).
Variable get_coefficient : Z -> St -> result (R * St).
Variable den : Z -> R.
Variable Inv : St -> Prop.
Variable valid : Z -> Prop.
Hypothesis Hgc : coefficient_ok get_coefficient den Inv valid.
Hypothesis Hnz : exists v, den v <> rO.

#[local] Abbreviation series_ok :=
  (node_inv rO lazy_approximate_order den Inv valid default_gen_ok).

(** The sequence of the series shifted by [shift] and cut off below
    [minimal_valuation]. *)
Definition truncated_sequence (shift minimal_valuation : Z) (n : Z) : R :=
  if n <? minimal_valuation then rO else den (n - shift).

(** The attributes of a truncated stream over a sparse series: its
    approximate order is at least the minimal valuation, the series has
    zeros between the two, and a non-zero coefficient there once
    [_true_order] is set. *)
Definition truncated_inv (shift minimal_valuation : Z)
    (p : truncated * (inexact R (option Z) * St)) : Prop :=
  t_shift p.1 = shift
  /\ minimal_valuation <= t_approximate_order p.1
  /\ (forall k, minimal_valuation <= k < t_approximate_order p.1 ->
        den (k - shift) = rO)
  /\ (t_true_order p.1 = true -> den (t_approximate_order p.1 - shift) <> rO)
  /\ _is_sparse p.2.1 = true
  /\ series_ok p.2.1 /\ Inv p.2.2.

Lemma sparse_cache_values (st : inexact R (option Z)) (d : gmap Z R) :
  series_ok st -> _cache st = SparseCache d ->
  forall k v, d !! k = Some v -> v = den k.
Proof.
  intros Hn Hc k v Hk. unfold node_inv in Hn.
  destruct (_approximate_order st) as [[a|]|].
  - destruct Hn as (_ & _ & _ & Hcache). unfold cache_inv in Hcache.
    rewrite Hc in Hcache. now apply Hcache.
  - destruct Hnz as [w Hw]. exfalso. apply Hw, Hn.
  - destruct Hn as (_ & _ & Hcache). rewrite Hc in Hcache. subst d.
    rewrite lookup_empty in Hk. discriminate.
Qed.

Lemma truncated_scan_sparse (shift mv : Z) (t : truncated)
    (q : inexact R (option Z) * St) :
  truncated_inv shift mv (t, q) ->
  exists t',
    truncated_scan rO lazy_approximate_order t q = Ok (t', q)
    /\ truncated_inv shift mv (t', q)
    /\ t_approximate_order t <= t_approximate_order t'
    /\ (t_true_order t = true -> t_true_order t' = true).
Proof.
  intros (Hsh & Hmv & Hz & Hto & Hsp & Hn & HI). simpl in *.
  unfold truncated_scan. unfold _is_sparse in Hsp.
  destruct (_cache q.1) as [d|l] eqn:Hc; [|discriminate].
  pose proof (sparse_cache_values q.1 d Hn Hc) as Hvals.
  destruct (sparse_scan_spec rO den
              (Z.to_nat (max_key d (t_approximate_order t - t_shift t)
                         - (t_approximate_order t - t_shift t) + 1))
              d (t_approximate_order t - t_shift t) Hvals)
    as (ao' & found & Hs & Hle & Hzero & Hf & _).
  { intros k v Hk.
    pose proof (max_key_ge d (t_approximate_order t - t_shift t) k v Hk).
    pose proof (max_key_base d (t_approximate_order t - t_shift t)). lia. }
  rewrite Hs. simpl. eexists. split; [reflexivity|].
  split; [|split; [simpl; lia|intros ->; reflexivity]].
  unfold truncated_inv. simpl. rewrite Hsh in *.
  split; [reflexivity|]. split; [lia|]. split.
  { intros k Hk.
    destruct (Z.lt_ge_cases k (t_approximate_order t)) as [Hlt|Hge];
      [apply Hz; lia|apply Hzero; lia]. }
  split.
  { intros Hb. apply orb_true_iff in Hb as [Hb|Hb].
    - destruct found.
      + replace (ao' + shift - shift) with ao' by lia. now apply Hf.
      + specialize (Hto Hb).
        assert (ao' = t_approximate_order t - shift) as ->.
        { destruct (Z.eq_dec ao' (t_approximate_order t - shift)); [assumption|].
          exfalso. apply Hto, Hzero. lia. }
        replace (t_approximate_order t - shift + shift - shift)
          with (t_approximate_order t - shift) by lia. exact Hto.
    - replace (ao' + shift - shift) with ao' by lia. now apply Hf. }
  unfold _is_sparse. rewrite Hc. tauto.
Qed.

Lemma truncated_getitem_sparse (shift mv n : Z)
    (p : truncated * (inexact R (option Z) * St)) :
  truncated_inv shift mv p ->
  exists p',
    Stream_truncated_getitem rO lazy_approximate_order get_coefficient n p
    = Ok (truncated_sequence shift mv n, p')
    /\ truncated_inv shift mv p'
    /\ t_approximate_order p.1 <= t_approximate_order p'.1
    /\ (t_true_order p.1 = true -> p'.1 = p.1).
Proof.
  destruct p as [t q1]. intros Hp.
  pose proof Hp as (Hsh & Hmv & Hz & Hto & Hsp1 & Hn1 & HI1).
  simpl in *. unfold Stream_truncated_getitem. simpl.
  destruct (Z.ltb_spec n (t_approximate_order t)) as [Hlt|Hge].
  - exists (t, q1). simpl. split; [|split; [exact Hp|split; [lia|reflexivity]]].
    do 2 f_equal. unfold truncated_sequence.
    destruct (Z.ltb_spec n mv); [reflexivity|].
    symmetry. apply Hz. lia.
  - destruct q1 as [st s]. simpl in *.
    destruct (getitem_default_correct rO lazy_approximate_order get_coefficient
                den Inv valid (n - t_shift t) st s Hgc Hn1 HI1)
      as (st' & s' & Hg & Hn' & HI' & _ & Hkind).
    rewrite Hg. simpl.
    assert (Hval : den (n - t_shift t) = truncated_sequence shift mv n).
    { unfold truncated_sequence. rewrite Hsh.
      destruct (Z.ltb_spec n mv); [lia|reflexivity]. }
    rewrite Hval.
    assert (Hinv' : truncated_inv shift mv (t, (st', s'))).
    { unfold truncated_inv. simpl. unfold same_kind in Hkind. rewrite Hkind. tauto. }
    destruct (t_true_order t) eqn:Htt; simpl.
    + exists (t, (st', s')). simpl. split; [reflexivity|].
      split; [exact Hinv'|]. split; [lia|reflexivity].
    + destruct (truncated_scan_sparse shift mv t (st', s') Hinv')
        as (t' & Hs' & Hinv'' & Hle & _).
      rewrite Hs'. simpl. exists (t', (st', s')). simpl.
      split; [reflexivity|]. split; [exact Hinv''|]. split; [exact Hle|discriminate].
Qed.

Lemma Stream_truncated_init_sparse (shift mv : Z) (q : inexact R (option Z) * St) :
  _is_sparse q.1 = true -> series_ok q.1 -> Inv q.2 ->
  exists t0,
    Stream_truncated_init rO lazy_approximate_order shift mv q = Ok (t0, q)
    /\ truncated_inv shift mv (t0, q).
Proof.
  intros Hsp Hn HI.
  destruct (truncated_scan_sparse shift mv (mkTruncated false mv shift) q)
    as (t0 & Hs0 & Hinv0 & _).
  - unfold truncated_inv. simpl. split; [reflexivity|]. split; [lia|].
    split; [intros k Hk; lia|]. split; [discriminate|]. tauto.
  - exists t0. split; [exact Hs0|exact Hinv0].
Qed.

(** X21. Over a sparse series that is not zero, [Stream_truncated] keeps
    the order invariant: the constructor succeeds; [s[n]] is [0] below the
    minimal valuation and [series[n - shift]] from there on, at every
    integer [n]; the approximate order never moves down and never below the
    minimal valuation; and once [_true_order] is set, the approximate order
    is the index of the first non-zero coefficient, so the order that
    [order()] then returns from the attribute is the true one. *)
Theorem Stream_truncated_sparse_spec (shift minimal_valuation : Z)
    (q : inexact R (option Z) * St) :
  _is_sparse q.1 = true -> series_ok q.1 -> Inv q.2 ->
  exists p0,
    Stream_truncated_init rO lazy_approximate_order shift minimal_valuation q = Ok p0
    /\ truncated_inv shift minimal_valuation p0
    /\ (forall n p, truncated_inv shift minimal_valuation p ->
          exists p',
            Stream_truncated_getitem rO lazy_approximate_order get_coefficient n p
            = Ok (truncated_sequence shift minimal_valuation n, p')
            /\ truncated_inv shift minimal_valuation p'
            /\ t_approximate_order p.1 <= t_approximate_order p'.1
            /\ (t_true_order p.1 = true -> p'.1 = p.1))
    /\ (forall p v, truncated_inv shift minimal_valuation p ->
          Stream_truncated_order_known p = Some v ->
          truncated_sequence shift minimal_valuation v <> rO
          /\ forall k, k < v -> truncated_sequence shift minimal_valuation k = rO).
Proof.
  intros Hsp Hn HI.
  destruct (Stream_truncated_init_sparse shift minimal_valuation q Hsp Hn HI)
    as (t0 & Hs0 & Hinv0).
  exists (t0, q). split; [exact Hs0|]. split; [exact Hinv0|]. split.
  - intros n p Hp. exact (truncated_getitem_sparse shift minimal_valuation n p Hp).
  - intros [t q1] v (Hsh & Hmv & Hz & Hto & _) Hv. simpl in *.
    unfold Stream_truncated_order_known in Hv. simpl in Hv.
    destruct (t_true_order t); [|discriminate]. inversion Hv; subst v.
    unfold truncated_sequence. split.
    + destruct (Z.ltb_spec (t_approximate_order t) minimal_valuation); [lia|].
      now apply Hto.
    + intros k Hk. destruct (Z.ltb_spec k minimal_valuation); [reflexivity|].
      apply Hz. lia.
Qed.

(** The sparse loop of [Stream_truncated.order]:
    [while True: if n - shift in cache: (if cache[n - shift]: set the
    order and return n) elif self[n]: return n; n += 1]; the cache is the
    dict of the series, which [self[n]] fills. *)
Fixpoint truncated_order_loop (fuel : nat) (n : Z)
    (p : truncated * (inexact R (option Z) * St))
  : result (ext * (truncated * (inexact R (option Z) * St))) :=
  match fuel with
  | O => Diverge
  | S fuel' =>
      match _cache p.2.1 with
      | SparseCache d =>
          match d !! (n - t_shift p.1) with
          | Some c =>
              if truthy rO c
              then Ok (Fin n, (mkTruncated true n (t_shift p.1), p.2))
              else truncated_order_loop fuel' (n + 1) p
          | None =>
              let* (c, p) :=
                Stream_truncated_getitem rO lazy_approximate_order get_coefficient n p in
              if truthy rO c then Ok (Fin n, p)
              else truncated_order_loop fuel' (n + 1) p
          end
      | DenseCache _ => Raise TypeError
      end
  end.

(** [Stream_truncated.order]; the dense case is [super().order()], the
    search of [Stream_inexact.order] over the [__getitem__] of this
    class. *)
Definition Stream_truncated_order (fuel : nat)
    (p : truncated * (inexact R (option Z) * St))
  : result (ext * (truncated * (inexact R (option Z) * St))) :=
  if t_true_order p.1 then Ok (Fin (t_approximate_order p.1), p)
  else if _is_sparse p.2.1
  then truncated_order_loop fuel (t_approximate_order p.1) p
  else order_search rO
         (Stream_truncated_getitem rO lazy_approximate_order get_coefficient)
         fuel (t_approximate_order p.1) p.

Lemma truncated_order_loop_correct (shift mv v : Z) :
  truncated_sequence shift mv v <> rO ->
  (forall k, k < v -> truncated_sequence shift mv k = rO) ->
  forall (fuel : nat) (n : Z) (p : truncated * (inexact R (option Z) * St)),
  truncated_inv shift mv p -> mv <= n <= v -> v - n + 1 <= Z.of_nat fuel ->
  exists p',
    truncated_order_loop fuel n p = Ok (Fin v, p') /\ truncated_inv shift mv p'.
Proof.
  intros Hv Hz. induction fuel as [|fuel IH]; intros n p Hp Hn Hfuel; [lia|].
  pose proof Hp as (Hsh & Hmv & Hzero & Hto & Hsp & Hnode & HI).
  simpl. unfold _is_sparse in Hsp.
  destruct (_cache p.2.1) as [d|l] eqn:Hc; [|discriminate].
  assert (Hseq : truncated_sequence shift mv n = den (n - shift)).
  { unfold truncated_sequence. destruct (Z.ltb_spec n mv); [lia|reflexivity]. }
  destruct (d !! (n - t_shift p.1)) as [c|] eqn:Hd.
  - pose proof (sparse_cache_values p.2.1 d Hnode Hc _ _ Hd) as ->.
    rewrite Hsh. rewrite <- Hseq.
    destruct (truthy rO (truncated_sequence shift mv n)) eqn:Ht.
    + apply (truthy_true rO) in Ht.
      assert (n = v) as ->.
      { destruct (Z.eq_dec n v); [assumption|]. exfalso. apply Ht, Hz. lia. }
      eexists. split; [reflexivity|]. unfold truncated_inv. simpl.
      split; [reflexivity|]. split; [lia|]. split.
      { intros k Hk. specialize (Hz k ltac:(lia)). unfold truncated_sequence in Hz.
        destruct (Z.ltb_spec k mv); [lia|exact Hz]. }
      split; [intros _; now rewrite <- Hseq|].
      unfold _is_sparse. rewrite Hc. tauto.
    + apply (truthy_false rO) in Ht.
      assert (n <> v) by congruence.
      apply IH; [exact Hp|lia|lia].
  - destruct (truncated_getitem_sparse shift mv n p Hp) as (p' & Hg & Hp' & _).
    rewrite Hg. simpl.
    destruct (truthy rO (truncated_sequence shift mv n)) eqn:Ht.
    + apply (truthy_true rO) in Ht.
      assert (n = v) as ->.
      { destruct (Z.eq_dec n v); [assumption|]. exfalso. apply Ht, Hz. lia. }
      exists p'. split; [reflexivity|exact Hp'].
    + apply (truthy_false rO) in Ht.
      assert (n <> v) by congruence.
      apply IH; [exact Hp'|lia|lia].
Qed.

(** X22. [Stream_truncated.order] over a sparse series: when the
    truncated sequence has its first non-zero coefficient at [v], the
    search returns [v] (within [v - ao + 1] rounds from the approximate
    order [ao]) and leaves the attributes consistent, whether or not the
    true order was known before and whatever the cache already holds. *)
Theorem Stream_truncated_order_sparse (shift minimal_valuation v : Z) (fuel : nat)
    (p : truncated * (inexact R (option Z) * St)) :
  truncated_inv shift minimal_valuation p ->
  truncated_sequence shift minimal_valuation v <> rO ->
  (forall k, k < v -> truncated_sequence shift minimal_valuation k = rO) ->
  v - t_approximate_order p.1 + 1 <= Z.of_nat fuel ->
  exists p',
    Stream_truncated_order fuel p = Ok (Fin v, p')
    /\ truncated_inv shift minimal_valuation p'
    /\ t_approximate_order p.1 <= v.
Proof.
  intros Hp Hv Hz Hfuel.
  pose proof Hp as (Hsh & Hmv & Hzero & Hto & Hsp & Hnode & HI).
  assert (Hmvv : minimal_valuation <= v).
  { unfold truncated_sequence in Hv.
    destruct (Z.ltb_spec v minimal_valuation); [congruence|assumption]. }
  assert (Hav : t_approximate_order p.1 <= v).
  { destruct (Z.le_gt_cases (t_approximate_order p.1) v); [assumption|].
    exfalso. apply Hv. unfold truncated_sequence.
    destruct (Z.ltb_spec v minimal_valuation); [reflexivity|]. apply Hzero. lia. }
  unfold Stream_truncated_order. destruct (t_true_order p.1) eqn:Htt.
  - exists p. split; [|split; [exact Hp|exact Hav]]. do 3 f_equal.
    destruct (Z.eq_dec (t_approximate_order p.1) v) as [|Hne]; [assumption|].
    exfalso. apply (Hto eq_refl).
    specialize (Hz (t_approximate_order p.1) ltac:(lia)).
    unfold truncated_sequence in Hz.
    destruct (Z.ltb_spec (t_approximate_order p.1) minimal_valuation); [lia|exact Hz].
  - rewrite Hsp.
    destruct (truncated_order_loop_correct shift minimal_valuation v Hv Hz fuel
                (t_approximate_order p.1) p Hp ltac:(lia) Hfuel) as (p' & Hl & Hp').
    exists p'. tauto.
Qed.

End TruncatedProperties.

Lemma Stream_truncated_sparse_spec_witness :
  exists p0,
    Stream_truncated_init 0 Stream_lazy_approximate_order (-5) 0
      (Stream_function_init true 0 false, tt) = Ok p0
    /\ exists p',
         Stream_truncated_getitem 0 Stream_lazy_approximate_order
           (fun n s => Ok (power_of_2 n, s)) 3 p0 = Ok (1, p').
Proof.
  assert (Hnz : exists v, function_sequence 0 power_of_2 0 v <> 0)
    by (exists 1; vm_compute; discriminate).
  destruct (Stream_truncated_sparse_spec 0 Stream_lazy_approximate_order
              (fun n (s : unit) => Ok (power_of_2 n, s))
              (function_sequence 0 power_of_2 0) (fun _ => True) (fun k => 0 <= k)
              (Stream_function_coefficient_ok 0 power_of_2 0) Hnz (-5) 0
              (Stream_function_init true 0 false, tt) eq_refl)
    as (p0 & Hinit & Hinv & Hget & _).
  - apply (Stream_function_init_inv 0 power_of_2 true 0 false). discriminate.
  - exact I.
  - exists p0. split; [exact Hinit|].
    destruct (Hget 3 p0 Hinv) as (p' & Hg & _). exists p'. exact Hg.
Defined.

(** ** [Stream_iterator] *)

Section Iterator.
Context {R : Type} `{EqDecision R}.
Variable rO : R.

(** The iterator handed to [Stream_iterator], an infinite one such as
    [iter(NonNegativeIntegers())]: [items k] is what its [k]-th [next]
    returns, and its state is the number of items taken so far. *)
Variable items : nat -> R.

(** [Stream_iterator.__init__]: [super().__init__(False, true_order)] and
    [self._approximate_order = approximate_order]. *)
Definition Stream_iterator_init (approximate_order : Z) (true_order : bool)
  : inexact R nat :=
  Stream_inexact_init false true_order (Some (Fin approximate_order)) O.

(** [next(self._iter)], with [iterate_coefficients = lambda: iter]. *)
Definition Stream_iterator_next (st : inexact R nat) (s : unit)
  : result (R * nat * unit) :=
  Ok (items (_iter st), S (_iter st), s).

(** The class defines no [get_coefficient]. *)
Definition Stream_iterator_get_coefficient (n : Z) (s : unit) : result (R * unit) :=
  Raise AttributeError.

(** The inherited [__getitem__] over the iterator. *)
Definition Stream_iterator_getitem
  : Z -> inexact R nat * unit -> result (R * (inexact R nat * unit)) :=
  Stream_inexact_getitem rO Stream_lazy_approximate_order
    Stream_iterator_get_coefficient Stream_iterator_next.

Definition Stream_iterator : handle R (inexact R nat * unit) :=
  mkHandle Stream_iterator_getitem
    (approximate_order_attr Stream_lazy_approximate_order)
    (Stream_inexact_order rO Stream_lazy_approximate_order Stream_iterator_getitem).

(** The sequence of [Stream_iterator(iter, ao)]: zero below [ao], then the
    items of the iterator in the order it yields them. *)
Definition iterator_sequence (ao : Z) (n : Z) : R :=
  if n <? ao then rO else items (Z.to_nat (n - ao)).

(** The number of items taken when the approximate order is [a] and the
    cache holds [len] coefficients. *)
Definition iterator_gen_ok (ao : Z) (a : Z) (len : nat) (g : nat) : Prop :=
  ao <= a /\ g = (Z.to_nat (a - ao) + len)%nat.

Definition iterator_inv (ao : Z) (p : inexact R nat * unit) : Prop :=
  _is_sparse p.1 = false
  /\ node_inv rO Stream_lazy_approximate_order (iterator_sequence ao)
       (fun _ : unit => True) (fun _ => True) (iterator_gen_ok ao) p.1.

Lemma iterator_generator_ok (ao : Z) :
  generator_ok rO Stream_lazy_approximate_order Stream_iterator_next
    (iterator_sequence ao) (fun _ : unit => True) (fun _ => True)
    (iterator_gen_ok ao).
Proof.
  intros st s a l Hao Hc Hnode _. unfold node_inv in Hnode. rewrite Hao in Hnode.
  destruct Hnode as (_ & _ & _ & Hcache). unfold cache_inv in Hcache.
  rewrite Hc in Hcache. destruct Hcache as (_ & _ & [Hle Hg]).
  unfold Stream_iterator_next. rewrite Hg.
  exists (S (Z.to_nat (a - ao) + length l)), s.
  split; [|split; [exact I|split]].
  - do 3 f_equal. unfold iterator_sequence.
    destruct (Z.ltb_spec (a + Z.of_nat (length l)) ao); [lia|]. f_equal. lia.
  - intros _. unfold iterator_gen_ok. split; [lia|]. lia.
  - intros _ _. unfold iterator_gen_ok. split; [lia|]. lia.
Qed.

Lemma Stream_iterator_init_inv (ao : Z) (true_order : bool) :
  (true_order = true -> items O <> rO) ->
  iterator_inv ao (Stream_iterator_init ao true_order, tt).
Proof.
  intros Hto. split; [reflexivity|]. unfold node_inv. simpl.
  split; [|split; [|split]].
  - intros k Hk. unfold iterator_sequence.
    destruct (Z.ltb_spec k ao); [reflexivity|lia].
  - intros k _. exact I.
  - intros Ht. unfold iterator_sequence. rewrite Z.ltb_irrefl, Z.sub_diag.
    now apply Hto.
  - unfold cache_inv. simpl. split; [congruence|].
    split; [intros j v Hj; destruct j; discriminate|].
    unfold iterator_gen_ok. split; [lia|]. rewrite Z.sub_diag. reflexivity.
Qed.

Lemma Stream_iterator_getitem_correct (ao n : Z) (p : inexact R nat * unit) :
  iterator_inv ao p ->
  exists p',
    Stream_iterator_getitem n p = Ok (iterator_sequence ao n, p')
    /\ iterator_inv ao p' /\ refines p.1 p'.1.
Proof.
  destruct p as [st s]. intros [Hd Hn]. simpl in *.
  destruct (Stream_inexact_getitem_correct rO Stream_lazy_approximate_order
              Stream_iterator_get_coefficient Stream_iterator_next
              (iterator_sequence ao) (fun _ : unit => True) (fun _ => True)
              (iterator_gen_ok ao) n st s)
    as (st' & s' & Hg & Hn' & _ & Href & Hkind); try assumption.
  - intros Hsp. congruence.
  - intros _. apply iterator_generator_ok.
  - exact I.
  - exists (st', s'). split; [exact Hg|]. split; [|exact Href].
    split; [|exact Hn']. simpl. unfold same_kind in Hkind. congruence.
Qed.

(** X23. [Stream_iterator(iter, ao)] over an infinite iterator: [s[n]] is
    [0] for [n < ao] and the item number [n - ao] of the iterator from
    there on, in whatever order the indices are asked and although the
    zeros at the front are not cached; the approximate order only moves
    up. *)
Theorem Stream_iterator_spec (ao n : Z) (p : inexact R nat * unit) :
  iterator_inv ao p ->
  (exists p',
     h_getitem Stream_iterator n p = Ok (iterator_sequence ao n, p')
     /\ iterator_inv ao p' /\ refines p.1 p'.1)
  /\ (n < ao -> iterator_sequence ao n = rO)
  /\ (ao <= n -> iterator_sequence ao n = items (Z.to_nat (n - ao)))
  /\ iterator_inv ao (Stream_iterator_init ao false, tt).
Proof.
  intros Hp. split; [|split; [|split]].
  - exact (Stream_iterator_getitem_correct ao n p Hp).
  - intros Hn. unfold iterator_sequence. destruct (Z.ltb_spec n ao); [reflexivity|lia].
  - intros Hn. unfold iterator_sequence. destruct (Z.ltb_spec n ao); [lia|reflexivity].
  - apply Stream_iterator_init_inv. discriminate.
Qed.

End Iterator.

(** The doctests of [Stream_iterator], over [iter(NonNegativeIntegers())]. *)
Example Stream_iterator_doctest_0 :
  values (Stream_iterator 0 Z.of_nat) (seqZ 0 10) (Stream_iterator_init 0 false, tt)
  = Ok [0; 1; 2; 3; 4; 5; 6; 7; 8; 9].
Proof. vm_compute. reflexivity. Qed.

Example Stream_iterator_doctest_1 :
  values (Stream_iterator 0 Z.of_nat) (seqZ 0 10) (Stream_iterator_init 1 false, tt)
  = Ok [0; 0; 1; 2; 3; 4; 5; 6; 7; 8].
Proof. vm_compute. reflexivity. Qed.

Lemma Stream_iterator_spec_witness :
  exists p',
    h_getitem (Stream_iterator 0 Z.of_nat) 7 (Stream_iterator_init 1 false, tt)
    = Ok (6, p').
Proof.
  destruct (Stream_iterator_spec 0 Z.of_nat 1 7 (Stream_iterator_init 1 false, tt))
    as [(p' & Hg & _) _].
  - apply Stream_iterator_init_inv. discriminate.
  - exists p'. exact Hg.
Defined.

Lemma Stream_truncated_order_sparse_witness :
  exists t0 p',
    Stream_truncated_init 0 Stream_lazy_approximate_order (-5) 0
      (Stream_function_init true 0 false, tt)
    = Ok (t0, (Stream_function_init true 0 false, tt))
    /\ Stream_truncated_order 0 Stream_lazy_approximate_order
         (fun n s => Ok (power_of_2 n, s)) 4
         (t0, (Stream_function_init true 0 false, tt)) = Ok (Fin 3, p').
Proof.
  assert (Hnz : exists v, function_sequence 0 power_of_2 0 v <> 0)
    by (exists 1; vm_compute; discriminate).
  destruct (Stream_truncated_init_sparse 0 Stream_lazy_approximate_order
              (function_sequence 0 power_of_2 0) (fun _ => True) (fun k => 0 <= k)
              Hnz (-5) 0 (Stream_function_init true 0 false, tt) eq_refl)
    as (t0 & Hinit & Hinv).
  - apply (Stream_function_init_inv 0 power_of_2 true 0 false). discriminate.
  - exact I.
  - assert (Ht0 : t_approximate_order t0 = 0).
    { vm_compute in Hinit. inversion Hinit. reflexivity. }
    destruct (Stream_truncated_order_sparse 0 Stream_lazy_approximate_order
                (fun n (s : unit) => Ok (power_of_2 n, s))
                (function_sequence 0 power_of_2 0) (fun _ => True) (fun k => 0 <= k)
                (Stream_function_coefficient_ok 0 power_of_2 0) Hnz (-5) 0 3 4
                (t0, (Stream_function_init true 0 false, tt)) Hinv)
      as (p' & Hord & _).
    + vm_compute. discriminate.
    + intros k Hk. unfold truncated_sequence.
      destruct (Z.ltb_spec k 0); [reflexivity|].
      assert (Hk3 : k = 0 \/ k = 1 \/ k = 2) by lia.
      destruct Hk3 as [Hk3|[Hk3|Hk3]]; subst k; reflexivity.
    + simpl. rewrite Ht0. lia.
    + exists t0, p'. split; [exact Hinit|exact Hord].
Defined.

(** ** The order of a Cauchy product *)

Section CauchyOrder.
Context {R : Type} `{EqDecision R}.
Variables (rO rI : R) (radd rmul rsub : R -> R -> R) (ropp : R -> R).
Hypothesis Rth : ring_theory rO rI radd rmul rsub ropp eq.
Add Ring Rring_cauchy_order : Rth.
Context {St : Type}.
Variable Inv : St -> Prop.



End CauchyOrder.


(** ** [Stream_exact.__ne__] against a truncated stream *)

(** [f(n) = 1 if n == 1 else 0]. *)
Definition one_at_1 (n : Z) : Z := if n =? 1 then 1 else 0.

(** A [Stream_truncated] does not keep the invariant of the cache that
    [Stream_exact.__ne__] relies on: its cache is the cache of its series,
    with the indices of the series. With [f] the sparse function stream of
    [one_at_1] and [s = Stream_truncated(f, -1, 0)], after [s[0]] the
    shared cache is [{1: 1}]; [Stream_exact([1]) != s] compares [self[1]]
    with it and answers [True], although the two streams have the same
    coefficients. *)
Example Stream_exact_ne_truncated_shared_cache :
  exists p0 p1,
    Stream_truncated_init 0 Stream_lazy_approximate_order (-1) 0
      (Stream_function_init true 0 false, tt) = Ok p0
    /\ Stream_truncated_getitem 0 Stream_lazy_approximate_order
         (fun n s => Ok (one_at_1 n, s)) 0 p0 = Ok (1, p1)
    /\ _cache p1.2.1 = SparseCache {[1 := 1]}
    /\ Stream_exact_ne_inexact 0 Stream_lazy_approximate_order false exact_one
         (mkInexact (t_true_order p1.1) (Some (Fin (t_approximate_order p1.1)))
                    (_cache p1.2.1) (None : option Z)) tt
       = Ok (true,
             (mkInexact (t_true_order p1.1) (Some (Fin (t_approximate_order p1.1)))
                        (_cache p1.2.1) None, tt))
    /\ forall n, Stream_exact_getitem 0 exact_one n
                 = truncated_sequence 0 (function_sequence 0 one_at_1 0) (-1) 0 n.
Proof.
  eexists _, _. split; [vm_compute; reflexivity|].
  split; [vm_compute; reflexivity|]. split; [reflexivity|].
  split; [vm_compute; reflexivity|].
  intros n. unfold Stream_exact_getitem, truncated_sequence, function_sequence,
    one_at_1, exact_one. simpl.
  destruct (Z.eq_dec n 0) as [->|Hn]; [reflexivity|].
  destruct (Z.leb_spec 1 n), (Z.ltb_spec n 0), (Z.ltb_spec (n - -1) 0),
    (Z.eqb_spec (n - -1) 1); try lia; try reflexivity.
  all: destruct (Z.ltb_spec (n - 0) 0); [reflexivity|lia].
Qed.
